(** * jina: the dense array codec and the client's input checks

    A shallow embedding of

    - [jina/types/ndarray/dense/numpy.py]: [DenseNdArray.value], the getter
      (decode) and the setter (encode) of the quantizing array codec;
    - [jina/clients/base/__init__.py]: [BaseClient.check_input] and
      [BaseClient._get_requests].

    NumPy arrays are modelled as what they are, typed memory: a dtype, a
    shape and the bytes of the elements in row-major order.  Floating-point
    elements are IEEE 754 values ([spec_float] of the standard library, with
    its correctly rounded operations), stored in their little-endian
    interchange encoding.

    The file has three parts: the model of the code, the vocabulary in which
    the properties are stated, and the properties with their proofs. *)

From Stdlib Require Import String ZArith QArith Qround Qminmax Qabs Qpower.
From Stdlib Require Import Bool Lia Lqa Arith List.
From Stdlib Require Import Strings.Byte.
From Stdlib Require Import Floats.SpecFloat.
Import ListNotations.

Local Open Scope Z_scope.

(** * The model

    ** Python results: a value or a raised exception *)

Inductive exc_class :=
| ValidationError
| BadClientInput
| TypeError
| ValueError
| KeyError
| ZeroDivisionError
| StopIteration
| KeyboardInterrupt
| UserError (name : string) (derives_Exception : bool).

(** An exception instance: its class and, for [raise ... from ex], the
    exception it was raised from (its [__cause__]). *)
Inductive exn :=
| Exn (cls : exc_class)
| ExnFrom (cls : exc_class) (cause : exn).

Definition exn_class (e : exn) : exc_class :=
  match e with
  | Exn c | ExnFrom c _ => c
  end.

Definition exn_cause (e : exn) : option exn :=
  match e with
  | Exn _ => None
  | ExnFrom _ c => Some c
  end.

Inductive result (A : Type) :=
| Ok (a : A)
| Raise (e : exn).
Arguments Ok {A} a.
Arguments Raise {A} e.

Definition bind {A B} (r : result A) (k : A -> result B) : result B :=
  match r with
  | Ok a => k a
  | Raise e => Raise e
  end.

Notation "x <- r ;; k" := (bind r (fun x => k))
  (at level 61, r at next level, right associativity).

(** ** Bytes and little-endian integers *)

Definition byte_of_Z (z : Z) : byte :=
  match Byte.of_N (Z.to_N (z mod 256)) with
  | Some b => b
  | None => x00
  end.

Definition Z_of_byte (b : byte) : Z := Z.of_N (Byte.to_N b).

(** [le_bytes n z]: the [n] low bytes of [z], least significant first. *)
Fixpoint le_bytes (n : nat) (z : Z) : list byte :=
  match n with
  | O => []
  | S k => byte_of_Z z :: le_bytes k (z / 256)
  end.

Fixpoint le_value (bs : list byte) : Z :=
  match bs with
  | [] => 0
  | b :: r => Z_of_byte b + 256 * le_value r
  end.

(** ** IEEE 754 binary formats

    A format is given by [prec] (bits of the significand, hidden bit
    included) and [emax], as in [SpecFloat]: binary16 is (11, 16), binary32
    is (24, 128), binary64 is (53, 1024). *)

Module IEEE.

Section Format.
Variables prec emax : Z.

Let mw := prec - 1.

(** The exponent field with all bits set. *)
Definition exp_ones : Z := 2 * emax - 1.

Definition sign_bit (s : bool) : Z := if s then 2 * emax * 2 ^ mw else 0.

(** The interchange encoding of a float (NaN: the quiet NaN without
    payload). *)
Definition bits_of_float (f : spec_float) : Z :=
  match f with
  | S754_zero s => sign_bit s
  | S754_infinity s => sign_bit s + exp_ones * 2 ^ mw
  | S754_nan => exp_ones * 2 ^ mw + 2 ^ (mw - 1)
  | S754_finite s m e =>
      if Zpos m <? 2 ^ mw
      then sign_bit s + Zpos m
      else sign_bit s + (e - emin prec emax + 1) * 2 ^ mw + (Zpos m - 2 ^ mw)
  end.

Definition float_of_bits (z : Z) : spec_float :=
  let M := z mod 2 ^ mw in
  let E := (z / 2 ^ mw) mod (2 * emax) in
  let s := Z.odd (z / (2 ^ mw * (2 * emax))) in
  if E =? 0 then
    if M =? 0 then S754_zero s else S754_finite s (Z.to_pos M) (emin prec emax)
  else if E =? exp_ones then
    if M =? 0 then S754_infinity s else S754_nan
  else S754_finite s (Z.to_pos (M + 2 ^ mw)) (E - 1 + emin prec emax).

(** Conversions into the format, correctly rounded (to nearest, ties to
    even). *)
Definition of_Z (z : Z) : spec_float := binary_normalize prec emax z 0 false.

Definition of_float (f : spec_float) : spec_float :=
  match f with
  | S754_finite s m e => binary_round prec emax s m e
  | _ => f
  end.
End Format.

(** The real number a finite float denotes; 0 for the others. *)
Definition value (f : spec_float) : Q :=
  match f with
  | S754_finite s m e =>
      let n := if s then Zneg m else Zpos m in
      match e with
      | Zneg p => n # (2 ^ p)
      | _ => inject_Z (n * 2 ^ e)
      end
  | _ => 0%Q
  end.

Definition is_finite (f : spec_float) : bool :=
  match f with
  | S754_zero _ | S754_finite _ _ _ => true
  | _ => false
  end.

Definition is_nan (f : spec_float) : bool :=
  match f with
  | S754_nan => true
  | _ => false
  end.

(** The integer part of a finite float (rounding toward zero, as a C
    conversion to an integer type does). *)
Definition trunc (f : spec_float) : option Z :=
  match f with
  | S754_zero _ => Some 0
  | S754_finite s m e =>
      let a := match e with
               | Zneg p => Zpos m / 2 ^ Zpos p
               | _ => Zpos m * 2 ^ e
               end in
      Some (if s then - a else a)
  | _ => None
  end.

End IEEE.

(** ** NumPy: dtypes, typed memory, the operations the codec calls *)

Module np.

Inductive DType :=
| float16 | float32 | float64
| int8 | int16 | int32 | int64
| uint8 | uint16 | uint32 | uint64.

Scheme Equality for DType.

Inductive dkind :=
| Float (prec emax : Z)
| Int (signed : bool).

Definition kind (dt : DType) : dkind :=
  match dt with
  | float16 => Float 11 16
  | float32 => Float 24 128
  | float64 => Float 53 1024
  | int8 | int16 | int32 | int64 => Int true
  | uint8 | uint16 | uint32 | uint64 => Int false
  end.

Definition is_float (dt : DType) : bool :=
  match kind dt with
  | Float _ _ => true
  | Int _ => false
  end.

Definition itemsize (dt : DType) : nat :=
  match dt with
  | int8 | uint8 => 1
  | float16 | int16 | uint16 => 2
  | float32 | int32 | uint32 => 4
  | float64 | int64 | uint64 => 8
  end.

(** [x.dtype.str] on a little-endian machine, and [x.dtype.name]. *)
Definition str (dt : DType) : string :=
  match dt with
  | float16 => "<f2" | float32 => "<f4" | float64 => "<f8"
  | int8 => "|i1" | int16 => "<i2" | int32 => "<i4" | int64 => "<i8"
  | uint8 => "|u1" | uint16 => "<u2" | uint32 => "<u4" | uint64 => "<u8"
  end.

Definition name (dt : DType) : string :=
  match dt with
  | float16 => "float16" | float32 => "float32" | float64 => "float64"
  | int8 => "int8" | int16 => "int16" | int32 => "int32" | int64 => "int64"
  | uint8 => "uint8" | uint16 => "uint16" | uint32 => "uint32"
  | uint64 => "uint64"
  end.

Definition all_dtypes : list DType :=
  [float16; float32; float64; int8; int16; int32; int64;
   uint8; uint16; uint32; uint64].

(** [np.dtype(s)] for the two spellings the codec writes; [None] stands for
    "data type not understood". *)
Definition dtype_of_string (s : string) : option DType :=
  find (fun dt => String.eqb s (str dt) || String.eqb s (name dt)) all_dtypes.

(** The value of one element: a float of the dtype's format or an integer. *)
Inductive scalar :=
| F (f : spec_float)
| I (z : Z).

Definition bits (dt : DType) : Z := 8 * Z.of_nat (itemsize dt).

(** Reduction of an integer into the range of an integer dtype (two's
    complement for the signed ones). *)
Definition wrap (dt : DType) (z : Z) : Z :=
  match kind dt with
  | Int true => (z + 2 ^ (bits dt - 1)) mod 2 ^ bits dt - 2 ^ (bits dt - 1)
  | _ => z mod 2 ^ bits dt
  end.

Definition in_range (dt : DType) (z : Z) : bool := wrap dt z =? z.

(** The elements as they lie in memory. *)
Definition load (dt : DType) (bs : list byte) : scalar :=
  match kind dt with
  | Float p e => F (IEEE.float_of_bits p e (le_value bs))
  | Int _ => I (wrap dt (le_value bs))
  end.

Definition store (dt : DType) (v : scalar) : list byte :=
  match kind dt, v with
  | Float p e, F f => le_bytes (itemsize dt) (IEEE.bits_of_float p e f)
  | Int _, I z => le_bytes (itemsize dt) z
  | _, _ => repeat x00 (itemsize dt)
  end.

(** Converting a float to an integer type is defined by C only when the
    truncated value is in the range of the type; what an out-of-range value,
    an infinity or a NaN gives is up to the platform. *)
Class Platform := { cast_undefined : DType -> spec_float -> Z }.

(** x86-64: the conversion goes through a wide integer and keeps the low
    bits; NaN and the infinities give 0 in the low bits. *)
Definition x86_64 : Platform :=
  {| cast_undefined := fun _ f =>
       match IEEE.trunc f with
       | Some z => z
       | None => 0
       end |}.

Section Arrays.
Context {platform : Platform}.

(** The conversion [astype] applies to one element. *)
Definition cast (dt : DType) (v : scalar) : scalar :=
  match kind dt, v with
  | Float p e, F f => F (IEEE.of_float p e f)
  | Float p e, I z => F (IEEE.of_Z p e z)
  | Int _, I z => I (wrap dt z)
  | Int _, F f =>
      I (wrap dt
           match IEEE.trunc f with
           | Some z => if in_range dt z then z else cast_undefined dt f
           | None => cast_undefined dt f
           end)
  end.

Record ndarray := { dtype : DType; shape : list nat; data : list byte }.

Definition prod (shp : list nat) : nat := fold_right Nat.mul 1%nat shp.

(** [x.size] *)
Definition size (x : ndarray) : nat := prod (shape x).

(** The memory of an array holds exactly its elements. *)
Definition wf (x : ndarray) : Prop :=
  length (data x) = (itemsize (dtype x) * size x)%nat.

Fixpoint chunks (k n : nat) (l : list byte) : list (list byte) :=
  match n with
  | O => []
  | S n' => firstn k l :: chunks k n' (skipn k l)
  end.

Definition items (x : ndarray) : list scalar :=
  map (load (dtype x))
      (chunks (itemsize (dtype x))
              (length (data x) / itemsize (dtype x))%nat (data x)).

Definition of_items (dt : DType) (shp : list nat) (vs : list scalar)
  : ndarray :=
  {| dtype := dt; shape := shp; data := concat (map (store dt) vs) |}.

(** [x.tobytes()] *)
Definition tobytes (x : ndarray) : list byte := data x.

(** [np.frombuffer(buffer, dtype=s)]: a one-dimensional view of the
    buffer. *)
Definition frombuffer (buffer : list byte) (s : string) : result ndarray :=
  match dtype_of_string s with
  | None => Raise (Exn TypeError)
  | Some dt =>
      if (length buffer mod itemsize dt =? 0)%nat
      then Ok {| dtype := dt;
                 shape := [(length buffer / itemsize dt)%nat];
                 data := buffer |}
      else Raise (Exn ValueError)
  end.

(** [x.astype(dt)] *)
Definition astype (x : ndarray) (dt : DType) : ndarray :=
  of_items dt (shape x) (map (cast dt) (items x)).

(** [x.astype(s)] with the dtype given by its name. *)
Definition astype_str (x : ndarray) (s : string) : result ndarray :=
  match dtype_of_string s with
  | None => Raise (Exn TypeError)
  | Some dt => Ok (astype x dt)
  end.

(** [x.reshape(shp)] *)
Definition reshape (x : ndarray) (shp : list nat) : result ndarray :=
  if (prod shp =? size x)%nat
  then Ok {| dtype := dtype x; shape := shp; data := data x |}
  else Raise (Exn ValueError).

(** [np.zeros(shp)]: float64 is the default dtype. *)
Definition zeros (shp : list nat) : ndarray :=
  {| dtype := float64; shape := shp;
     data := repeat x00 (itemsize float64 * prod shp) |}.

(** [x.max()] and [x.min()]: a NaN propagates; an empty array has no
    maximum. *)
Definition fmax (a b : spec_float) : spec_float :=
  if IEEE.is_nan a then a else
  if IEEE.is_nan b then b else
  if SFltb a b then b else a.

Definition fmin (a b : spec_float) : spec_float :=
  if IEEE.is_nan a then a else
  if IEEE.is_nan b then b else
  if SFltb b a then b else a.

Definition smax (a b : scalar) : scalar :=
  match a, b with
  | F x, F y => F (fmax x y)
  | I x, I y => I (Z.max x y)
  | _, _ => a
  end.

Definition smin (a b : scalar) : scalar :=
  match a, b with
  | F x, F y => F (fmin x y)
  | I x, I y => I (Z.min x y)
  | _, _ => a
  end.

Definition reduce (op : scalar -> scalar -> scalar) (x : ndarray)
  : result scalar :=
  match items x with
  | [] => Raise (Exn ValueError)
  | v :: vs => Ok (fold_left op vs v)
  end.

Definition max (x : ndarray) : result scalar := reduce smax x.
Definition min (x : ndarray) : result scalar := reduce smin x.

(** A NumPy scalar assigned to a [double] field, or used as a Python
    float. *)
Definition to_double (v : scalar) : spec_float :=
  match v with
  | F f => IEEE.of_float 53 1024 f
  | I z => IEEE.of_Z 53 1024 z
  end.

(** [x op s] for a Python float [s]: a float array keeps its dtype and
    the operation is done in its format, on [s] converted to it; an
    integer array gives float64. *)
Definition as_float (v : scalar) : spec_float :=
  match v with
  | F f => f
  | I z => IEEE.of_Z 53 1024 z
  end.

(** One element of [x op s], in the format of [dt]. *)
Definition arith1 (op : Z -> Z -> spec_float -> spec_float -> spec_float)
  (dt : DType) (s : spec_float) (v : scalar) : scalar :=
  match kind dt with
  | Float p e => F (op p e (as_float v) (IEEE.of_float p e s))
  | Int _ => v
  end.

Definition arith (op : Z -> Z -> spec_float -> spec_float -> spec_float)
  (x : ndarray) (s : spec_float) : ndarray :=
  let dt := if is_float (dtype x) then dtype x else float64 in
  of_items dt (shape x) (map (arith1 op dt s) (items x)).

Definition sub (x : ndarray) (s : spec_float) : ndarray := arith SFsub x s.
Definition div (x : ndarray) (s : spec_float) : ndarray := arith SFdiv x s.
Definition mul (x : ndarray) (s : spec_float) : ndarray := arith SFmul x s.
Definition add (x : ndarray) (s : spec_float) : ndarray := arith SFadd x s.
End Arrays.

End np.

(** ** The protobuf message that carries an array *)

Module jina_pb2.

(** The members of [DenseNdArrayProto.QuantizationMode] that the codec
    names. *)
Inductive QuantizationMode := NONE | FP16 | UINT8 | FP32.

Scheme Equality for QuantizationMode.

(** Modelled from the spec: the message [DenseNdArrayProto] is declared in
    the protocol definition, which is not among the sources.  Its fields are
    the ones the codec reads and writes, with the types of the wire-payload
    table: bytes, strings, a sequence of non-negative integers and 64-bit
    floats. *)
Record DenseNdArrayProto := {
  buffer : list byte;
  shape : list nat;
  dtype : string;
  quantization : QuantizationMode;
  max_val : spec_float;
  min_val : spec_float;
  scale : spec_float;
  original_dtype : string
}.

(** A new message: every field has its default. *)
Definition empty : DenseNdArrayProto :=
  {| buffer := []; shape := []; dtype := ""; quantization := NONE;
     max_val := S754_zero false; min_val := S754_zero false;
     scale := S754_zero false; original_dtype := "" |}.

(** Assignments to one field. *)
Definition set_buffer (v : list byte) (b : DenseNdArrayProto) :=
  {| buffer := v; shape := shape b; dtype := dtype b;
     quantization := quantization b; max_val := max_val b;
     min_val := min_val b; scale := scale b;
     original_dtype := original_dtype b |}.

Definition set_shape (v : list nat) (b : DenseNdArrayProto) :=
  {| buffer := buffer b; shape := v; dtype := dtype b;
     quantization := quantization b; max_val := max_val b;
     min_val := min_val b; scale := scale b;
     original_dtype := original_dtype b |}.

Definition set_dtype (v : string) (b : DenseNdArrayProto) :=
  {| buffer := buffer b; shape := shape b; dtype := v;
     quantization := quantization b; max_val := max_val b;
     min_val := min_val b; scale := scale b;
     original_dtype := original_dtype b |}.

Definition set_quantization (v : QuantizationMode) (b : DenseNdArrayProto) :=
  {| buffer := buffer b; shape := shape b; dtype := dtype b;
     quantization := v; max_val := max_val b;
     min_val := min_val b; scale := scale b;
     original_dtype := original_dtype b |}.

Definition set_max_val (v : spec_float) (b : DenseNdArrayProto) :=
  {| buffer := buffer b; shape := shape b; dtype := dtype b;
     quantization := quantization b; max_val := v;
     min_val := min_val b; scale := scale b;
     original_dtype := original_dtype b |}.

Definition set_min_val (v : spec_float) (b : DenseNdArrayProto) :=
  {| buffer := buffer b; shape := shape b; dtype := dtype b;
     quantization := quantization b; max_val := max_val b;
     min_val := v; scale := scale b;
     original_dtype := original_dtype b |}.

Definition set_scale (v : spec_float) (b : DenseNdArrayProto) :=
  {| buffer := buffer b; shape := shape b; dtype := dtype b;
     quantization := quantization b; max_val := max_val b;
     min_val := min_val b; scale := v;
     original_dtype := original_dtype b |}.

Definition set_original_dtype (v : string) (b : DenseNdArrayProto) :=
  {| buffer := buffer b; shape := shape b; dtype := dtype b;
     quantization := quantization b; max_val := max_val b;
     min_val := min_val b; scale := scale b;
     original_dtype := v |}.

End jina_pb2.

(** ** [DenseNdArray]: the codec *)

Module DenseNdArray.

Import jina_pb2.

(** [self._dtype = dtype or os.environ.get('JINA_ARRAY_QUANT')]: the
    argument unless it is missing or empty, else the environment's value. *)
Definition init (dtype : option string) (JINA_ARRAY_QUANT : option string)
  : option string :=
  match dtype with
  | Some s => if String.eqb s "" then JINA_ARRAY_QUANT else Some s
  | None => JINA_ARRAY_QUANT
  end.

(** [self._dtype == s] *)
Definition is_mode (self_dtype : option string) (s : string) : bool :=
  match self_dtype with
  | Some d => String.eqb d s
  | None => false
  end.

(** Python float arithmetic of the setter: binary64. *)
Definition py_sub : spec_float -> spec_float -> spec_float := SFsub 53 1024.
Definition py_div_int (a : spec_float) (n : Z) : spec_float :=
  SFdiv 53 1024 a (IEEE.of_Z 53 1024 n).

Section Codec.
Context {platform : np.Platform}.

(** The getter of [value]: [Ok None] is the implicit [return None] at the
    end of the function. *)
Definition get_value (blob : DenseNdArrayProto)
  : result (option np.ndarray) :=
  match buffer blob with
  | _ :: _ =>
      x <- np.frombuffer (buffer blob) (dtype blob) ;;
      x <- match quantization blob with
           | FP16 => np.astype_str x (original_dtype blob)
           | UINT8 =>
               y <- np.astype_str x (original_dtype blob) ;;
               Ok (np.add (np.mul y (scale blob)) (min_val blob))
           | _ => Ok x
           end ;;
      r <- np.reshape x (shape blob) ;;
      Ok (Some r)
  | [] =>
      if (0 <? length (shape blob))%nat
      then Ok (Some (np.zeros (shape blob)))
      else Ok None
  end.

(** The last three statements of the setter. *)
Definition store_array (x : np.ndarray) (blob : DenseNdArrayProto)
  : DenseNdArrayProto :=
  set_dtype (np.str (np.dtype x))
    (set_shape (np.shape x)
       (set_buffer (np.tobytes x) blob)).

(** The setter of [value].  It returns the message as the call leaves it
    and [Raise e] when the call ends in an exception: the assignments made
    before the exception stay. *)
Definition set_value (self_dtype : option string)
  (blob : DenseNdArrayProto) (value : np.ndarray)
  : DenseNdArrayProto * result unit :=
  let x := value in
  let dt := np.dtype x in
  if is_mode self_dtype "fp32" && np.DType_beq dt np.float64 then
    let blob := set_quantization FP32 blob in
    let blob := set_original_dtype (np.name dt) blob in
    let x := np.astype x np.float32 in
    (store_array x blob, Ok tt)
  else if is_mode self_dtype "fp16"
          && (np.DType_beq dt np.float32 || np.DType_beq dt np.float64) then
    let blob := set_quantization FP16 blob in
    let blob := set_original_dtype (np.name dt) blob in
    let x := np.astype x np.float16 in
    (store_array x blob, Ok tt)
  else if is_mode self_dtype "uint8"
          && (np.DType_beq dt np.float32 || np.DType_beq dt np.float64
              || np.DType_beq dt np.float16) then
    let blob := set_quantization UINT8 blob in
    match np.max x, np.min x with
    | Ok mx, Ok mn =>
        let blob := set_min_val (np.to_double mn)
                      (set_max_val (np.to_double mx) blob) in
        let blob := set_original_dtype (np.name dt) blob in
        let blob :=
          set_scale (py_div_int (py_sub (max_val blob) (min_val blob)) 256)
                    blob in
        let x := np.astype (np.div (np.sub x (min_val blob)) (scale blob))
                           np.uint8 in
        (store_array x blob, Ok tt)
    | Raise e, _ | _, Raise e => (blob, Raise e)
    end
  else
    let blob := set_quantization NONE blob in
    (store_array x blob, Ok tt).
End Codec.

End DenseNdArray.

(** ** [BaseClient]: the input check and the request iterator *)

Module Client.

(** The Python objects a client is given as inputs or as arguments. *)
Inductive PyObj :=
| PyNone
| PyInt (z : Z)
| PyStr (s : string)
| PyList (items : list string)
    (* a finite collection of raw documents: it has [__len__] *)
| PyGenerator (items : list string)
    (* a generator object: it has no [__len__] *)
| PyAsyncGen
    (* an asynchronous generator object *)
| PyAsyncGenFunction
    (* an [async def] with [yield]: calling it only creates the generator *)
| PyFunction (outcome : call_outcome)
    (* any other callable, with what calling it without arguments does *)
| PyRequest (id : nat)
    (* an instance of [Request] *)
| PyObject (id : nat)
    (* any other object *)
with call_outcome :=
| Returns (o : PyObj)
| Throws (e : exn).

(** [hasattr(o, '__call__')] *)
Definition callable (o : PyObj) : bool :=
  match o with
  | PyAsyncGenFunction | PyFunction _ => true
  | _ => false
  end.

(** [o()] for a callable [o]. *)
Definition call (o : PyObj) : result PyObj :=
  match o with
  | PyAsyncGenFunction => Ok PyAsyncGen
  | PyFunction (Returns r) => Ok r
  | PyFunction (Throws e) => Raise e
  | _ => Raise (Exn TypeError)
  end.

Definition isasyncgenfunction (o : PyObj) : bool :=
  match o with
  | PyAsyncGenFunction => true
  | _ => false
  end.

Definition isasyncgen (o : PyObj) : bool :=
  match o with
  | PyAsyncGen => true
  | _ => false
  end.

(** [isinstance(o, Request)] *)
Definition is_Request (o : PyObj) : bool :=
  match o with
  | PyRequest _ => true
  | _ => false
  end.

(** [len(o)] where [o] has [__len__]. *)
Definition py_len (o : PyObj) : option Z :=
  match o with
  | PyStr s => Some (Z.of_nat (String.length s))
  | PyList l => Some (Z.of_nat (List.length l))
  | _ => None
  end.

(** [issubclass(type(e), Exception)]: what [except Exception] catches. *)
Definition is_Exception (e : exn) : bool :=
  match exn_class e with
  | KeyboardInterrupt => false
  | UserError _ b => b
  | _ => true
  end.

(** Keyword arguments and [vars(args)]: dictionaries with string keys. *)
Definition dict := list (string * PyObj).

Definition dict_get (k : string) (d : dict) : option PyObj :=
  option_map snd (find (fun kv => String.eqb k (fst kv)) d).

(** [d[k] = v] *)
Definition dict_set (k : string) (v : PyObj) (d : dict) : dict :=
  (k, v) :: filter (fun kv => negb (String.eqb k (fst kv))) d.

(** [d.update(other)] *)
Definition dict_update (d other : dict) : dict :=
  fold_left (fun acc kv => dict_set (fst kv) (snd kv) acc) other d.

(** What a call does besides returning: the calls made to the inputs and to
    the request generator, and what is logged. *)
Inductive event :=
| Called
| Pulled (kwargs : dict)
| LoggedError (msg : string).

(** A computation: the events in order, then the value or the exception. *)
Definition M (A : Type) : Type := list event * result A.

Definition ret {A} (a : A) : M A := ([], Ok a).
Definition raise {A} (e : exn) : M A := ([], Raise e).
Definition emit (ev : event) : M unit := ([ev], Ok tt).

Definition mbind {A B} (c : M A) (k : A -> M B) : M B :=
  match c with
  | (evs, Ok a) => let '(evs', r) := k a in (evs ++ evs', r)
  | (evs, Raise e) => (evs, Raise e)
  end.

Notation "x <~ c ;; k" := (mbind c (fun x => k))
  (at level 61, c at next level, right associativity).

(** [try: body except Exception as ex: handler] *)
Definition try_except_Exception {A} (body : M A) (handler : exn -> M A)
  : M A :=
  match body with
  | (evs, Raise ex) =>
      if is_Exception ex
      then let '(evs', r) := handler ex in (evs ++ evs', r)
      else (evs, Raise ex)
  | ok => ok
  end.

(** A Python number: an [int], or the [float] that [int / int] gives.
    True division gives the float nearest to the exact quotient; the model
    keeps the quotient itself. *)
Inductive number :=
| Int (z : Z)
| Quotient (q : Q).

Definition number_value (n : number) : Q :=
  match n with
  | Int z => inject_Z z
  | Quotient q => q
  end.

(** [a / b] for integers, [b] not zero. *)
Definition truediv (a b : Z) : number := Quotient (inject_Z a / inject_Z b).

(** [max(a, b)]: the first argument unless the second is greater. *)
Definition py_max (a b : number) : number :=
  if Qlt_le_dec (number_value a) (number_value b) then b else a.

(** The iterator [_get_requests] asks for: the one the generator of
    [..request.asyncio] or the one of [..request] makes from the keyword
    arguments. *)
Inductive request_iterator :=
| AsyncRequests (kwargs : dict)
| SyncRequests (kwargs : dict).

Record BaseClient := {
  args : dict;                      (* [vars(self.args)] *)
  _inputs : PyObj;
  _inputs_length : option number    (* [None]: not known *)
}.

Section Requests.
(** [next(request_generator( **kwargs ))]: the function is defined in
    [jina/clients/request], which is not among the sources; the model takes
    what pulling its first request does as given: a value, or an exception
    ([StopIteration] when nothing is produced). *)
Variable first_request : dict -> result PyObj.

Definition check_input (inputs : PyObj) (kwargs : dict) : M unit :=
  match inputs with
  | PyNone =>
      (* empty inputs is considered as valid *)
      ret tt
  | _ =>
      inputs <~ (if callable inputs
                 then _ <~ emit Called ;; ([], call inputs)
                 else ret inputs) ;;
      let kwargs := dict_set "data" inputs kwargs in
      let kwargs := dict_set "exec_endpoint" (PyStr "/") kwargs in
      if isasyncgenfunction inputs || isasyncgen inputs then
        raise (Exn ValidationError)
      else
        try_except_Exception
          (_ <~ emit (Pulled kwargs) ;;
           r <~ ([], first_request kwargs) ;;
           if negb (is_Request r) then raise (Exn TypeError) else ret tt)
          (fun ex =>
             _ <~ emit (LoggedError "inputs is not valid!") ;;
             raise (ExnFrom BadClientInput ex))
  end.

(** The [inputs] property and its setter. *)
Definition inputs (self : BaseClient) : PyObj := _inputs self.

Definition set_inputs (bytes_gen : PyObj) (self : BaseClient)
  : BaseClient * result unit :=
  if callable bytes_gen then
    match call bytes_gen with
    | Ok v => ({| args := args self; _inputs := v;
                  _inputs_length := _inputs_length self |}, Ok tt)
    | Raise e => (self, Raise e)
    end
  else ({| args := args self; _inputs := bytes_gen;
           _inputs_length := _inputs_length self |}, Ok tt).

(** [request_generator( **kwargs )] of [..request.asyncio] and of
    [..request]: the two functions are not among the sources either; the
    model takes what calling them raises, if anything, as given.  A call
    that returns gives the iterator made from the keyword arguments. *)
Variable generator_raises : request_iterator -> option exn.

(** [_get_requests]: [vars(self.args)] is the dictionary of the arguments
    itself, so the two updates are updates of [self.args]; the expected
    length is assigned before the request generator is called. *)
Definition _get_requests (self : BaseClient) (kwargs : dict)
  : BaseClient * result request_iterator :=
  let _kwargs := args self in
  let _kwargs := dict_set "data" (inputs self) _kwargs in
  let _kwargs := dict_update _kwargs kwargs in
  let self := {| args := _kwargs; _inputs := _inputs self;
                 _inputs_length := _inputs_length self |} in
  let length :=
    match py_len (_inputs self) with
    | Some len =>
        match dict_get "request_size" _kwargs with
        | Some (PyInt request_size) =>
            if request_size =? 0 then Raise (Exn ZeroDivisionError)
            else Ok (Some (py_max (Int 1) (truediv len request_size)))
        | Some _ => Raise (Exn TypeError)
        | None => Raise (Exn KeyError)
        end
    | None => Ok None
    end in
  match length with
  | Raise e => (self, Raise e)
  | Ok n =>
      let self := {| args := args self; _inputs := _inputs self;
                     _inputs_length := n |} in
      let requests := if isasyncgen (inputs self)
                      then AsyncRequests _kwargs
                      else SyncRequests _kwargs in
      (self,
       match generator_raises requests with
       | Some e => Raise e
       | None => Ok requests
       end)
  end.
End Requests.

(** The expected number of batches in the words of the specification:
    [ceil(length / batch_size)], at least 1. *)
Definition ceil_batches (length batch_size : Z) : Z :=
  Z.max 1 ((length + batch_size - 1) / batch_size).

End Client.

(** * The vocabulary of the properties *)

(** ** The client *)

Module Client_spec.
Import Client.

(** The source as [check_input] sees it after its first statement: the
    result of calling it when it is callable, else itself. *)
Definition resolve (inputs : PyObj) : result PyObj :=
  if callable inputs then call inputs else Ok inputs.

(** What the check refuses: an asynchronous generator or generator
    function. *)
Definition is_async (o : PyObj) : bool :=
  isasyncgenfunction o || isasyncgen o.

Definition is_Pulled (ev : event) : bool :=
  match ev with
  | Pulled _ => true
  | _ => false
  end.

(** The requests a call constructed: its pulls of the request generator. *)
Definition pulls {A} (c : M A) : list event := filter is_Pulled (fst c).

(** The keyword arguments the check hands to the request generator. *)
Definition check_kwargs (o : PyObj) (kwargs : dict) : dict :=
  dict_set "exec_endpoint" (PyStr "/") (dict_set "data" o kwargs).

(** The statements of [check_input] after the source is resolved. *)
Definition check_resolved (fr : dict -> result PyObj) (o : PyObj)
  (kwargs : dict) : M unit :=
  if is_async o then raise (Exn ValidationError)
  else
    try_except_Exception
      (_ <~ emit (Pulled (check_kwargs o kwargs)) ;;
       r <~ ([], fr (check_kwargs o kwargs)) ;;
       if negb (is_Request r) then raise (Exn TypeError) else ret tt)
      (fun ex =>
         _ <~ emit (LoggedError "inputs is not valid!") ;;
         raise (ExnFrom BadClientInput ex)).

(** The keyword arguments [_get_requests] works with. *)
Definition merged_kwargs (self : BaseClient) (kwargs : dict) : dict :=
  dict_update (dict_set "data" (inputs self) (args self)) kwargs.

(** A list of seven documents, and a client that holds it with a request
    size of 3. *)
Definition seven : PyObj :=
  PyList ["a"; "b"; "c"; "d"; "e"; "f"; "g"]%string.

Definition client7 : BaseClient :=
  {| args := [("request_size"%string, PyInt 3)]; _inputs := seven;
     _inputs_length := None |}.

End Client_spec.

(** ** The codec *)

Module Codec_spec.
Import jina_pb2 DenseNdArray.

(** The element types each requested mode does not apply to: [fp32] narrows
    float64 only, [fp16] float32 and float64, [uint8] the three float types;
    any other mode, or none, quantizes nothing. *)
Definition unsupported (mode : option string) (dt : np.DType) : bool :=
  if is_mode mode "fp32" then negb (np.DType_beq dt np.float64)
  else if is_mode mode "fp16"
       then negb (np.DType_beq dt np.float32 || np.DType_beq dt np.float64)
  else if is_mode mode "uint8" then negb (np.is_float dt)
  else true.

(** The float 1.0. *)
Definition one : np.scalar := np.F (IEEE.of_Z 53 1024 1).

(** A float64 array with the single element 1.0. *)
Definition ones1 : np.ndarray := np.of_items np.float64 [1%nat] [one].

(** An empty float32 array of shape [(0,)]. *)
Definition empty32 : np.ndarray :=
  {| np.dtype := np.float32; np.shape := [0%nat]; np.data := [] |}.

(** What the last branch of the setter leaves in the message. *)
Definition stored_verbatim (x : np.ndarray) (blob blob' : DenseNdArrayProto)
  : Prop :=
  quantization blob' = NONE
  /\ buffer blob' = np.data x
  /\ dtype blob' = np.str (np.dtype x)
  /\ shape blob' = np.shape x
  /\ original_dtype blob' = original_dtype blob
  /\ (max_val blob', min_val blob', scale blob')
     = (max_val blob, min_val blob, scale blob).

(** A message that declares the shape [(3, 4)] and holds no buffer. *)
Definition declared34 : DenseNdArrayProto := set_shape [3%nat; 4%nat] empty.

(** An int32 array with the elements 1 and 2. *)
Definition ints12 : np.ndarray :=
  np.of_items np.int32 [2%nat] [np.I 1; np.I 2].

(** *** Elements as numbers *)

Local Open Scope Q_scope.

(** A value as it reads back from the memory of an array of dtype [dt]. *)
Definition stored (dt : np.DType) (v : np.scalar) : np.scalar :=
  np.load dt (np.store dt v).

(** The real number an element denotes. *)
Definition real (v : np.scalar) : Q :=
  match v with
  | np.F f => IEEE.value f
  | np.I z => inject_Z z
  end.

(** [v] is a finite float, and it denotes [q]. *)
Definition finite_with (q : Q) (v : np.scalar) : Prop :=
  match v with
  | np.F f => IEEE.is_finite f = true /\ IEEE.value f == q
  | np.I _ => False
  end.

(** [v] is a float of the format of [dt] (a canonical significand and
    exponent, an infinity or a NaN). *)
Definition float_of (dt : np.DType) (v : np.scalar) : Prop :=
  match np.kind dt, v with
  | np.Float p e, np.F f => valid_binary p e f = true
  | _, _ => False
  end.

(** The significand with its sign. *)
Definition signed (s : bool) (m : positive) : Z :=
  if s then Zneg m else Zpos m.

(** Below every float: a NaN (which a minimum propagates) or minus
    infinity. *)
Definition bottom (f : spec_float) : Prop :=
  f = S754_nan \/ f = S754_infinity true.

(** *** The path of one element through the UINT8 mode *)

Section Steps.
Context {platform : np.Platform}.
Variable dt : np.DType.
Variables min_val scale : spec_float.

(** The path of one element [v] through the setter,
    [((x - min_val) / scale).astype(np.uint8)], and of its code [k] through
    the getter, [x.astype(original_dtype) * scale + min_val]: every
    intermediate array is memory of its own. *)
Definition step_sub (v : np.scalar) : np.scalar :=
  stored dt (np.arith1 SFsub dt min_val v).

Definition step_div (d : np.scalar) : np.scalar :=
  stored dt (np.arith1 SFdiv dt scale d).

Definition step_code (t : np.scalar) : np.scalar :=
  stored np.uint8 (np.cast np.uint8 t).

Definition step_float (k : np.scalar) : np.scalar :=
  stored dt (np.cast dt k).

Definition step_mul (y : np.scalar) : np.scalar :=
  stored dt (np.arith1 SFmul dt scale y).

Definition step_add (u : np.scalar) : np.scalar :=
  stored dt (np.arith1 SFadd dt min_val u).

Definition quantize (v : np.scalar) : np.scalar :=
  step_code (step_div (step_sub v)).

Definition dequantize (k : np.scalar) : np.scalar :=
  step_add (step_mul (step_float k)).

End Steps.

Section Representable.
Context {platform : np.Platform}.

(** [f], converted to the format of [dt] and stored, is finite and denotes
    what [f] denotes. *)
Definition representable (dt : np.DType) (f : spec_float) : Prop :=
  finite_with (IEEE.value f) (stored dt (np.cast dt (np.F f))).
End Representable.

(** The codes: the integers a byte holds. *)
Definition codes : list Z := map Z.of_nat (seq 0 256).

(** A code converted to a float format and stored is a non-negative finite
    float that denotes the code. *)
Definition code_check (p e : Z) (dt : np.DType) (k : Z) : bool :=
  match stored dt (np.F (IEEE.of_Z p e k)) with
  | np.F (S754_zero false) => (k =? 0)%Z
  | np.F (S754_finite false m x) =>
      Qeq_bool (IEEE.value (S754_finite false m x)) (inject_Z k)
  | _ => false
  end.

(** *** Arrays of the examples *)

(** The binary64 float [m * 2 ^ e]. *)
Definition f64 (m e : Z) : np.scalar :=
  np.F (binary_normalize 53 1024 m e false).

(** The float64 array [[0.0, 0.75, 256.0]]. *)
Definition ramp : np.ndarray :=
  np.of_items np.float64 [3%nat]
    [np.F (S754_zero false); f64 3 (-2); f64 256 0].


(** The float64 array [[5.0, 5.0]]. *)
Definition fives : np.ndarray :=
  np.of_items np.float64 [2%nat] [f64 5 0; f64 5 0].

(** What the round trip in [uint8] mode gives, when it gives an array. *)
Definition uint8_trip {platform : np.Platform} (x : np.ndarray)
  : option (DenseNdArrayProto * np.ndarray) :=
  let blob := fst (set_value (Some "uint8"%string) empty x) in
  match get_value blob with
  | Ok (Some y) => Some (blob, y)
  | _ => None
  end.

(** *** The float types *)

(** The distance from 1.0 to the next float of [dt]
    ([np.finfo(dt).eps]). *)
Definition eps (dt : np.DType) : Q :=
  match np.kind dt with
  | np.Float p _ => 2 ^ (1 - p)
  | np.Int _ => 0
  end.

(** The smallest positive normal float of [dt] ([np.finfo(dt).tiny]). *)
Definition tiny (dt : np.DType) : Q :=
  match np.kind dt with
  | np.Float _ e => 2 ^ (2 - e)
  | np.Int _ => 0
  end.

(** An eighth of [2 ^ emax], the power of two just above the finite floats
    of [dt]: about an eighth of [np.finfo(dt).max]. *)
Definition limit (dt : np.DType) : Q :=
  match np.kind dt with
  | np.Float _ e => 2 ^ (e - 3)
  | np.Int _ => 0
  end.

(** The larger of the magnitudes of [min_val] and [max_val]. *)
Definition magnitude (blob : DenseNdArrayProto) : Q :=
  Qmax (Qabs (IEEE.value (min_val blob))) (Qabs (IEEE.value (max_val blob))).

(** *** More arrays of the examples *)

(** The float64 array [[1.0, 2.0, 3.0, 4.5]]. *)
Definition uneven : np.ndarray :=
  np.of_items np.float64 [4%nat] [f64 1 0; f64 2 0; f64 3 0; f64 9 (-1)].

(** The float64 array [[2^53, 2^53 + 10, 2^53 + 448]]: the floats next to
    its elements are 2 apart. *)
Definition wide : np.ndarray :=
  np.of_items np.float64 [3%nat]
    [f64 (2 ^ 53) 0; f64 (2 ^ 53 + 10) 0; f64 (2 ^ 53 + 448) 0].

(** The float64 array [[-2^60, 1.0, 2.0]]. *)
Definition lopsided : np.ndarray :=
  np.of_items np.float64 [3%nat] [f64 (- 2 ^ 60) 0; f64 1 0; f64 2 0].

(** The float64 array [[-2^1023, 0.0, 2^1023]]. *)
Definition extreme : np.ndarray :=
  np.of_items np.float64 [3%nat]
    [f64 (-1) 1023; np.F (S754_zero false); f64 1 1023].

(** The float64 array [[0.0, 2^-1074, 2^-1073]] of the smallest
    subnormal numbers. *)
Definition minute : np.ndarray :=
  np.of_items np.float64 [3%nat]
    [np.F (S754_zero false); f64 1 (-1074); f64 1 (-1073)].

(** The float64 array [[0.0, 1.0, inf]]. *)
Definition unbounded : np.ndarray :=
  np.of_items np.float64 [3%nat]
    [np.F (S754_zero false); f64 1 0; np.F (S754_infinity false)].

End Codec_spec.

(** ** Rounding *)

Module Rounding_spec.
Local Open Scope Q_scope.

(** [f] is a finite float of the format (prec, emax) that denotes the
    number [z] up to the spacing of the format at [z]: the distance is at
    most [2 ^ (1 - prec) * |z|], or the distance of the subnormal numbers,
    [2 ^ emin].  It has the sign of [z]. *)
Definition rounds_to (prec emax : Z) (z : Q) (f : spec_float) : Prop :=
  valid_binary prec emax f = true
  /\ IEEE.is_finite f = true
  /\ Qabs (IEEE.value f - z) <= 2 ^ (1 - prec) * Qabs z + 2 ^ emin prec emax
  /\ (0 <= z -> 0 <= IEEE.value f)
  /\ (z <= 0 -> IEEE.value f <= 0).

End Rounding_spec.

(** ** Requests *)

Module Requests_spec.
Import Client.

(** The keyword arguments a request iterator was made from. *)
Definition kwargs_of (it : request_iterator) : dict :=
  match it with
  | AsyncRequests kw | SyncRequests kw => kw
  end.

(** The iterator comes from the generator of [..request.asyncio]. *)
Definition is_async_iterator (it : request_iterator) : bool :=
  match it with
  | AsyncRequests _ => true
  | SyncRequests _ => false
  end.

(** The iterator [_get_requests] asks the request generator for, given the
    keyword arguments. *)
Definition requests_for (self : BaseClient) (kw : dict) : request_iterator :=
  if isasyncgen (inputs self) then AsyncRequests kw else SyncRequests kw.

(** What asking for [it] gives: the iterator, unless the generator
    raises. *)
Definition generated (gen : request_iterator -> option exn)
  (it : request_iterator) : result request_iterator :=
  match gen it with
  | Some e => Raise e
  | None => Ok it
  end.

(** The kinds of events. *)
Definition is_Called (ev : event) : bool :=
  match ev with
  | Called => true
  | _ => false
  end.

Definition is_LoggedError (ev : event) : bool :=
  match ev with
  | LoggedError _ => true
  | _ => false
  end.

(** The calls a computation made to the source, and what it logged. *)
Definition calls {A} (c : M A) : list event := filter is_Called (fst c).
Definition logged {A} (c : M A) : list event :=
  filter is_LoggedError (fst c).

(** A client whose inputs are a list of two documents and whose arguments
    hold no request size. *)
Definition client2 : BaseClient :=
  {| args := [("port"%string, PyInt 8080)];
     _inputs := PyList ["a"; "b"]%string;
     _inputs_length := None |}.

End Requests_spec.

(** ** Messages *)

Module Message_spec.
Import jina_pb2 DenseNdArray.

(** The dtype of the buffer under each mode. *)
Definition stored_dtype (q : QuantizationMode) (dt : np.DType) : np.DType :=
  match q with
  | NONE => dt
  | FP16 => np.float16
  | UINT8 => np.uint8
  | FP32 => np.float32
  end.

(** The dtype of what the getter reads from a message the setter wrote for
    an array of dtype [dt] with [n] elements. *)
Definition decoded_dtype (q : QuantizationMode) (dt : np.DType) (n : nat)
  : np.DType :=
  if (n =? 0)%nat then np.float64
  else match q with
       | FP32 => np.float32
       | _ => dt
       end.

(** The modes whose decoding reads [original_dtype]. *)
Definition reads_original (q : QuantizationMode) : bool :=
  match q with
  | FP16 | UINT8 => true
  | _ => false
  end.

(** A message that declares one float32 element and holds three bytes. *)
Definition truncated : DenseNdArrayProto :=
  set_buffer [x00; x00; x00] (set_dtype "<f4" (set_shape [1%nat] empty)).

(** The float64 array [[1.0, nan]]. *)
Definition with_nan : np.ndarray :=
  np.of_items np.float64 [2%nat] [Codec_spec.one; np.F S754_nan].

(** The float64 array [[65536.0]]. *)
Definition large : np.ndarray :=
  np.of_items np.float64 [1%nat] [Codec_spec.f64 65536 0].
End Message_spec.

(** * Properties *)

(** ** Bytes *)

Lemma Z_of_byte_range (b : byte) : 0 <= Z_of_byte b < 256.
Proof.
  unfold Z_of_byte. pose proof (Byte.to_N_bounded b) as H. lia.
Qed.

Lemma Z_of_byte_of_Z (z : Z) : Z_of_byte (byte_of_Z z) = z mod 256.
Proof.
  unfold Z_of_byte, byte_of_Z.
  assert (Hr : 0 <= z mod 256 < 256) by (apply Z.mod_pos_bound; lia).
  destruct (Byte.of_N (Z.to_N (z mod 256))) as [b|] eqn:E.
  - apply Byte.to_of_N in E. rewrite E. rewrite Z2N.id; lia.
  - exfalso. pose proof (Byte.to_of_N_option_map (Z.to_N (z mod 256))) as H.
    rewrite E in H. simpl in H.
    destruct (N.leb_spec (Z.to_N (z mod 256)) 255); [discriminate | lia].
Qed.

Lemma length_le_bytes (n : nat) (z : Z) : length (le_bytes n z) = n.
Proof. revert z. induction n; intros; simpl; [reflexivity | now rewrite IHn]. Qed.

Lemma le_value_le_bytes (n : nat) (z : Z) :
  le_value (le_bytes n z) = z mod 2 ^ (8 * Z.of_nat n).
Proof.
  revert z. induction n as [|n IH]; intros z.
  - simpl. now rewrite Z.mod_1_r.
  - cbn [le_bytes le_value]. rewrite Z_of_byte_of_Z, IH.
    replace (8 * Z.of_nat (S n)) with (8 + 8 * Z.of_nat n) by lia.
    rewrite Z.pow_add_r by lia. change (2 ^ 8) with 256.
    rewrite Z.rem_mul_r by lia. reflexivity.
Qed.

(** ** Arrays as typed memory *)

Module np_facts.
Import np.

Lemma itemsize_pos (dt : DType) : (0 < itemsize dt)%nat.
Proof. destruct dt; simpl; lia. Qed.

Lemma dtype_of_string_str (dt : DType) : dtype_of_string (str dt) = Some dt.
Proof. destruct dt; reflexivity. Qed.

Lemma dtype_of_string_name (dt : DType) : dtype_of_string (name dt) = Some dt.
Proof. destruct dt; reflexivity. Qed.

Lemma DType_beq_eq (a b : DType) : DType_beq a b = true <-> a = b.
Proof.
  split; [apply internal_DType_dec_bl | apply internal_DType_dec_lb].
Qed.

Lemma length_store (dt : DType) (v : scalar) :
  length (store dt v) = itemsize dt.
Proof.
  unfold store. destruct (kind dt), v;
    rewrite ?length_le_bytes, ?repeat_length; reflexivity.
Qed.

Lemma length_concat_store (dt : DType) (vs : list scalar) :
  length (concat (map (store dt) vs)) = (itemsize dt * length vs)%nat.
Proof.
  induction vs as [|v vs IH]; simpl; [lia |].
  rewrite length_app, length_store, IH. lia.
Qed.

Lemma length_chunks (k n : nat) (l : list byte) : length (chunks k n l) = n.
Proof. revert l. induction n; intros; simpl; [reflexivity | now rewrite IHn]. Qed.

Lemma chunks_concat (dt : DType) (vs : list scalar) :
  chunks (itemsize dt) (length vs) (concat (map (store dt) vs))
  = map (store dt) vs.
Proof.
  induction vs as [|v vs IH]; simpl; [reflexivity |].
  rewrite firstn_app, skipn_app, length_store, Nat.sub_diag.
  rewrite firstn_all2 by (rewrite length_store; lia).
  rewrite skipn_all2 by (rewrite length_store; lia).
  simpl. rewrite app_nil_r, IH. reflexivity.
Qed.

Section Arrays.
Context {platform : Platform}.

Lemma length_items (x : ndarray) :
  length (items x) = (length (data x) / itemsize (dtype x))%nat.
Proof. unfold items. now rewrite length_map, length_chunks. Qed.

Lemma wf_count (x : ndarray) :
  wf x -> (length (data x) / itemsize (dtype x))%nat = size x.
Proof.
  unfold wf. intros ->. rewrite Nat.mul_comm.
  apply Nat.div_mul. pose proof (itemsize_pos (dtype x)). lia.
Qed.

Lemma length_items_wf (x : ndarray) : wf x -> length (items x) = size x.
Proof. intros H. now rewrite length_items, wf_count. Qed.

(** The elements of an array built from values are the values as they
    read back from memory. *)
Lemma items_of_items (dt : DType) (shp : list nat) (vs : list scalar) :
  items (of_items dt shp vs) = map (fun v => load dt (store dt v)) vs.
Proof.
  unfold items, of_items. cbn [dtype data].
  rewrite length_concat_store, Nat.mul_comm, Nat.div_mul
    by (pose proof (itemsize_pos dt); lia).
  now rewrite chunks_concat, map_map.
Qed.

Lemma wf_of_items (dt : DType) (shp : list nat) (vs : list scalar) :
  length vs = prod shp -> wf (of_items dt shp vs).
Proof.
  intros H. unfold wf, of_items, size. cbn [dtype data shape].
  now rewrite length_concat_store, H.
Qed.

Lemma wf_astype (x : ndarray) (dt : DType) : wf x -> wf (astype x dt).
Proof.
  intros H. apply wf_of_items. now rewrite length_map, length_items_wf.
Qed.

Lemma wf_zeros (shp : list nat) : wf (zeros shp).
Proof. unfold wf, zeros, size. cbn [dtype data shape]. now rewrite repeat_length. Qed.

Lemma wf_empty_data (x : ndarray) : wf x -> size x = 0%nat -> data x = [].
Proof.
  unfold wf. intros H H0. rewrite H0, Nat.mul_0_r in H.
  now apply length_zero_iff_nil.
Qed.

Lemma wf_data_nonempty (x : ndarray) :
  wf x -> size x <> 0%nat -> data x <> [].
Proof.
  unfold wf. intros H H0 E. rewrite E in H. simpl in H.
  pose proof (itemsize_pos (dtype x)). nia.
Qed.
End Arrays.

End np_facts.

(** ** The client *)

Module Client_facts.
Import Client Client_spec.

Local Open Scope Q_scope.

Lemma resolve_not_None (inputs o : PyObj) :
  resolve inputs = Ok o -> is_async o = true -> inputs <> PyNone.
Proof. intros H Ha ->. cbv in H. injection H as <-. discriminate. Qed.

Lemma check_input_after_resolve (fr : dict -> result PyObj) inputs kwargs o :
  inputs <> PyNone -> resolve inputs = Ok o ->
  check_input fr inputs kwargs =
  mbind (if callable inputs then [Called] else [], Ok o)
        (fun o => check_resolved fr o kwargs).
Proof.
  intros Hn Hr. unfold resolve in Hr.
  destruct inputs; try congruence; cbn in Hr |- *;
    try (injection Hr as <-; reflexivity).
  destruct outcome; [injection Hr as <- | discriminate]. reflexivity.
Qed.

Lemma check_input_resolve_raises (fr : dict -> result PyObj) inputs kwargs e :
  resolve inputs = Raise e ->
  check_input fr inputs kwargs = ([Called], Raise e).
Proof.
  unfold resolve. intros Hr.
  destruct inputs; try discriminate.
  cbn in Hr |- *. destruct outcome; [discriminate | injection Hr as <-].
  reflexivity.
Qed.

(** C8 (validation rejects suspension sources): when the source, once
    resolved (called if it is callable), is an asynchronous generator or an
    asynchronous generator function, [check_input] ends by raising
    [ValidationError]; it returns nothing else and never pulls the request
    generator. *)
Theorem check_input_rejects_async (fr : dict -> result PyObj)
  (inputs : PyObj) (kwargs : dict) (o : PyObj) :
  resolve inputs = Ok o -> is_async o = true ->
  snd (check_input fr inputs kwargs) = Raise (Exn ValidationError)
  /\ pulls (check_input fr inputs kwargs) = [].
Proof.
  intros Hr Ha.
  rewrite (check_input_after_resolve fr inputs kwargs o
             (resolve_not_None _ _ Hr Ha) Hr).
  unfold pulls, check_resolved, mbind. rewrite Ha. cbn.
  split; [reflexivity |]. destruct (callable inputs); reflexivity.
Qed.

Lemma check_input_rejects_async_witness :
  snd (check_input (fun _ => Ok (PyRequest 0)) PyAsyncGenFunction [])
  = Raise (Exn ValidationError)
  /\ pulls (check_input (fun _ => Ok (PyRequest 0)) PyAsyncGenFunction []) = [].
Proof.
  apply (check_input_rejects_async _ PyAsyncGenFunction [] PyAsyncGen);
    reflexivity.
Defined.

(** C9 as stated fails when the source is a callable whose call raises: the
    call is made before the [try], so the exception leaves [check_input] as
    it is, not wrapped in [BadClientInput], and no request is constructed. *)
Lemma check_input_factory_error_counterexample :
  PyFunction (Throws (Exn ValueError)) <> PyNone
  /\ is_async (PyFunction (Throws (Exn ValueError))) = false
  /\ snd (check_input (fun _ => Ok (PyRequest 0))
            (PyFunction (Throws (Exn ValueError))) [])
     = Raise (Exn ValueError)
  /\ pulls (check_input (fun _ => Ok (PyRequest 0))
              (PyFunction (Throws (Exn ValueError))) []) = [].
Proof. repeat split; try reflexivity. discriminate. Qed.

(** C9, amended (validation error wrapping): a [None] source is accepted
    with no effect at all.  A source that resolves to a value that is not
    asynchronous makes [check_input] pull the request generator exactly
    once, with that value as [data] and ["/"] as [exec_endpoint]; a request
    makes the check succeed, any other object raises [BadClientInput] from a
    [TypeError], an exception deriving from [Exception] raises
    [BadClientInput] from that exception, and any other exception is left as
    it is.  A callable source whose call raises ends the check with that very
    exception, before any request is constructed. *)
Theorem check_input_wraps_errors (fr : dict -> result PyObj) (kwargs : dict) :
  check_input fr PyNone kwargs = ([], Ok tt)
  /\ (forall inputs e,
        resolve inputs = Raise e ->
        check_input fr inputs kwargs = ([Called], Raise e))
  /\ (forall inputs o,
        inputs <> PyNone -> resolve inputs = Ok o -> is_async o = false ->
        pulls (check_input fr inputs kwargs) = [Pulled (check_kwargs o kwargs)]
        /\ snd (check_input fr inputs kwargs) =
           match fr (check_kwargs o kwargs) with
           | Ok r =>
               if is_Request r then Ok tt
               else Raise (ExnFrom BadClientInput (Exn TypeError))
           | Raise e =>
               if is_Exception e then Raise (ExnFrom BadClientInput e)
               else Raise e
           end).
Proof.
  split; [reflexivity |]. split.
  - intros inputs e. apply check_input_resolve_raises.
  - intros inputs o Hn Hr Ha.
    rewrite (check_input_after_resolve fr inputs kwargs o Hn Hr).
    unfold pulls, check_resolved, try_except_Exception, mbind, emit, raise,
      ret.
    cbv beta. rewrite Ha.
    destruct (fr (check_kwargs o kwargs)) as [r | e].
    + destruct (is_Request r); cbn; destruct (callable inputs);
        split; reflexivity.
    + destruct (is_Exception e) eqn:Ee; cbn; rewrite ?Ee; cbn;
        destruct (callable inputs); split; reflexivity.
Qed.

Lemma check_input_wraps_errors_witness :
  pulls (check_input (fun _ => Raise (Exn StopIteration))
           (PyFunction (Returns (PyGenerator []))) [])
  = [Pulled (check_kwargs (PyGenerator []) [])]
  /\ snd (check_input (fun _ => Raise (Exn StopIteration))
            (PyFunction (Returns (PyGenerator []))) [])
     = Raise (ExnFrom BadClientInput (Exn StopIteration)).
Proof.
  apply (proj2 (proj2 (check_input_wraps_errors
                         (fun _ => Raise (Exn StopIteration)) []))
           (PyFunction (Returns (PyGenerator []))) (PyGenerator []));
    [discriminate | reflexivity | reflexivity].
Defined.

(** *** The expected number of batches *)

(** C2 as stated fails: with seven items and a request size of 3 the
    expected count is 7/3, not [ceil(7/3) = 3]. *)
Lemma expected_batch_count_counterexample :
  py_len (_inputs client7) = Some 7%Z
  /\ dict_get "request_size" (merged_kwargs client7 []) = Some (PyInt 3)
  /\ option_map number_value
       (_inputs_length (fst (_get_requests (fun _ => None) client7 [])))
     = Some (inject_Z 7 / inject_Z 3)
  /\ ~ inject_Z 7 / inject_Z 3 == inject_Z (ceil_batches 7 3).
Proof. repeat split; try reflexivity. intros H. discriminate H. Qed.

Lemma ceil_batches_bounds (len size : Z) :
  (0 <= len)%Z -> (1 <= size)%Z ->
  let c := ((len + size - 1) / size)%Z in
  (len <= size * c)%Z /\ (size * c < len + size)%Z.
Proof.
  intros Hl Hs c. subst c.
  pose proof (Z.div_mod (len + size - 1) size ltac:(lia)) as Hd.
  pose proof (Z.mod_pos_bound (len + size - 1) size ltac:(lia)) as Hm.
  nia.
Qed.

Lemma truediv_value (len size : Z) :
  (1 <= size)%Z ->
  number_value (truediv len size) == len # Z.to_pos size.
Proof.
  intros Hs. unfold truediv, number_value.
  destruct size as [|p|p]; try lia.
  unfold Qdiv, Qinv, Qmult, inject_Z, Qeq. simpl. lia.
Qed.

(** C2, amended (expected batch count): for a source with a known length
    [len] and a request size [size >= 1], the expected count that
    [_get_requests] stores is [max(1, len / size)] with true division, not
    rounded up: it lies in the interval from [ceil(len / size) - 1]
    (excluded) to [ceil(len / size)] (included, both at least 1), and it is
    [ceil(len / size)] exactly when [size] divides [len] or [len <= size].
    For a source without a length the stored count is [None]. *)
Theorem expected_batch_count (gen : request_iterator -> option exn)
  (self : BaseClient) (kwargs : dict) :
  (forall len size,
      py_len (_inputs self) = Some len ->
      dict_get "request_size" (merged_kwargs self kwargs) = Some (PyInt size) ->
      (1 <= size)%Z ->
      exists n,
        _inputs_length (fst (_get_requests gen self kwargs)) = Some n
        /\ number_value n == Qmax 1 (inject_Z len / inject_Z size)
        /\ inject_Z (ceil_batches len size) - 1 < number_value n
        /\ number_value n <= inject_Z (ceil_batches len size)
        /\ (number_value n == inject_Z (ceil_batches len size)
            <-> (len mod size = 0)%Z \/ (len <= size)%Z))
  /\ (py_len (_inputs self) = None ->
      _inputs_length (fst (_get_requests gen self kwargs)) = None).
Proof.
  split.
  - intros len size Hlen Hsize Hs.
    assert (Hl : (0 <= len)%Z).
    { destruct (_inputs self); try discriminate;
        cbn in Hlen; injection Hlen as <-; lia. }
    unfold _get_requests. fold (merged_kwargs self kwargs).
    cbn [_inputs]. rewrite Hlen, Hsize.
    destruct (Z.eqb_spec size 0) as [-> | _]; [lia |].
    cbn [fst _inputs_length].
    pose proof (ceil_batches_bounds len size Hl Hs) as [Hc1 Hc2].
    cbv zeta in Hc1, Hc2. unfold ceil_batches.
    set (c := ((len + size - 1) / size)%Z) in *.
    pose proof (truediv_value len size Hs) as Hv.
    unfold truediv in Hv. cbn [number_value] in Hv.
    assert (Hsz : Z.pos (Z.to_pos size) = size) by (apply Z2Pos.id; lia).
    exists (py_max (Int 1) (truediv len size)). split; [reflexivity |].
    unfold py_max, truediv. cbn [number_value].
    destruct (Qlt_le_dec (inject_Z 1) (inject_Z len / inject_Z size))
      as [Hlt | Hle]; cbn [number_value].
    + rewrite Hv in Hlt. unfold Qlt, inject_Z in Hlt. cbn in Hlt.
      rewrite Hsz in Hlt.
      assert (Hm : Qmax 1 (inject_Z len / inject_Z size)
                   == inject_Z len / inject_Z size).
      { apply Q.max_r. rewrite Hv. unfold Qle. cbn. rewrite Hsz. lia. }
      split; [now rewrite Hm |].
      rewrite Hv.
      assert (Hc : (1 <= c)%Z) by nia.
      rewrite Z.max_r by lia.
      split; [| split].
      * unfold Qlt, Qminus, Qplus, Qopp, inject_Z. cbn. rewrite Hsz. nia.
      * unfold Qle, inject_Z. cbn. rewrite Hsz. nia.
      * unfold Qeq, inject_Z. cbn. rewrite Hsz. split.
        -- intros H. left. replace len with (c * size)%Z by lia.
           apply Z.mod_mul. lia.
        -- intros [H | H]; [| lia].
           apply Z.mod_divide in H; [| lia]. destruct H as [k ->].
           assert (c = k) by nia. lia.
    + rewrite Hv in Hle. unfold Qle, inject_Z in Hle. cbn in Hle.
      rewrite Hsz in Hle.
      assert (Hm : Qmax 1 (inject_Z len / inject_Z size) == 1).
      { apply Q.max_l. rewrite Hv. unfold Qle. cbn. rewrite Hsz. lia. }
      split; [now rewrite Hm |].
      assert (Hc : (c <= 1)%Z) by nia.
      rewrite Z.max_l by lia.
      split; [| split]; [reflexivity | apply Qle_refl |].
      split; [intros _; right; lia | reflexivity].
  - intros Hlen. unfold _get_requests. cbn [_inputs]. rewrite Hlen.
    reflexivity.
Qed.

Lemma expected_batch_count_witness :
  exists n,
    _inputs_length (fst (_get_requests (fun _ => None) client7 [])) = Some n
    /\ number_value n == Qmax 1 (inject_Z 7 / inject_Z 3)
    /\ inject_Z (ceil_batches 7 3) - 1 < number_value n
    /\ number_value n <= inject_Z (ceil_batches 7 3)
    /\ (number_value n == inject_Z (ceil_batches 7 3)
        <-> (7 mod 3 = 0)%Z \/ (7 <= 3)%Z).
Proof.
  apply (proj1 (expected_batch_count (fun _ => None) client7 []) 7%Z 3%Z);
    [reflexivity | reflexivity | lia].
Defined.
End Client_facts.

(** ** The codec: modes, fallback, degenerate messages, exact round trips *)

Module Codec_facts.
Import jina_pb2 DenseNdArray Codec_spec np_facts.

Lemma is_mode_eq (m : option string) (s : string) :
  is_mode m s = true <-> m = Some s.
Proof.
  destruct m as [d|]; simpl; [| split; discriminate].
  rewrite String.eqb_eq. split; congruence.
Qed.

(** The four cases of the requested mode: one of the three names the setter
    tests for, or none of them. *)
Ltac mode_cases mode :=
  let E := fresh "E" in
  destruct (is_mode mode "fp32") eqn:E;
  [ apply is_mode_eq in E; subst mode
  | let E' := fresh "E" in
    destruct (is_mode mode "fp16") eqn:E';
    [ apply is_mode_eq in E'; subst mode
    | let E'' := fresh "E" in
      destruct (is_mode mode "uint8") eqn:E'';
      [ apply is_mode_eq in E''; subst mode | ] ] ].

Lemma chunks_repeat (b : byte) (k n : nat) :
  np.chunks k n (repeat b (k * n)) = repeat (repeat b k) n.
Proof.
  induction n as [|n IH]; [reflexivity |].
  replace (k * S n)%nat with (k + k * n)%nat by lia.
  rewrite repeat_app. cbn [np.chunks repeat].
  rewrite firstn_app, skipn_app, repeat_length, Nat.sub_diag.
  rewrite firstn_all2, skipn_all2 by (rewrite repeat_length; lia).
  cbn [firstn skipn app]. now rewrite app_nil_r, IH.
Qed.

Lemma items_zeros (shp : list nat) :
  np.items (np.zeros shp) = repeat (np.F (S754_zero false)) (np.prod shp).
Proof.
  unfold np.items, np.zeros. cbn [np.dtype np.data].
  rewrite repeat_length, Nat.mul_comm, Nat.div_mul by (cbn; lia).
  rewrite Nat.mul_comm, chunks_repeat, map_repeat. reflexivity.
Qed.

(** C3 as stated fails for the second case: a message with an empty buffer
    and a shape of length zero decodes to [None], not to an array. *)
Lemma degenerate_decode_counterexample :
  buffer empty = [] /\ length (shape empty) = 0%nat
  /\ get_value (platform := np.x86_64) empty = Ok None
  /\ ~ exists a, get_value (platform := np.x86_64) empty = Ok (Some a).
Proof. repeat split. intros [a H]. discriminate H. Qed.

(** C4 as stated fails: with [fp32] requested, a float64 array is stored
    with the fourth mode [FP32]. *)
Lemma quantization_mode_counterexample :
  quantization
    (fst (set_value (platform := np.x86_64) (Some "fp32"%string) empty ones1))
  = FP32
  /\ FP32 <> NONE /\ FP32 <> FP16 /\ FP32 <> UINT8.
Proof. repeat split; discriminate. Qed.

(** C6 as stated fails for an array without elements: its buffer is empty,
    so the decoded array is the float64 one of [np.zeros], whatever
    [original_dtype] records. *)
Lemma round_trip_fp16_counterexample :
  np.wf empty32
  /\ original_dtype
       (fst (set_value (platform := np.x86_64) (Some "fp16"%string) empty
               empty32)) = "float32"%string
  /\ get_value (platform := np.x86_64)
       (fst (set_value (platform := np.x86_64) (Some "fp16"%string) empty
               empty32))
     = Ok (Some (np.zeros [0%nat]))
  /\ np.dtype (np.zeros [0%nat]) = np.float64
  /\ np.dtype (np.astype (platform := np.x86_64)
                 (np.astype (platform := np.x86_64) empty32 np.float16)
                 np.float32) = np.float32.
Proof. repeat split. Qed.

Section Codec.
Context {platform : np.Platform}.

(** C3, amended (degenerate decode): a message with an empty buffer and a
    shape of positive length decodes to an array of that shape whose
    elements are all [+0.0]; with an empty buffer and a shape of length
    zero the getter returns [None].  Neither raises. *)
Theorem degenerate_decode (blob : DenseNdArrayProto) :
  buffer blob = [] ->
  ((0 < length (shape blob))%nat ->
   get_value blob = Ok (Some (np.zeros (shape blob)))
   /\ np.shape (np.zeros (shape blob)) = shape blob
   /\ np.wf (np.zeros (shape blob))
   /\ np.items (np.zeros (shape blob))
      = repeat (np.F (S754_zero false)) (np.prod (shape blob)))
  /\ (length (shape blob) = 0%nat -> get_value blob = Ok None).
Proof.
  intros Hb. unfold get_value. rewrite Hb. split.
  - intros Hs. apply Nat.ltb_lt in Hs. rewrite Hs.
    repeat split; [apply wf_zeros | apply items_zeros].
  - intros ->. reflexivity.
Qed.

(** C10 (the degenerate result is float64): with an empty buffer and a
    shape of positive length the decoded array is [np.zeros(shape)], of
    dtype float64, whatever the fields [dtype] and [original_dtype]
    hold. *)
Theorem degenerate_decode_is_float64 (blob : DenseNdArrayProto)
  (stored original : string) :
  buffer blob = [] -> (0 < length (shape blob))%nat ->
  get_value (set_dtype stored (set_original_dtype original blob))
  = Ok (Some (np.zeros (shape blob)))
  /\ np.dtype (np.zeros (shape blob)) = np.float64.
Proof.
  intros Hb Hs. unfold get_value. cbn [buffer shape set_dtype
    set_original_dtype]. rewrite Hb.
  apply Nat.ltb_lt in Hs. rewrite Hs. split; reflexivity.
Qed.

(** The mode the setter writes, by its guards. *)
Lemma quantization_set_value (mode : option string)
  (blob : DenseNdArrayProto) (x : np.ndarray) :
  quantization (fst (set_value mode blob x))
  = if is_mode mode "fp32" && np.DType_beq (np.dtype x) np.float64 then FP32
    else if is_mode mode "fp16"
            && (np.DType_beq (np.dtype x) np.float32
                || np.DType_beq (np.dtype x) np.float64) then FP16
    else if is_mode mode "uint8" && np.is_float (np.dtype x) then UINT8
    else NONE.
Proof.
  unfold set_value.
  destruct (is_mode mode "fp32" && np.DType_beq (np.dtype x) np.float64);
    [reflexivity |].
  destruct (is_mode mode "fp16"
            && (np.DType_beq (np.dtype x) np.float32
                || np.DType_beq (np.dtype x) np.float64)); [reflexivity |].
  replace (np.DType_beq (np.dtype x) np.float32
           || np.DType_beq (np.dtype x) np.float64
           || np.DType_beq (np.dtype x) np.float16)
    with (np.is_float (np.dtype x)) by (destruct (np.dtype x); reflexivity).
  destruct (is_mode mode "uint8" && np.is_float (np.dtype x));
    [| reflexivity].
  destruct (np.max x), (np.min x); reflexivity.
Qed.

(** C4, amended (quantization mode): after the setter the field
    [quantization] is one of [NONE], [FP16], [UINT8] and [FP32]: [FP32]
    exactly when [fp32] is requested for a float64 array, [FP16] exactly
    when [fp16] is requested for a float32 or float64 array, [UINT8]
    exactly when [uint8] is requested for a float array, and [NONE] in
    every other case. *)
Theorem quantization_mode (mode : option string) (blob : DenseNdArrayProto)
  (x : np.ndarray) :
  let q := quantization (fst (set_value mode blob x)) in
  (q = FP32 <-> mode = Some "fp32"%string /\ np.dtype x = np.float64)
  /\ (q = FP16 <->
      mode = Some "fp16"%string
      /\ (np.dtype x = np.float32 \/ np.dtype x = np.float64))
  /\ (q = UINT8 <->
      mode = Some "uint8"%string /\ np.is_float (np.dtype x) = true)
  /\ (q = NONE \/ q = FP16 \/ q = UINT8 \/ q = FP32).
Proof.
  cbv zeta. rewrite quantization_set_value.
  mode_cases mode; destruct (np.dtype x); cbn;
    repeat split; intros; try discriminate; try tauto;
    try (rewrite <- is_mode_eq in *; intuition congruence);
    intuition discriminate.
Qed.

Lemma set_value_fallback (mode : option string) (blob : DenseNdArrayProto)
  (x : np.ndarray) :
  unsupported mode (np.dtype x) = true ->
  set_value mode blob x = (store_array x (set_quantization NONE blob), Ok tt).
Proof.
  unfold unsupported, set_value.
  mode_cases mode; destruct (np.dtype x);
    cbn; intros H; try discriminate H; reflexivity.
Qed.

(** C7 (fallback to NONE): when the element type is unsupported for the
    requested mode the setter does not fail; it stores the bytes of the
    array as they are, [itemsize] bytes per element, with the array's own
    dtype and shape and the mode [NONE].  Integer arrays are unsupported
    for every mode, and every array is for a mode other than [fp32],
    [fp16] and [uint8]. *)
Theorem fallback_to_none (mode : option string) (blob : DenseNdArrayProto)
  (x : np.ndarray) :
  unsupported mode (np.dtype x) = true ->
  snd (set_value mode blob x) = Ok tt
  /\ stored_verbatim x blob (fst (set_value mode blob x))
  /\ (np.wf x ->
      length (buffer (fst (set_value mode blob x)))
      = (np.itemsize (np.dtype x) * np.size x)%nat).
Proof.
  intros H. rewrite (set_value_fallback mode blob x H).
  unfold stored_verbatim. cbn. repeat split. intros Hwf. exact Hwf.
Qed.

Lemma unsupported_integer (mode : option string) (dt : np.DType) :
  np.is_float dt = false -> unsupported mode dt = true.
Proof.
  unfold unsupported.
  mode_cases mode; destruct dt; cbn; intros H; try discriminate H;
    reflexivity.
Qed.

Lemma unsupported_unknown_mode (mode : option string) (dt : np.DType) :
  mode <> Some "fp32"%string -> mode <> Some "fp16"%string ->
  mode <> Some "uint8"%string ->
  unsupported mode dt = true.
Proof.
  intros H32 H16 H8. unfold unsupported.
  destruct (is_mode mode "fp32") eqn:E1;
    [apply is_mode_eq in E1; contradiction |].
  destruct (is_mode mode "fp16") eqn:E2;
    [apply is_mode_eq in E2; contradiction |].
  destruct (is_mode mode "uint8") eqn:E3;
    [apply is_mode_eq in E3; contradiction |].
  reflexivity.
Qed.

Lemma prod_nil_shape (x : np.ndarray) :
  np.size x = 0%nat -> (0 < length (np.shape x))%nat.
Proof.
  unfold np.size. destruct (np.shape x); cbn; [discriminate | lia].
Qed.

(** Decoding a message whose buffer holds the bytes of an array [x] with
    at least one element, under the dtype of [x] and with no quantization:
    the array itself, under the shape of the message. *)
Lemma get_value_plain (blob : DenseNdArrayProto) (x : np.ndarray)
  (shp : list nat) :
  np.wf x -> np.size x <> 0%nat ->
  buffer blob = np.data x -> dtype blob = np.str (np.dtype x) ->
  shape blob = shp -> np.prod shp = np.size x ->
  quantization blob = NONE \/ quantization blob = FP32 ->
  get_value blob
  = Ok (Some {| np.dtype := np.dtype x; np.shape := shp;
                np.data := np.data x |}).
Proof.
  intros Hwf Hne Hb Hd Hs Hp Hq. unfold get_value.
  rewrite Hb, Hd, Hs.
  pose proof (wf_data_nonempty x Hwf Hne) as Hdata.
  destruct (np.data x) as [|b l] eqn:E; [congruence |]. rewrite <- E.
  unfold np.frombuffer. rewrite dtype_of_string_str.
  assert (Hmod : (length (np.data x) mod np.itemsize (np.dtype x) = 0)%nat).
  { rewrite Hwf, Nat.mul_comm. apply Nat.Div0.mod_mul. }
  rewrite Hmod. cbn [Nat.eqb bind].
  assert (Hq' : match quantization blob with
                | FP16 | UINT8 => False
                | _ => True
                end) by (destruct Hq as [-> | ->]; exact I).
  destruct (quantization blob); try contradiction; cbn [bind];
    unfold np.reshape, np.size; cbn [np.shape np.dtype np.data np.prod fold_right];
    rewrite (wf_count x Hwf), Nat.mul_1_r, Hp, Nat.eqb_refl; reflexivity.
Qed.

(** C5 (round trip without quantization): storing a well-formed array
    with no mode requested and reading it back gives an array of the same
    shape with the same elements, byte for byte; it is the array itself
    when the array has an element. *)
Theorem round_trip_none (blob : DenseNdArrayProto) (x : np.ndarray) :
  np.wf x ->
  snd (set_value (init None None) blob x) = Ok tt
  /\ exists y,
      get_value (fst (set_value (init None None) blob x)) = Ok (Some y)
      /\ np.shape y = np.shape x
      /\ np.data y = np.data x
      /\ np.items y = np.items x
      /\ (np.size x <> 0%nat -> y = x).
Proof.
  intros Hwf. cbn [init].
  rewrite (set_value_fallback None blob x eq_refl). split; [reflexivity |].
  cbn [fst].
  destruct (Nat.eq_dec (np.size x) 0) as [H0 | Hne].
  - exists (np.zeros (np.shape x)).
    pose proof (wf_empty_data x Hwf H0) as Hd.
    assert (Hz : np.data (np.zeros (np.shape x)) = []).
    { unfold np.zeros. cbn [np.data]. fold (np.size x).
      now rewrite H0, Nat.mul_0_r. }
    repeat split.
    + unfold get_value. cbn [buffer shape store_array set_dtype set_shape
        set_buffer set_quantization]. unfold np.tobytes. rewrite Hd.
      pose proof (prod_nil_shape x H0) as Hs. apply Nat.ltb_lt in Hs.
      now rewrite Hs.
    + now rewrite Hz, Hd.
    + unfold np.items. rewrite Hz, Hd. cbn [length].
      now rewrite !Nat.Div0.div_0_l.
    + intros Hne. contradiction.
  - exists x. repeat split.
    rewrite (get_value_plain _ x (np.shape x)); try reflexivity; auto.
    destruct x; reflexivity.
Qed.

(** C6, amended (round trip in FP16 mode): for a well-formed float32 or
    float64 array with at least one element, storing it with [fp16]
    requested and reading it back gives exactly the array cast to float16
    and back to its own dtype; the message records that dtype as
    [original_dtype], and it is the dtype of the result. *)
Theorem round_trip_fp16 (blob : DenseNdArrayProto) (x : np.ndarray) :
  np.wf x -> np.size x <> 0%nat ->
  np.dtype x = np.float32 \/ np.dtype x = np.float64 ->
  let blob' := fst (set_value (Some "fp16"%string) blob x) in
  snd (set_value (Some "fp16"%string) blob x) = Ok tt
  /\ quantization blob' = FP16
  /\ original_dtype blob' = np.name (np.dtype x)
  /\ get_value blob'
     = Ok (Some (np.astype (np.astype x np.float16) (np.dtype x)))
  /\ np.dtype (np.astype (np.astype x np.float16) (np.dtype x)) = np.dtype x.
Proof.
  intros Hwf Hne Hdt. cbv zeta.
  set (h := np.astype x np.float16).
  assert (Hset : set_value (Some "fp16"%string) blob x
                 = (store_array h
                      (set_original_dtype (np.name (np.dtype x))
                         (set_quantization FP16 blob)), Ok tt)).
  { unfold set_value. destruct Hdt as [-> | ->]; reflexivity. }
  rewrite Hset. cbn [fst snd]. repeat split.
  pose proof (wf_astype x np.float16 Hwf) as Hwfh. fold h in Hwfh.
  assert (Hsize : np.size h = np.size x) by reflexivity.
  assert (Hdata : np.data h <> []).
  { apply wf_data_nonempty; [exact Hwfh | now rewrite Hsize]. }
  unfold get_value.
  cbn [buffer shape dtype quantization original_dtype store_array set_dtype
         set_shape set_buffer set_quantization set_original_dtype].
  unfold np.tobytes.
  destruct (np.data h) as [|b l] eqn:E; [congruence |]. rewrite <- E.
  unfold np.frombuffer. rewrite dtype_of_string_str.
  assert (Hmod : (length (np.data h) mod np.itemsize (np.dtype h) = 0)%nat).
  { rewrite Hwfh, Nat.mul_comm. apply Nat.Div0.mod_mul. }
  rewrite Hmod. cbn [Nat.eqb bind].
  unfold np.astype_str. rewrite dtype_of_string_name. cbn [bind].
  unfold np.reshape, np.size, np.astype at 1, np.of_items.
  cbn [np.shape np.dtype np.data np.prod fold_right].
  rewrite (wf_count h Hwfh), Nat.mul_1_r.
  change (np.prod (np.shape x)) with (np.size h).
  rewrite Nat.eqb_refl. reflexivity.
Qed.
End Codec.

Lemma degenerate_decode_witness :
  get_value (platform := np.x86_64) declared34
  = Ok (Some (np.zeros [3%nat; 4%nat]))
  /\ np.shape (np.zeros (shape declared34)) = shape declared34
  /\ np.wf (np.zeros (shape declared34))
  /\ np.items (np.zeros (shape declared34))
     = repeat (np.F (S754_zero false)) (np.prod (shape declared34)).
Proof.
  apply (proj1 (degenerate_decode (platform := np.x86_64) declared34 eq_refl)).
  cbn. lia.
Defined.

Lemma degenerate_decode_is_float64_witness :
  get_value (platform := np.x86_64)
    (set_dtype "<f4" (set_original_dtype "float32" declared34))
  = Ok (Some (np.zeros (shape declared34)))
  /\ np.dtype (np.zeros (shape declared34)) = np.float64.
Proof.
  apply (degenerate_decode_is_float64 (platform := np.x86_64) declared34
           "<f4" "float32" eq_refl).
  cbn. lia.
Defined.

Lemma fallback_to_none_witness :
  snd (set_value (platform := np.x86_64) (Some "uint8"%string) empty ints12)
  = Ok tt
  /\ stored_verbatim ints12 empty
       (fst (set_value (platform := np.x86_64) (Some "uint8"%string) empty
               ints12))
  /\ (np.wf ints12 ->
      length (buffer (fst (set_value (platform := np.x86_64)
                             (Some "uint8"%string) empty ints12)))
      = (np.itemsize (np.dtype ints12) * np.size ints12)%nat).
Proof.
  apply (fallback_to_none (platform := np.x86_64) (Some "uint8"%string) empty
           ints12).
  reflexivity.
Defined.

Lemma round_trip_none_witness :
  snd (set_value (platform := np.x86_64) (init None None) empty ones1) = Ok tt
  /\ exists y,
      get_value (platform := np.x86_64)
        (fst (set_value (platform := np.x86_64) (init None None) empty ones1))
      = Ok (Some y)
      /\ np.shape y = np.shape ones1
      /\ np.data y = np.data ones1
      /\ np.items y = np.items ones1
      /\ (np.size ones1 <> 0%nat -> y = ones1).
Proof.
  apply (round_trip_none (platform := np.x86_64) empty ones1). reflexivity.
Defined.

Lemma round_trip_fp16_witness :
  snd (set_value (platform := np.x86_64) (Some "fp16"%string) empty ones1)
  = Ok tt
  /\ quantization
       (fst (set_value (platform := np.x86_64) (Some "fp16"%string) empty
               ones1)) = FP16
  /\ original_dtype
       (fst (set_value (platform := np.x86_64) (Some "fp16"%string) empty
               ones1)) = np.name (np.dtype ones1)
  /\ get_value (platform := np.x86_64)
       (fst (set_value (platform := np.x86_64) (Some "fp16"%string) empty
               ones1))
     = Ok (Some (np.astype (platform := np.x86_64)
                   (np.astype (platform := np.x86_64) ones1 np.float16)
                   (np.dtype ones1)))
  /\ np.dtype (np.astype (platform := np.x86_64)
                 (np.astype (platform := np.x86_64) ones1 np.float16)
                 (np.dtype ones1)) = np.dtype ones1.
Proof.
  apply (round_trip_fp16 (platform := np.x86_64) empty ones1).
  - reflexivity.
  - cbn. lia.
  - right. reflexivity.
Defined.
End Codec_facts.

(** ** IEEE 754: encodings, conversions between formats, order *)

Module IEEE_facts.
Import Codec_spec.
Lemma digits2_size (m : positive) : digits2_pos m = Pos.size m.
Proof. induction m; cbn; congruence. Qed.

Lemma digits_bounds (m : positive) :
  2 ^ (Zpos (digits2_pos m) - 1) <= Zpos m < 2 ^ Zpos (digits2_pos m).
Proof.
  rewrite digits2_size. split.
  - pose proof (Pos.size_le m) as H.
    apply Pos2Z.pos_le_pos in H. rewrite Pos2Z.inj_pow in H.
    change (Z.pos m~0) with (2 * Z.pos m) in H.
    replace (Z.pos (Pos.size m)) with (Z.succ (Z.pos (Pos.size m) - 1)) in H by lia.
    rewrite Z.pow_succ_r in H by lia. lia.
  - pose proof (Pos.size_gt m) as H.
    apply Pos2Z.pos_lt_pos in H. now rewrite Pos2Z.inj_pow in H.
Qed.

Lemma digits_unique (m : positive) (n : Z) :
  2 ^ (n - 1) <= Zpos m < 2 ^ n -> Zpos (digits2_pos m) = n.
Proof.
  intros [Hlo Hhi]. pose proof (digits_bounds m) as [Dlo Dhi].
  assert (0 < n).
  { destruct (Z.ltb_spec 0 n); [assumption |].
    destruct (Z.eq_dec n 0) as [-> | ?]; [cbn in Hhi; lia |].
    rewrite (Z.pow_neg_r 2 n) in Hhi by lia. lia. }
  assert (Zpos (digits2_pos m) - 1 < n).
  { apply (Z.pow_lt_mono_r_iff 2); lia. }
  assert (n - 1 < Zpos (digits2_pos m)).
  { apply (Z.pow_lt_mono_r_iff 2); lia. }
  lia.
Qed.

Lemma digits_le (m : positive) (n : Z) :
  0 <= n -> Zpos m < 2 ^ n -> Zpos (digits2_pos m) <= n.
Proof.
  intros Hn Hhi. pose proof (digits_bounds m) as [Dlo _].
  assert (Zpos (digits2_pos m) - 1 < n); [| lia].
  apply (Z.pow_lt_mono_r_iff 2); lia.
Qed.

Lemma iter_xO_value (m k : positive) :
  Zpos (Pos.iter xO m k) = Zpos m * 2 ^ Zpos k.
Proof.
  induction k using Pos.peano_ind.
  - cbn. lia.
  - rewrite Pos.iter_succ.
    change (Z.pos (Pos.iter xO m k)~0) with (2 * Z.pos (Pos.iter xO m k)).
    rewrite IHk, Pos2Z.inj_succ, Z.pow_succ_r; lia.
Qed.

Lemma digits_iter_xO (m k : positive) :
  digits2_pos (Pos.iter xO m k) = (digits2_pos m + k)%positive.
Proof.
  induction k using Pos.peano_ind.
  - cbn. lia.
  - rewrite Pos.iter_succ. cbn [digits2_pos]. rewrite IHk. lia.
Qed.

Lemma iter_pos_iter {A : Type} (f : A -> A) (n : positive) (a : A) :
  iter_pos f n a = Pos.iter f a n.
Proof.
  revert a. induction n as [n IH | n IH |]; intros a; cbn [iter_pos Pos.iter].
  - now rewrite !IH, !Pos.iter_swap.
  - now rewrite !IH.
  - reflexivity.
Qed.

(** Shifting right what was shifted left loses nothing. *)
Lemma shr_iter_xO (m k : positive) :
  iter_pos shr_1 k
    {| shr_m := Zpos (Pos.iter xO m k); shr_r := false; shr_s := false |}
  = {| shr_m := Zpos m; shr_r := false; shr_s := false |}.
Proof.
  rewrite iter_pos_iter. induction k using Pos.peano_ind.
  - reflexivity.
  - rewrite Pos.iter_succ_r, Pos.iter_succ. cbn [shr_1 orb]. exact IHk.
Qed.

Lemma value_Qpower (s : bool) (m : positive) (x : Z) :
  (IEEE.value (S754_finite s m x) == inject_Z (signed s m) * 2 ^ x)%Q.
Proof.
  unfold IEEE.value. fold (signed s m). destruct x as [| p | p].
  - cbn [Qpower]. rewrite Z.pow_0_r, Z.mul_1_r. ring.
  - rewrite inject_Z_mult, Zpower_Qpower by lia. reflexivity.
  - change (2 ^ Z.neg p)%Q with (/ (2 ^ Z.pos p))%Q.
    rewrite <- (Zpower_Qpower 2 (Z.pos p)) by lia.
    rewrite <- Pos2Z.inj_pow. unfold Qeq, Qmult, Qinv, inject_Z. cbn. lia.
Qed.

Lemma signed_iter_xO (s : bool) (m k : positive) :
  signed s (Pos.iter xO m k) = signed s m * 2 ^ Zpos k.
Proof.
  pose proof (iter_xO_value m k) as H. unfold signed.
  destruct s; [| exact H].
  rewrite <- !Pos2Z.opp_pos, H. ring.
Qed.

(** A float and the same float with its significand shifted left denote the
    same number. *)
Lemma value_shift (s : bool) (m k : positive) (x : Z) :
  (IEEE.value (S754_finite s (Pos.iter xO m k) (x - Zpos k))
   == IEEE.value (S754_finite s m x))%Q.
Proof.
  rewrite !value_Qpower, signed_iter_xO, inject_Z_mult.
  rewrite (Zpower_Qpower 2 (Zpos k)) by lia.
  replace x with ((x - Zpos k) + Zpos k) at 2 by lia.
  rewrite (Qpower_plus 2 (x - Zpos k) (Zpos k)) by (intros H; discriminate H).
  change (inject_Z 2) with 2%Q. ring.
Qed.

Section Format.
Variables prec emax : Z.
Hypothesis Hprec : 1 < prec.
Hypothesis Hemax : prec < emax.

Lemma bounded_spec (m : positive) (x : Z) :
  bounded prec emax m x = true <->
  Z.max (Zpos (digits2_pos m) + x - prec) (emin prec emax) = x
  /\ x <= emax - prec.
Proof.
  unfold bounded, canonical_mantissa, fexp.
  rewrite andb_true_iff, Z.eqb_eq, Z.leb_le. reflexivity.
Qed.

(** Rounding a float that is already in the format changes nothing. *)
Lemma binary_round_aux_canonical (s : bool) (m : positive) (x : Z) :
  bounded prec emax m x = true ->
  binary_round_aux prec emax s (Zpos m) x loc_Exact = S754_finite s m x.
Proof.
  intros Hb. pose proof Hb as Hb'. apply bounded_spec in Hb' as [Hc Hx].
  unfold binary_round_aux, shr_fexp, fexp. cbn [Zdigits2].
  rewrite Hc, Z.sub_diag. cbn [shr shr_record_of_loc shr_m loc_of_shr_record
    round_nearest_even Zdigits2].
  rewrite Hc, Z.sub_diag. cbn [shr shr_record_of_loc shr_m].
  apply Z.leb_le in Hx. now rewrite Hx.
Qed.

Lemma of_float_canonical (f : spec_float) :
  valid_binary prec emax f = true -> IEEE.of_float prec emax f = f.
Proof.
  destruct f as [| | | s m x]; try reflexivity. cbn [valid_binary IEEE.of_float].
  intros Hb. pose proof Hb as Hb'. apply bounded_spec in Hb' as [Hc Hx].
  unfold binary_round, shl_align, fexp. rewrite Hc, Z.sub_diag.
  now apply binary_round_aux_canonical.
Qed.

Lemma pow2_prec : 2 ^ prec = 2 * 2 ^ (prec - 1).
Proof. rewrite <- Z.pow_succ_r by lia. f_equal. lia. Qed.

Lemma emin_le : emin prec emax <= emax - prec.
Proof. unfold emin. lia. Qed.

(** What is read from memory is a float of the format. *)
Lemma valid_float_of_bits (z : Z) :
  valid_binary prec emax (IEEE.float_of_bits prec emax z) = true.
Proof.
  unfold IEEE.float_of_bits.
  assert (HB : 0 < 2 ^ (prec - 1)) by (apply Z.pow_pos_nonneg; lia).
  pose proof (Z.mod_pos_bound z (2 ^ (prec - 1)) HB) as HM.
  pose proof (Z.mod_pos_bound (z / 2 ^ (prec - 1)) (2 * emax) ltac:(lia)) as HE.
  set (M := z mod 2 ^ (prec - 1)) in *.
  set (E := (z / 2 ^ (prec - 1)) mod (2 * emax)) in *.
  destruct (Z.eqb_spec E 0) as [HE0 | HE0].
  - destruct (Z.eqb_spec M 0) as [HM0 | HM0]; [reflexivity |].
    cbn [valid_binary]. apply bounded_spec.
    assert (Hd : Zpos (digits2_pos (Z.to_pos M)) <= prec - 1).
    { apply digits_le; [lia |]. rewrite Z2Pos.id; lia. }
    pose proof emin_le. split; lia.
  - unfold IEEE.exp_ones. destruct (Z.eqb_spec E (2 * emax - 1)) as [HE1 | HE1].
    + destruct (M =? 0); reflexivity.
    + cbn [valid_binary]. apply bounded_spec.
      assert (Hd : Zpos (digits2_pos (Z.to_pos (M + 2 ^ (prec - 1)))) = prec).
      { apply digits_unique. rewrite Z2Pos.id by lia.
        rewrite pow2_prec. lia. }
      rewrite Hd. unfold emin. split; lia.
Qed.

Lemma split_fields (B W S E M : Z) :
  0 < B -> 0 < W -> 0 <= M < B -> 0 <= E < W -> 0 <= S ->
  let z := S * (W * B) + E * B + M in
  z mod B = M /\ (z / B) mod W = E /\ z / (B * W) = S.
Proof.
  intros HB HW HM HE HS z.
  assert (Hq : z / B = S * W + E).
  { symmetry. apply (Z.div_unique z B (S * W + E) M); [lia | subst z; ring]. }
  repeat split.
  - symmetry. apply (Z.mod_unique z B (S * W + E) M); [lia | subst z; ring].
  - rewrite Hq. symmetry.
    apply (Z.mod_unique (S * W + E) W S E); [lia | ring].
  - symmetry. apply (Z.div_unique z (B * W) S (E * B + M)); [nia | subst z; ring].
Qed.

Lemma bounded_digits (m : positive) (x : Z) :
  bounded prec emax m x = true ->
  Zpos m < 2 ^ prec
  /\ emin prec emax <= x <= emax - prec
  /\ (Zpos m < 2 ^ (prec - 1) -> x = emin prec emax).
Proof.
  intros Hb. apply bounded_spec in Hb as [Hc Hx].
  pose proof (digits_bounds m) as [Dlo Dhi].
  assert (Hd : Zpos (digits2_pos m) <= prec) by lia.
  repeat split; try lia.
  - apply Z.lt_le_trans with (1 := Dhi). apply Z.pow_le_mono_r; lia.
  - intros Hm.
    assert (Zpos (digits2_pos m) <= prec - 1) by (apply digits_le; lia).
    lia.
Qed.

Lemma sign_bit_odd (s : bool) :
  Z.odd (if s then 1 else 0) = s.
Proof. now destruct s. Qed.

(** Decoding the encoding of a float of the format gives it back. *)
Lemma float_of_bits_of_float (f : spec_float) :
  valid_binary prec emax f = true ->
  IEEE.float_of_bits prec emax (IEEE.bits_of_float prec emax f) = f.
Proof.
  intros Hv.
  assert (HB : 0 < 2 ^ (prec - 1)) by (apply Z.pow_pos_nonneg; lia).
  assert (HW : 0 < 2 * emax) by lia.
  assert (Hsign : forall s, IEEE.sign_bit prec emax s
                            = (if s then 1 else 0) * (2 * emax * 2 ^ (prec - 1))).
  { intros [|]; unfold IEEE.sign_bit; lia. }
  assert (Hdec : forall s E M,
             0 <= M < 2 ^ (prec - 1) -> 0 <= E < 2 * emax ->
             IEEE.float_of_bits prec emax
               (IEEE.sign_bit prec emax s + E * 2 ^ (prec - 1) + M)
             = (if E =? 0 then
                  if M =? 0 then S754_zero s
                  else S754_finite s (Z.to_pos M) (emin prec emax)
                else if E =? IEEE.exp_ones emax then
                  if M =? 0 then S754_infinity s else S754_nan
                else S754_finite s (Z.to_pos (M + 2 ^ (prec - 1)))
                       (E - 1 + emin prec emax))).
  { intros s E M HM HE. unfold IEEE.float_of_bits. rewrite Hsign.
    destruct (split_fields (2 ^ (prec - 1)) (2 * emax) (if s then 1 else 0)
                E M HB HW HM HE ltac:(destruct s; lia)) as (H1 & H2 & H3).
    cbv zeta in H1, H2, H3. rewrite H1, H2, H3, sign_bit_odd. reflexivity. }
  destruct f as [s | s | | s m x]; cbn [IEEE.bits_of_float].
  - rewrite <- (Z.add_0_r (IEEE.sign_bit prec emax s)).
    rewrite <- (Z.add_0_r (IEEE.sign_bit prec emax s + 0)) at 1.
    change (IEEE.sign_bit prec emax s + 0 + 0)
      with (IEEE.sign_bit prec emax s + 0 * 2 ^ (prec - 1) + 0).
    rewrite Hdec by lia. reflexivity.
  - rewrite <- (Z.add_0_r (_ + _ * _)).
    rewrite Hdec by (unfold IEEE.exp_ones; lia).
    unfold IEEE.exp_ones.
    destruct (Z.eqb_spec (2 * emax - 1) 0); [lia |].
    now rewrite Z.eqb_refl.
  - change (IEEE.exp_ones emax * 2 ^ (prec - 1) + 2 ^ (prec - 1 - 1))
      with (IEEE.sign_bit prec emax false
            + IEEE.exp_ones emax * 2 ^ (prec - 1) + 2 ^ (prec - 1 - 1)).
    assert (0 < 2 ^ (prec - 1 - 1) < 2 ^ (prec - 1)).
    { split; [apply Z.pow_pos_nonneg; lia |].
      apply Z.pow_lt_mono_r; lia. }
    rewrite Hdec by (unfold IEEE.exp_ones; lia).
    unfold IEEE.exp_ones.
    destruct (Z.eqb_spec (2 * emax - 1) 0); [lia |].
    rewrite Z.eqb_refl.
    destruct (Z.eqb_spec (2 ^ (prec - 1 - 1)) 0); [lia | reflexivity].
  - cbn [valid_binary] in Hv.
    destruct (bounded_digits m x Hv) as (Hm & Hx & Hsub).
    pose proof pow2_prec as H2.
    destruct (Z.ltb_spec (Zpos m) (2 ^ (prec - 1))) as [Hlt | Hge].
    + replace (IEEE.sign_bit prec emax s + Z.pos m)
        with (IEEE.sign_bit prec emax s + 0 * 2 ^ (prec - 1) + Z.pos m) by lia.
      rewrite Hdec by lia. cbn [Z.eqb].
      destruct (Z.eqb_spec (Zpos m) 0); [lia |].
      rewrite (Hsub Hlt). reflexivity.
    + rewrite Hdec by (unfold emin in *; lia).
      unfold IEEE.exp_ones.
      destruct (Z.eqb_spec (x - emin prec emax + 1) 0); [lia |].
      destruct (Z.eqb_spec (x - emin prec emax + 1) (2 * emax - 1));
        [unfold emin in *; lia |].
      f_equal; [| lia].
      replace (Z.pos m - 2 ^ (prec - 1) + 2 ^ (prec - 1)) with (Zpos m) by lia.
      reflexivity.
Qed.

Lemma bits_of_float_range (f : spec_float) :
  valid_binary prec emax f = true ->
  0 <= IEEE.bits_of_float prec emax f < 2 * (2 * emax * 2 ^ (prec - 1)).
Proof.
  intros Hv.
  assert (HB : 0 < 2 ^ (prec - 1)) by (apply Z.pow_pos_nonneg; lia).
  assert (HB' : 0 < 2 ^ (prec - 1 - 1) < 2 ^ (prec - 1)).
  { split; [apply Z.pow_pos_nonneg; lia |]. apply Z.pow_lt_mono_r; lia. }
  assert (Hs : forall s, 0 <= IEEE.sign_bit prec emax s
                         <= 2 * emax * 2 ^ (prec - 1))
    by (intros [|]; unfold IEEE.sign_bit; nia).
  destruct f as [s | s | | s m x]; cbn [IEEE.bits_of_float];
    unfold IEEE.exp_ones; try (specialize (Hs s)); try nia.
  cbn [valid_binary] in Hv.
  destruct (bounded_digits m x Hv) as (Hm & Hx & Hsub).
  pose proof pow2_prec as H2.
  destruct (Z.ltb_spec (Zpos m) (2 ^ (prec - 1))); unfold emin in *; nia.
Qed.

(** Narrowing back a float that was widened by a shift of its
    significand. *)
Lemma binary_round_shifted (s : bool) (m k : positive) (x : Z) :
  bounded prec emax m x = true ->
  binary_round prec emax s (Pos.iter xO m k) (x - Zpos k) = S754_finite s m x.
Proof.
  intros Hb. pose proof Hb as Hb'. apply bounded_spec in Hb' as [Hc Hx].
  assert (Hf : fexp prec emax
                 (Zpos (digits2_pos (Pos.iter xO m k)) + (x - Zpos k)) = x).
  { unfold fexp. rewrite digits_iter_xO, Pos2Z.inj_add.
    replace (Z.pos (digits2_pos m) + Z.pos k + (x - Z.pos k) - prec)
      with (Z.pos (digits2_pos m) + x - prec) by lia.
    exact Hc. }
  unfold binary_round, shl_align. rewrite Hf.
  replace (x - (x - Z.pos k)) with (Zpos k) by lia.
  unfold binary_round_aux, shr_fexp. cbn [Zdigits2]. rewrite Hf.
  replace (x - (x - Z.pos k)) with (Zpos k) by lia.
  cbn [shr shr_record_of_loc]. rewrite shr_iter_xO.
  cbn [shr_m loc_of_shr_record round_nearest_even Zdigits2].
  replace (x - Z.pos k + Z.pos k) with x by lia.
  unfold fexp. rewrite Hc, Z.sub_diag. cbn [shr shr_record_of_loc shr_m].
  apply Z.leb_le in Hx. now rewrite Hx.
Qed.

(** Widening a float with fewer digits than the format has: the significand
    is shifted left. *)
Lemma binary_round_widen (s : bool) (m : positive) (x : Z) :
  let d := Zpos (digits2_pos m) in
  d < prec -> emin prec emax <= d + x - prec -> d + x <= emax ->
  binary_round prec emax s m x
  = S754_finite s (Pos.iter xO m (Z.to_pos (prec - d))) (x - Zpos (Z.to_pos (prec - d))).
Proof.
  intros d Hd Hlo Hhi.
  assert (Hk : Zpos (Z.to_pos (prec - d)) = prec - d) by (apply Z2Pos.id; lia).
  assert (Hf : fexp prec emax (d + x) = d + x - prec) by (unfold fexp; lia).
  unfold binary_round, shl_align. fold d. rewrite Hf.
  replace (d + x - prec - x) with (Zneg (Z.to_pos (prec - d))) by lia.
  replace (d + x - prec) with (x - Zpos (Z.to_pos (prec - d))) by lia.
  apply binary_round_aux_canonical. apply bounded_spec.
  rewrite digits_iter_xO, Pos2Z.inj_add. fold d. split; lia.
Qed.
End Format.
End IEEE_facts.

Module Order_facts.
Import Codec_spec.
Import IEEE_facts.
Local Open Scope Q_scope.

Lemma pow2_pos (x : Z) : 0 < 2 ^ x.
Proof. apply Qpower_0_lt. reflexivity. Qed.

Lemma value_pos (m : positive) (x : Z) :
  IEEE.value (S754_finite false m x) == inject_Z (Zpos m) * 2 ^ x.
Proof. apply value_Qpower. Qed.

Lemma value_neg (m : positive) (x : Z) :
  IEEE.value (S754_finite true m x) == - IEEE.value (S754_finite false m x).
Proof.
  rewrite !value_Qpower. unfold signed.
  change (Z.neg m) with (- Z.pos m)%Z. rewrite inject_Z_opp. ring.
Qed.

Lemma value_pos_gt (m : positive) (x : Z) :
  0 < IEEE.value (S754_finite false m x).
Proof.
  rewrite value_pos. apply Qmult_lt_0_compat; [| apply pow2_pos].
  unfold Qlt, inject_Z. cbn. lia.
Qed.

Lemma Qcompare_intro (c : comparison) (a b : Q) :
  match c with
  | Lt => a < b
  | Eq => a == b
  | Gt => b < a
  end ->
  (a ?= b) = c.
Proof.
  destruct c; intros H.
  - now apply Qeq_alt.
  - now apply Qlt_alt.
  - now apply Qgt_alt.
Qed.

Section Format.
Variables prec emax : Z.
Hypothesis Hprec : (1 < prec)%Z.

(** Among positive floats of the format a smaller exponent means a smaller
    number. *)
Lemma pos_lt_exponent (m1 m2 : positive) (x1 x2 : Z) :
  bounded prec emax m1 x1 = true -> bounded prec emax m2 x2 = true ->
  (x1 < x2)%Z ->
  IEEE.value (S754_finite false m1 x1) < IEEE.value (S754_finite false m2 x2).
Proof.
  intros H1 H2 Hx.
  destruct (bounded_digits prec emax Hprec m1 x1 H1) as (Hm1 & Hx1 & _).
  destruct (bounded_digits prec emax Hprec m2 x2 H2) as (_ & _ & Hs2).
  assert (Hm2 : (2 ^ (prec - 1) <= Zpos m2)%Z).
  { destruct (Z.ltb_spec (Zpos m2) (2 ^ (prec - 1))); [| assumption].
    specialize (Hs2 ltac:(assumption)). lia. }
  rewrite !value_pos.
  replace x2 with ((x2 - x1) + x1)%Z by lia.
  rewrite (Qpower_plus 2 (x2 - x1) x1) by (intros H; discriminate H).
  rewrite <- (Zpower_Qpower 2 (x2 - x1)) by lia.
  change (inject_Z 2) with 2. rewrite Qmult_assoc, <- inject_Z_mult.
  apply Qmult_lt_compat_r; [apply pow2_pos |].
  rewrite <- Zlt_Qlt.
  assert (2 ^ 1 <= 2 ^ (x2 - x1))%Z by (apply Z.pow_le_mono_r; lia).
  pose proof (pow2_prec prec Hprec). nia.
Qed.

Lemma pos_same_exponent (m1 m2 : positive) (x : Z) :
  (IEEE.value (S754_finite false m1 x) ?= IEEE.value (S754_finite false m2 x))
  = Pos.compare m1 m2.
Proof.
  rewrite !value_pos. apply Qcompare_intro.
  pose proof (pow2_pos x) as Hp.
  destruct (Pos.compare_spec m1 m2) as [-> | H | H].
  - reflexivity.
  - apply Qmult_lt_compat_r; [exact Hp |]. rewrite <- Zlt_Qlt. lia.
  - apply Qmult_lt_compat_r; [exact Hp |]. rewrite <- Zlt_Qlt. lia.
Qed.

Lemma pos_compare (m1 m2 : positive) (x1 x2 : Z) :
  bounded prec emax m1 x1 = true -> bounded prec emax m2 x2 = true ->
  (IEEE.value (S754_finite false m1 x1) ?= IEEE.value (S754_finite false m2 x2))
  = match Z.compare x1 x2 with
    | Lt => Lt
    | Gt => Gt
    | Eq => Pos.compare_cont Eq m1 m2
    end.
Proof.
  intros H1 H2. destruct (Z.compare_spec x1 x2) as [-> | H | H].
  - apply pos_same_exponent.
  - apply Qcompare_intro. now apply pos_lt_exponent.
  - apply Qcompare_intro. now apply pos_lt_exponent.
Qed.

(** On finite floats of the format [SFcompare] compares the numbers. *)
Lemma SFcompare_value (a b : spec_float) :
  valid_binary prec emax a = true -> valid_binary prec emax b = true ->
  IEEE.is_finite a = true -> IEEE.is_finite b = true ->
  SFcompare a b = Some (IEEE.value a ?= IEEE.value b).
Proof.
  intros Va Vb Fa Fb.
  destruct a as [sa | sa | | sa ma xa]; try discriminate Fa;
    destruct b as [sb | sb | | sb mb xb]; try discriminate Fb;
    cbn [valid_binary] in Va, Vb; unfold SFcompare; f_equal; symmetry.
  - apply Qcompare_intro. change (IEEE.value (S754_zero sa)) with 0.
    destruct sb; [rewrite value_neg |]; pose proof (value_pos_gt mb xb); lra.
  - apply Qcompare_intro. change (IEEE.value (S754_zero sb)) with 0.
    destruct sa; [rewrite value_neg |]; pose proof (value_pos_gt ma xa); lra.
  - pose proof (value_pos_gt ma xa). pose proof (value_pos_gt mb xb).
    destruct sa, sb.
    + rewrite !value_neg.
      pose proof (pos_compare ma mb xa xb Va Vb) as Hc.
      destruct (Z.compare xa xb).
      * destruct (Pos.compare_cont Eq ma mb); apply Qcompare_intro; cbn [CompOpp].
        -- apply Qeq_alt in Hc. lra.
        -- apply Qlt_alt in Hc. lra.
        -- apply Qgt_alt in Hc. lra.
      * apply Qcompare_intro. apply Qlt_alt in Hc. lra.
      * apply Qcompare_intro. apply Qgt_alt in Hc. lra.
    + apply Qcompare_intro. rewrite value_neg. lra.
    + apply Qcompare_intro. rewrite (value_neg mb). lra.
    + now apply pos_compare.
Qed.

Lemma SFltb_value (a b : spec_float) :
  valid_binary prec emax a = true -> valid_binary prec emax b = true ->
  IEEE.is_finite a = true -> IEEE.is_finite b = true ->
  SFltb a b = true <-> IEEE.value a < IEEE.value b.
Proof.
  intros Va Vb Fa Fb. unfold SFltb. rewrite (SFcompare_value a b Va Vb Fa Fb).
  rewrite Qlt_alt. destruct (IEEE.value a ?= IEEE.value b); split;
    intros H; try reflexivity; discriminate H.
Qed.
End Format.
End Order_facts.

Module Min_facts.
Import Codec_spec.
Import IEEE_facts Order_facts.
Local Open Scope Q_scope.

Lemma SFltb_minus_infinity (b : spec_float) :
  SFltb b (S754_infinity true) = false.
Proof. destruct b as [s | [|] | | s m x]; reflexivity. Qed.

Lemma SFltb_plus_infinity (a : spec_float) :
  SFltb (S754_infinity false) a = false.
Proof. destruct a as [s | [|] | | s m x]; reflexivity. Qed.

Lemma SFltb_finite_infinity (b : spec_float) :
  IEEE.is_finite b = true -> SFltb b (S754_infinity false) = true.
Proof. destruct b as [s | s | | s m x]; try discriminate; reflexivity. Qed.

Lemma fmin_cases (a b : spec_float) : np.fmin a b = a \/ np.fmin a b = b.
Proof.
  unfold np.fmin. destruct (IEEE.is_nan a); [now left |].
  destruct (IEEE.is_nan b); [now right |].
  destruct (SFltb b a); [now right | now left].
Qed.

Lemma fmin_bottom (a b : spec_float) : bottom a -> bottom (np.fmin a b).
Proof.
  intros [-> | ->]; [now left |]. unfold np.fmin. cbn [IEEE.is_nan].
  destruct (IEEE.is_nan b) eqn:E.
  - destruct b; try discriminate E. now left.
  - rewrite SFltb_minus_infinity. now right.
Qed.

Lemma fold_fmin_bottom (vs : list spec_float) (a : spec_float) :
  bottom a -> bottom (fold_left np.fmin vs a).
Proof.
  revert a. induction vs as [| b vs IH]; intros a Ha; [exact Ha |].
  cbn [fold_left]. apply IH. now apply fmin_bottom.
Qed.

Lemma bottom_not_finite (f : spec_float) :
  bottom f -> IEEE.is_finite f = false.
Proof. now intros [-> | ->]. Qed.

Lemma fold_fmin_in (vs : list spec_float) (a : spec_float) :
  In (fold_left np.fmin vs a) (a :: vs).
Proof.
  revert a. induction vs as [| b vs IH]; intros a; [now left |].
  cbn [fold_left]. destruct (IH (np.fmin a b)) as [H | H].
  - rewrite <- H. destruct (fmin_cases a b) as [-> | ->];
      [now left | right; now left].
  - right. now right.
Qed.

Section Format.
Variables prec emax : Z.
Hypothesis Hprec : (1 < prec)%Z.

Let valid := valid_binary prec emax.

Lemma fmin_finite_le (a b : spec_float) :
  valid a = true -> valid b = true ->
  IEEE.is_finite (np.fmin a b) = true ->
  (IEEE.is_finite a = true -> IEEE.value (np.fmin a b) <= IEEE.value a)
  /\ (IEEE.is_finite b = true -> IEEE.value (np.fmin a b) <= IEEE.value b).
Proof.
  intros Va Vb. unfold np.fmin.
  destruct (IEEE.is_nan a) eqn:Ea; [destruct a; discriminate |].
  destruct (IEEE.is_nan b) eqn:Eb; [destruct b; discriminate |].
  destruct (SFltb b a) eqn:E; intros Hfin; split; intros H;
    try apply Qle_refl.
  - apply Qlt_le_weak.
    now apply (SFltb_value prec emax Hprec b a Vb Va Hfin H).
  - apply Qnot_lt_le. intros Hlt.
    apply (SFltb_value prec emax Hprec b a Vb Va H Hfin) in Hlt. congruence.
Qed.

Lemma fmin_plus_infinity (a b : spec_float) :
  np.fmin a b = S754_infinity false ->
  IEEE.is_finite a = false /\ IEEE.is_finite b = false.
Proof.
  unfold np.fmin.
  destruct (IEEE.is_nan a) eqn:Ea; [intros ->; discriminate |].
  destruct (IEEE.is_nan b) eqn:Eb; [intros ->; discriminate |].
  destruct (SFltb b a) eqn:E; intros ->.
  - now rewrite SFltb_plus_infinity in E.
  - split; [reflexivity |].
    destruct (IEEE.is_finite b) eqn:Fb; [| reflexivity].
    now rewrite (SFltb_finite_infinity b Fb) in E.
Qed.

Lemma not_finite_cases (f : spec_float) :
  IEEE.is_finite f = false -> bottom f \/ f = S754_infinity false.
Proof.
  destruct f as [s | [|] | | s m x]; try discriminate; intros _;
    [left; now right | now right | left; now left].
Qed.

(** The minimum of floats of the format, when it is finite, is at most
    every finite one of them. *)
Lemma fold_fmin_le (vs : list spec_float) (a : spec_float) :
  valid a = true -> Forall (fun w => valid w = true) vs ->
  IEEE.is_finite (fold_left np.fmin vs a) = true ->
  forall w, In w (a :: vs) -> IEEE.is_finite w = true ->
            IEEE.value (fold_left np.fmin vs a) <= IEEE.value w.
Proof.
  revert a. induction vs as [| b vs IH]; intros a Va Hvs Hfin w Hin Hw.
  - destruct Hin as [<- | []]. apply Qle_refl.
  - cbn [fold_left] in *. inversion Hvs as [| ? ? Vb Hvs']; subst.
    assert (Vab : valid (np.fmin a b) = true)
      by (destruct (fmin_cases a b) as [-> | ->]; assumption).
    specialize (IH (np.fmin a b) Vab Hvs' Hfin).
    destruct (IEEE.is_finite (np.fmin a b)) eqn:Fab.
    + destruct (fmin_finite_le a b Va Vb Fab) as [Hla Hlb].
      destruct Hin as [<- | [<- | Hin]].
      * apply Qle_trans with (IEEE.value (np.fmin a b));
          [apply IH; [now left | exact Fab] | now apply Hla].
      * apply Qle_trans with (IEEE.value (np.fmin a b));
          [apply IH; [now left | exact Fab] | now apply Hlb].
      * apply IH; [now right | exact Hw].
    + destruct (not_finite_cases _ Fab) as [Hbot | Hinf].
      * apply (fold_fmin_bottom vs) in Hbot.
        apply bottom_not_finite in Hbot. congruence.
      * destruct (fmin_plus_infinity a b Hinf) as [Fa Fb].
        destruct Hin as [<- | [<- | Hin]]; try congruence.
        apply IH; [now right | exact Hw].
Qed.
End Format.
End Min_facts.

(** ** The UINT8 mode *)

Module Uint8_facts.
Import jina_pb2 DenseNdArray Codec_spec np_facts Codec_facts.

Local Open Scope Q_scope.

Section Structure.
Context {platform : np.Platform}.

Lemma items_same (a b : np.ndarray) :
  np.dtype a = np.dtype b -> np.data a = np.data b -> np.items a = np.items b.
Proof. unfold np.items. now intros -> ->. Qed.

Lemma items_astype (x : np.ndarray) (dt : np.DType) :
  np.items (np.astype x dt)
  = map (fun v => stored dt (np.cast dt v)) (np.items x).
Proof. unfold np.astype. now rewrite items_of_items, map_map. Qed.

Lemma items_arith op (x : np.ndarray) (s : spec_float) :
  np.is_float (np.dtype x) = true ->
  np.items (np.arith op x s)
  = map (fun v => stored (np.dtype x) (np.arith1 op (np.dtype x) s v))
        (np.items x).
Proof.
  intros H. unfold np.arith. rewrite H.
  now rewrite items_of_items, map_map.
Qed.

Lemma dtype_arith op (x : np.ndarray) (s : spec_float) :
  np.is_float (np.dtype x) = true -> np.dtype (np.arith op x s) = np.dtype x.
Proof. intros H. unfold np.arith. now rewrite H. Qed.

Lemma wf_arith op (x : np.ndarray) (s : spec_float) :
  np.wf x -> np.wf (np.arith op x s).
Proof.
  intros H. apply wf_of_items. now rewrite length_map, length_items_wf.
Qed.

Lemma reduce_nonempty op (x : np.ndarray) :
  np.wf x -> np.size x <> 0%nat -> exists v, np.reduce op x = Ok v.
Proof.
  intros Hwf Hne. unfold np.reduce.
  pose proof (length_items_wf x Hwf) as Hl.
  destruct (np.items x); [cbn in Hl; congruence | eauto].
Qed.

(** The message the setter leaves for a float array in [uint8] mode. *)
Lemma set_value_uint8 (blob : DenseNdArrayProto) (x : np.ndarray) :
  np.wf x -> np.size x <> 0%nat -> np.is_float (np.dtype x) = true ->
  exists mx mn,
    np.max x = Ok mx /\ np.min x = Ok mn /\
    set_value (Some "uint8"%string) blob x
    = (let hi := np.to_double mx in
       let lo := np.to_double mn in
       let sc := py_div_int (py_sub hi lo) 256 in
       (store_array
          (np.astype (np.div (np.sub x lo) sc) np.uint8)
          (set_scale sc
             (set_original_dtype (np.name (np.dtype x))
                (set_min_val lo
                   (set_max_val hi (set_quantization UINT8 blob))))),
        Ok tt)).
Proof.
  intros Hwf Hne Hf.
  destruct (reduce_nonempty np.smax x Hwf Hne) as [mx Hmx].
  destruct (reduce_nonempty np.smin x Hwf Hne) as [mn Hmn].
  exists mx, mn. repeat split; try assumption.
  unfold set_value, np.max, np.min. rewrite Hmx, Hmn.
  destruct (np.dtype x); try discriminate Hf; reflexivity.
Qed.

Lemma get_value_nonempty (blob : DenseNdArrayProto) :
  buffer blob <> [] ->
  get_value blob
  = (x <- np.frombuffer (buffer blob) (dtype blob) ;;
     x <- match quantization blob with
          | FP16 => np.astype_str x (original_dtype blob)
          | UINT8 =>
              y <- np.astype_str x (original_dtype blob) ;;
              Ok (np.add (np.mul y (scale blob)) (min_val blob))
          | _ => Ok x
          end ;;
     r <- np.reshape x (shape blob) ;;
     Ok (Some r)).
Proof.
  intros H. unfold get_value. destruct (buffer blob); [congruence | reflexivity].
Qed.

(** Reading back a message in [UINT8] mode whose buffer holds the codes
    [ks]. *)
Lemma get_value_uint8 (blob : DenseNdArrayProto) (dt : np.DType)
  (ks : list np.scalar) :
  np.is_float dt = true -> ks <> [] ->
  quantization blob = UINT8 -> dtype blob = np.str np.uint8 ->
  original_dtype blob = np.name dt ->
  buffer blob = concat (map (np.store np.uint8) ks) ->
  np.prod (shape blob) = length ks ->
  exists y,
    get_value blob = Ok (Some y)
    /\ np.dtype y = dt /\ np.shape y = shape blob
    /\ np.items y
       = map (fun k => dequantize dt (min_val blob) (scale blob)
                         (stored np.uint8 k)) ks.
Proof.
  intros Hf Hne Hq Hd Ho Hb Hp.
  assert (Hlen : length (concat (map (np.store np.uint8) ks)) = length ks).
  { rewrite length_concat_store. cbn. lia. }
  rewrite get_value_nonempty.
  2:{ rewrite Hb. intros E. rewrite E in Hlen.
      destruct ks; [congruence | discriminate]. }
  rewrite Hb, Hd, Ho, Hq.
  unfold np.frombuffer. rewrite dtype_of_string_str.
  cbn [np.itemsize]. rewrite Nat.mod_1_r, Nat.div_1_r. cbn [Nat.eqb bind].
  unfold np.astype_str. rewrite dtype_of_string_name. cbn [bind].
  set (B := {| np.dtype := np.uint8;
               np.shape := [length (concat (map (np.store np.uint8) ks))];
               np.data := concat (map (np.store np.uint8) ks) |}).
  assert (HB : np.items B = map (stored np.uint8) ks).
  { transitivity (np.items (np.of_items np.uint8 [length ks] ks));
      [apply items_same; reflexivity |].
    exact (items_of_items np.uint8 [length ks] ks). }
  set (Y := np.astype B dt).
  assert (HYd : np.dtype Y = dt) by reflexivity.
  assert (HM : np.dtype (np.mul Y (scale blob)) = dt).
  { unfold np.mul. rewrite dtype_arith; rewrite HYd; auto. }
  set (R := np.add (np.mul Y (scale blob)) (min_val blob)).
  assert (HRd : np.dtype R = dt).
  { unfold R, np.add. rewrite dtype_arith; rewrite HM; auto. }
  assert (HRi : np.items R
                = map (fun k => dequantize dt (min_val blob) (scale blob)
                                  (stored np.uint8 k)) ks).
  { unfold R, np.add, np.mul.
    rewrite items_arith by (fold (np.mul Y (scale blob)); now rewrite HM).
    fold (np.mul Y (scale blob)). rewrite HM.
    unfold np.mul. rewrite items_arith by now rewrite HYd.
    rewrite HYd. unfold Y. rewrite items_astype, HB, !map_map.
    reflexivity. }
  assert (HRs : np.size R = length ks).
  { unfold R, np.add, np.mul, np.arith, np.size. cbn [np.shape np.of_items
      np.astype np.prod fold_right]. subst Y B. cbn [np.shape np.astype
      np.of_items np.prod fold_right]. rewrite Hlen. lia. }
  unfold np.reshape. fold R. rewrite HRs, Hp, Nat.eqb_refl. cbn [bind].
  eexists. split; [reflexivity |]. cbn [np.dtype np.shape].
  repeat split; assumption.
Qed.

(** The message the setter leaves in [uint8] mode and the array the getter
    reads back from it, element by element. *)
Lemma uint8_round_trip_items (blob : DenseNdArrayProto) (x : np.ndarray) :
  np.wf x -> np.size x <> 0%nat -> np.is_float (np.dtype x) = true ->
  exists blob' mx mn y,
    set_value (Some "uint8"%string) blob x = (blob', Ok tt)
    /\ np.max x = Ok mx /\ np.min x = Ok mn
    /\ max_val blob' = np.to_double mx /\ min_val blob' = np.to_double mn
    /\ scale blob' = py_div_int (py_sub (max_val blob') (min_val blob')) 256
    /\ quantization blob' = UINT8
    /\ original_dtype blob' = np.name (np.dtype x)
    /\ get_value blob' = Ok (Some y)
    /\ np.dtype y = np.dtype x /\ np.shape y = np.shape x
    /\ np.items y
       = map (fun v =>
                dequantize (np.dtype x) (min_val blob') (scale blob')
                  (quantize (np.dtype x) (min_val blob') (scale blob') v))
             (np.items x).
Proof.
  intros Hwf Hne Hf.
  destruct (set_value_uint8 blob x Hwf Hne Hf) as (mx & mn & Hmx & Hmn & Hset).
  cbv zeta in Hset.
  set (lo := np.to_double mn) in *. set (hi := np.to_double mx) in *.
  set (sc := py_div_int (py_sub hi lo) 256) in *.
  set (A1 := np.sub x lo) in *. set (A2 := np.div A1 sc) in *.
  assert (HA1 : np.dtype A1 = np.dtype x) by (apply dtype_arith; exact Hf).
  assert (HA2 : np.dtype A2 = np.dtype x).
  { unfold A2, np.div. rewrite dtype_arith; rewrite HA1; auto. }
  assert (Hitems : np.items A2
                   = map (fun v => step_div (np.dtype x) sc
                                     (step_sub (np.dtype x) lo v))
                         (np.items x)).
  { unfold A2, np.div. rewrite items_arith by now rewrite HA1.
    rewrite HA1. unfold A1, np.sub. rewrite items_arith by exact Hf.
    now rewrite map_map. }
  assert (HwfA2 : np.wf A2) by (apply wf_arith, wf_arith, Hwf).
  assert (Hlen : length (np.items A2) = np.size x).
  { rewrite (length_items_wf A2 HwfA2). reflexivity. }
  match type of Hset with _ = (?b, _) => set (blob' := b) in * end.
  destruct (get_value_uint8 blob' (np.dtype x)
              (map (np.cast np.uint8) (np.items A2))) as (y & Hy & Hyd & Hys & Hyi);
    try reflexivity; try exact Hf.
  { intros E. apply (f_equal (@length _)) in E.
    rewrite length_map, Hlen in E. cbn in E. congruence. }
  { cbn. now rewrite length_map, Hlen. }
  exists blob', mx, mn, y. repeat split; try assumption.
  rewrite Hyi, Hitems, !map_map. reflexivity.
Qed.
End Structure.
End Uint8_facts.

Module Uint8_num.
Import jina_pb2 DenseNdArray Codec_spec np_facts Codec_facts Uint8_facts.
Local Open Scope Q_scope.

Lemma trunc_floor (f : spec_float) :
  IEEE.is_finite f = true -> 0 <= IEEE.value f ->
  IEEE.trunc f = Some (Qfloor (IEEE.value f)).
Proof.
  destruct f as [s | s | | s m e]; try discriminate; intros _ Hv.
  - reflexivity.
  - destruct s.
    + exfalso. unfold IEEE.value in Hv.
      destruct e as [|p|p]; unfold Qle, inject_Z in Hv;
        cbn [Qnum Qden] in Hv.
      * lia.
      * pose proof (Z.pow_pos_nonneg 2 (Z.pos p) ltac:(lia) ltac:(lia)).
        pose proof (Pos2Z.neg_is_neg m). nia.
      * lia.
    + unfold IEEE.trunc, IEEE.value.
      destruct e as [|p|p]; cbn [Qfloor inject_Z].
      * now rewrite Z.div_1_r.
      * now rewrite Z.div_1_r.
      * now rewrite Pos2Z.inj_pow.
Qed.

Lemma stored_uint8 (z : Z) : stored np.uint8 (np.I z) = np.I (z mod 256)%Z.
Proof.
  unfold stored, np.load, np.store. cbn [np.kind np.itemsize].
  rewrite le_value_le_bytes. unfold np.wrap, np.bits.
  cbn [np.kind np.itemsize]. change (2 ^ (8 * Z.of_nat 1))%Z with 256%Z.
  now rewrite Z.mod_mod.
Qed.

Lemma in_codes (k : Z) : (0 <= k < 256)%Z -> In k codes.
Proof.
  intros Hk. unfold codes. rewrite <- (Z2Nat.id k) by lia.
  apply in_map, in_seq. lia.
Qed.

Lemma codes_float16 : forallb (code_check 11 16 np.float16) codes = true.
Proof. vm_compute. reflexivity. Qed.

Lemma codes_float32 : forallb (code_check 24 128 np.float32) codes = true.
Proof. vm_compute. reflexivity. Qed.

Lemma codes_float64 : forallb (code_check 53 1024 np.float64) codes = true.
Proof. vm_compute. reflexivity. Qed.

Lemma stored_zero (dt : np.DType) (s : bool) :
  np.is_float dt = true ->
  stored dt (np.F (S754_zero s)) = np.F (S754_zero s).
Proof. destruct dt, s; try discriminate; intros _; vm_compute; reflexivity. Qed.

Section Cast.
Context {platform : np.Platform}.

Lemma step_code_in_range (f : spec_float) (k : Z) :
  IEEE.trunc f = Some k -> (0 <= k < 256)%Z ->
  step_code (np.F f) = np.I k.
Proof.
  intros Ht Hk. unfold step_code, np.cast. cbn [np.kind]. rewrite Ht.
  unfold np.in_range, np.wrap, np.bits. cbn [np.kind np.itemsize].
  change (2 ^ (8 * Z.of_nat 1))%Z with 256%Z.
  rewrite (Z.mod_small k 256 Hk), Z.eqb_refl, stored_uint8.
  now rewrite !(Z.mod_small k 256 Hk).
Qed.

Lemma step_code_is_code (t : np.scalar) :
  exists k, step_code t = np.I k /\ (0 <= k < 256)%Z.
Proof.
  unfold step_code, np.cast. cbn [np.kind].
  destruct t; rewrite stored_uint8; eexists; (split; [reflexivity |]);
    apply Z.mod_pos_bound; lia.
Qed.

Lemma step_float_code (dt : np.DType) (k : Z) :
  np.is_float dt = true -> (0 <= k < 256)%Z ->
  exists f,
    step_float dt (np.I k) = np.F f
    /\ (f = S754_zero false \/ exists m x, f = S754_finite false m x)
    /\ IEEE.value f == inject_Z k.
Proof.
  intros Hf Hk. unfold step_float.
  assert (H : exists p e,
             np.cast dt (np.I k) = np.F (IEEE.of_Z p e k)
             /\ code_check p e dt k = true).
  { pose proof (in_codes k Hk) as Hin.
    destruct dt; try discriminate Hf.
    - exists 11%Z, 16%Z. split; [reflexivity |].
      exact (proj1 (forallb_forall _ _) codes_float16 k Hin).
    - exists 24%Z, 128%Z. split; [reflexivity |].
      exact (proj1 (forallb_forall _ _) codes_float32 k Hin).
    - exists 53%Z, 1024%Z. split; [reflexivity |].
      exact (proj1 (forallb_forall _ _) codes_float64 k Hin). }
  destruct H as (p & e & -> & Hc). unfold code_check in Hc.
  destruct (stored dt (np.F (IEEE.of_Z p e k))) as [f | z]; [| discriminate].
  exists f. split; [reflexivity |].
  destruct f as [[|] | | | [|] m x]; try discriminate.
  - apply Z.eqb_eq in Hc. subst k. split; [now left | reflexivity].
  - apply Qeq_bool_iff in Hc. split; [right; eauto | exact Hc].
Qed.

Lemma SFcompare_Eq_finite s1 m1 e1 s2 m2 e2 :
  SFcompare (S754_finite s1 m1 e1) (S754_finite s2 m2 e2) = Some Eq ->
  s1 = s2 /\ m1 = m2 /\ e1 = e2.
Proof.
  unfold SFcompare. destruct s1, s2; try discriminate;
    destruct (Z.compare_spec e1 e2) as [He | He | He]; try discriminate;
    intros Hc; injection Hc as Hc; repeat split; try assumption;
    apply Pos.compare_eq; unfold Pos.compare;
    now destruct (Pos.compare_cont Eq m1 m2).
Qed.

Lemma py_sub_equal (a b : spec_float) :
  SFeqb a b = true -> IEEE.is_finite a = true ->
  exists s, py_sub a b = S754_zero s.
Proof.
  unfold SFeqb. intros H Hfin.
  destruct (SFcompare a b) as [[| |]|] eqn:E; try discriminate. clear H.
  destruct a as [sa | sa | | sa ma ea], b as [sb | sb | | sb mb eb];
    try discriminate Hfin; try discriminate E.
  - destruct sa, sb; eexists; reflexivity.
  - exfalso. cbn in E. destruct sb; discriminate E.
  - exfalso. cbn in E. destruct sb; discriminate E.
  - exfalso. cbn in E. destruct sa; discriminate E.
  - exfalso. cbn in E. destruct sb; discriminate E.
  - apply SFcompare_Eq_finite in E. destruct E as (-> & -> & ->).
    exists false. unfold py_sub, SFsub. now rewrite Z.sub_diag.
Qed.

Lemma py_div_int_zero (s : bool) :
  py_div_int (S754_zero s) 256 = S754_zero s.
Proof. destruct s; vm_compute; reflexivity. Qed.

(** A constant array: every code is read back as [min_val]. *)
Lemma constant_element (dt : np.DType) (lo hi : spec_float) (v : np.scalar) :
  np.is_float dt = true ->
  SFeqb hi lo = true -> IEEE.is_finite hi = true ->
  representable dt lo ->
  finite_with (IEEE.value lo)
    (dequantize dt lo (py_div_int (py_sub hi lo) 256)
       (quantize dt lo (py_div_int (py_sub hi lo) 256) v)).
Proof.
  intros Hf Heq Hfin Hrep.
  destruct (py_sub_equal hi lo Heq Hfin) as [s ->].
  rewrite py_div_int_zero. unfold quantize, dequantize.
  destruct (step_code_is_code
              (step_div dt (S754_zero s) (step_sub dt lo v))) as (k & -> & Hk).
  destruct (step_float_code dt k Hf Hk) as (yf & -> & Hy & _).
  unfold np.is_float in Hf. unfold representable, np.cast in Hrep.
  unfold step_add, step_mul, np.arith1.
  destruct (np.kind dt) as [p e | ?] eqn:Ek; [| discriminate].
  cbn [np.as_float IEEE.of_float].
  assert (Hmul : SFmul p e yf (S754_zero s) = S754_zero s).
  { destruct Hy as [-> | (m & x & ->)]; destruct s; reflexivity. }
  rewrite Hmul, stored_zero by (unfold np.is_float; now rewrite Ek).
  cbn [np.as_float].
  destruct (IEEE.of_float p e lo) as [s' | s' | | s' m' e'] eqn:El;
    try exact Hrep.
  rewrite stored_zero in Hrep by (unfold np.is_float; now rewrite Ek).
  destruct Hrep as [_ Hv].
  assert (Hz : exists s'', SFadd p e (S754_zero s) (S754_zero s')
                           = S754_zero s'')
    by (destruct s, s'; eexists; reflexivity).
  destruct Hz as [s'' ->].
  rewrite stored_zero by (unfold np.is_float; now rewrite Ek).
  split; [reflexivity | exact Hv].
Qed.
End Cast.
End Uint8_num.

Module Float_arrays.
Import jina_pb2 DenseNdArray Codec_spec np_facts Codec_facts Uint8_facts
  Uint8_num IEEE_facts.

(** The formats of the float dtypes. *)
Lemma float_kind (dt : np.DType) :
  np.is_float dt = true ->
  exists p e,
    np.kind dt = np.Float p e /\ 1 < p /\ p < e
    /\ 2 * (2 * e * 2 ^ (p - 1)) = 2 ^ (8 * Z.of_nat (np.itemsize dt))
    /\ ((p = 53 /\ e = 1024) \/ (p < 53 /\ e + p <= 1025)).
Proof.
  destruct dt; try discriminate; intros _.
  - exists 11, 16. repeat split; lia.
  - exists 24, 128. repeat split; lia.
  - exists 53, 1024. repeat split; lia.
Qed.

Lemma load_float (dt : np.DType) (bs : list byte) :
  np.is_float dt = true -> float_of dt (np.load dt bs).
Proof.
  intros Hf. destruct (float_kind dt Hf) as (p & e & Hk & Hp & He & _).
  unfold float_of, np.load. rewrite Hk. now apply valid_float_of_bits.
Qed.

Lemma items_float (x : np.ndarray) (v : np.scalar) :
  np.is_float (np.dtype x) = true -> In v (np.items x) ->
  float_of (np.dtype x) v.
Proof.
  intros Hf Hin. unfold np.items in Hin. apply in_map_iff in Hin.
  destruct Hin as (bs & <- & _). now apply load_float.
Qed.

(** A float of the format is read back from memory as it was stored. *)
Lemma stored_float (dt : np.DType) (v : np.scalar) :
  float_of dt v -> stored dt v = v.
Proof.
  unfold float_of. destruct (np.kind dt) as [p e | ?] eqn:Hk; [| contradiction].
  destruct v as [f | ?]; [| contradiction]. intros Hv.
  assert (Hf : np.is_float dt = true) by (unfold np.is_float; now rewrite Hk).
  destruct (float_kind dt Hf) as (p' & e' & Hk' & Hp & He & Hw & _).
  rewrite Hk in Hk'. injection Hk' as <- <-.
  unfold stored, np.load, np.store. rewrite Hk, le_value_le_bytes, <- Hw.
  rewrite Z.mod_small by (now apply bits_of_float_range).
  now rewrite float_of_bits_of_float.
Qed.

Section Conversions.
Context {platform : np.Platform}.

(** A finite float of the format of [dt], widened to binary64 (as a Python
    float) and converted back, is the float itself; the Python float
    denotes the same number. *)
Lemma to_double_exact (dt : np.DType) (f : spec_float) :
  np.is_float dt = true -> float_of dt (np.F f) -> IEEE.is_finite f = true ->
  np.cast dt (np.F (np.to_double (np.F f))) = np.F f
  /\ IEEE.is_finite (np.to_double (np.F f)) = true
  /\ (IEEE.value (np.to_double (np.F f)) == IEEE.value f)%Q.
Proof.
  intros Hf Hv Hfin. destruct (float_kind dt Hf) as (p & e & Hk & Hp & He & _ & Hfmt).
  unfold float_of in Hv. rewrite Hk in Hv. unfold np.cast, np.to_double.
  rewrite Hk.
  destruct f as [s | s | | s m x]; try discriminate Hfin.
  - repeat split; reflexivity.
  - destruct Hfmt as [[-> ->] | [Hp53 He53]].
    + rewrite !(of_float_canonical 53 1024 (S754_finite s m x) Hv).
      repeat split; reflexivity.
    + cbn [valid_binary] in Hv. cbn [IEEE.of_float].
      destruct (bounded_digits p e Hp m x Hv) as (Hm & Hx & _).
      pose proof Hv as Hv'. apply bounded_spec in Hv' as [Hc _].
      pose proof (digits_bounds m) as [Dlo Dhi].
      rewrite (binary_round_widen 53 1024 s m x)
        by (unfold emin in *; cbv zeta; lia).
      cbn [IEEE.of_float].
      rewrite (binary_round_shifted p e s m _ x Hv).
      split; [reflexivity |]. split; [reflexivity |].
      apply value_shift.
Qed.
End Conversions.
End Float_arrays.

Module Float_min.
Import jina_pb2 DenseNdArray Codec_spec np_facts Codec_facts Uint8_facts
  Uint8_num IEEE_facts Order_facts Min_facts Float_arrays.
Local Open Scope Q_scope.

Lemma floats_of (dt : np.DType) (p e : Z) (l : list np.scalar) :
  np.kind dt = np.Float p e ->
  (forall v, In v l -> float_of dt v) ->
  exists fs, l = map np.F fs /\ Forall (fun f => valid_binary p e f = true) fs.
Proof.
  intros Hk. induction l as [| v l IH]; intros H.
  - exists []. split; [reflexivity | constructor].
  - destruct IH as (fs & -> & Hfs); [intros w Hw; apply H; now right |].
    pose proof (H v (or_introl eq_refl)) as Hv. unfold float_of in Hv.
    rewrite Hk in Hv. destruct v as [f | ?]; [| contradiction].
    exists (f :: fs). split; [reflexivity | now constructor].
Qed.

Lemma fold_smin_F (fs : list spec_float) (f0 : spec_float) :
  fold_left np.smin (map np.F fs) (np.F f0)
  = np.F (fold_left np.fmin fs f0).
Proof.
  revert f0. induction fs as [| f fs IH]; intros f0; [reflexivity |].
  cbn [map fold_left np.smin]. apply IH.
Qed.

(** [x.min()] of a float array is one of its elements and, when it is
    finite, at most every finite element. *)
Lemma min_float (x : np.ndarray) (mn : np.scalar) (p e : Z) :
  np.kind (np.dtype x) = np.Float p e -> (1 < p)%Z ->
  np.min x = Ok mn ->
  exists f0,
    mn = np.F f0 /\ valid_binary p e f0 = true
    /\ (IEEE.is_finite f0 = true ->
        forall fv, In (np.F fv) (np.items x) -> IEEE.is_finite fv = true ->
                   IEEE.value f0 <= IEEE.value fv).
Proof.
  intros Hk Hp Hmin.
  assert (Hf : np.is_float (np.dtype x) = true)
    by (unfold np.is_float; now rewrite Hk).
  destruct (floats_of (np.dtype x) p e (np.items x) Hk
              (fun v => items_float x v Hf)) as (fs & Hfs & Hval).
  unfold np.min, np.reduce in Hmin. rewrite Hfs in Hmin.
  destruct fs as [| f1 fs]; [discriminate |].
  cbn [map] in Hmin. injection Hmin as <-. rewrite fold_smin_F.
  inversion Hval as [| ? ? V1 Vs]; subst.
  exists (fold_left np.fmin fs f1). split; [reflexivity |]. split.
  - pose proof (fold_fmin_in fs f1) as Hin.
    destruct Hin as [<- | Hin]; [exact V1 |].
    now apply (proj1 (Forall_forall _ _) Vs).
  - intros Hfin fv Hin Hfv. rewrite Hfs in Hin.
    apply in_map_iff in Hin. destruct Hin as (f' & [= ->] & Hin).
    now apply (fold_fmin_le p e Hp fs f1 V1 Vs Hfin).
Qed.

End Float_min.

Module Uint8_round_trip.
Import jina_pb2 DenseNdArray Codec_spec np_facts Codec_facts Uint8_facts
  Uint8_num IEEE_facts Order_facts Min_facts Float_arrays Float_min.
Local Open Scope Q_scope.

Lemma SFeqb_finite (a b : spec_float) :
  SFeqb a b = true -> IEEE.is_finite a = true -> IEEE.is_finite b = true.
Proof.
  destruct a as [sa | sa | | sa ma xa]; try discriminate;
    destruct b as [sb | [|] | | sb mb xb]; try reflexivity;
    try (destruct sa; discriminate).
Qed.

Lemma to_double_finite (f : spec_float) :
  IEEE.is_finite (np.to_double (np.F f)) = true -> IEEE.is_finite f = true.
Proof. destruct f; try discriminate; reflexivity. Qed.

Section RoundTrip.
Context {platform : np.Platform}.

(** In a float array the minimum converts back to the element type
    exactly. *)
Lemma min_representable (dt : np.DType) (f0 : spec_float) :
  np.is_float dt = true -> float_of dt (np.F f0) ->
  IEEE.is_finite (np.to_double (np.F f0)) = true ->
  representable dt (np.to_double (np.F f0)).
Proof.
  intros Hf Hv Hfin. pose proof (to_double_finite f0 Hfin) as F0.
  destruct (to_double_exact dt f0 Hf Hv F0) as (Hcast & _ & Hval).
  unfold representable.
  assert (Hc : np.cast dt (np.F (np.to_double (np.F f0))) = np.F f0).
  { unfold np.cast in *. destruct (np.kind dt); [exact Hcast | discriminate]. }
  rewrite Hc, stored_float by exact Hv. split; [exact F0 |].
  symmetry. exact Hval.
Qed.

End RoundTrip.

End Uint8_round_trip.

(** ** The client: keyword arguments, errors and effects *)

Module Dict_facts.
Import Client.

Lemma dict_get_set (k k' : string) (v : PyObj) (d : dict) :
  dict_get k (dict_set k' v d)
  = if String.eqb k k' then Some v else dict_get k d.
Proof.
  unfold dict_get, dict_set. cbn [find fst].
  destruct (String.eqb k k') eqn:E; [reflexivity |].
  f_equal. induction d as [| [k0 v0] d IH]; [reflexivity |].
  cbn [filter find fst]. destruct (String.eqb k' k0) eqn:E'; cbn [negb].
  - apply String.eqb_eq in E'. subst k0. rewrite E. exact IH.
  - cbn [find fst]. destruct (String.eqb k k0); [reflexivity | exact IH].
Qed.

Lemma dict_get_cons (k k0 : string) (v0 : PyObj) (d : dict) :
  dict_get k ((k0, v0) :: d)
  = if String.eqb k k0 then Some v0 else dict_get k d.
Proof. unfold dict_get. cbn [find fst]. now destruct (String.eqb k k0). Qed.

Lemma dict_get_None_notin (k : string) (d : dict) :
  ~ In k (map fst d) -> dict_get k d = None.
Proof.
  induction d as [| [k0 v0] d IH]; [reflexivity |]. cbn [map fst In].
  intros H. rewrite dict_get_cons.
  destruct (String.eqb_spec k k0) as [-> | _]; [tauto |]. apply IH. tauto.
Qed.

(** [d.update(other)]: the entries of [other] come first. *)
Lemma dict_get_update (k : string) (d other : dict) :
  NoDup (map fst other) ->
  dict_get k (dict_update d other)
  = match dict_get k other with
    | Some v => Some v
    | None => dict_get k d
    end.
Proof.
  unfold dict_update. revert d.
  induction other as [| [k0 v0] o IH]; intros d Hnd; [reflexivity |].
  cbn [map fst] in Hnd. inversion Hnd as [| ? ? Hnot Hnd']; subst.
  cbn [fold_left fst snd]. rewrite (IH _ Hnd'), dict_get_set, dict_get_cons.
  destruct (String.eqb_spec k k0) as [-> | _]; [| reflexivity].
  now rewrite (dict_get_None_notin k0 o Hnot).
Qed.

Lemma dict_get_update_absent (k : string) (d other : dict) :
  dict_get k other = None ->
  dict_get k (dict_update d other) = dict_get k d.
Proof.
  unfold dict_update. revert d.
  induction other as [| [k0 v0] o IH]; intros d H; [reflexivity |].
  rewrite dict_get_cons in H. cbn [fold_left fst snd].
  destruct (String.eqb k k0) eqn:E; [discriminate |].
  now rewrite (IH _ H), dict_get_set, E.
Qed.
End Dict_facts.

Module Client_more.
Import Client Client_spec Requests_spec Dict_facts Client_facts.

Lemma get_requests_ok (gen : request_iterator -> option exn)
  (self : BaseClient) (kwargs : dict)
  (self' : BaseClient) (it : request_iterator) :
  _get_requests gen self kwargs = (self', Ok it) ->
  kwargs_of it = merged_kwargs self kwargs
  /\ is_async_iterator it = isasyncgen (_inputs self)
  /\ args self' = merged_kwargs self kwargs
  /\ _inputs self' = _inputs self.
Proof.
  unfold _get_requests, merged_kwargs, inputs. cbn [_inputs args].
  set (kw := dict_update (dict_set "data" (_inputs self) (args self)) kwargs).
  set (it0 := if isasyncgen (_inputs self)
              then AsyncRequests kw else SyncRequests kw).
  assert (H0 : kwargs_of it0 = kw
               /\ is_async_iterator it0 = isasyncgen (_inputs self))
    by (unfold it0; destruct (isasyncgen (_inputs self)); split; reflexivity).
  destruct (py_len (_inputs self)) as [len |].
  - destruct (dict_get "request_size" kw) as [[] |]; try discriminate.
    match goal with
    | |- context [?n =? 0] => destruct (n =? 0); [discriminate |]
    end.
    destruct (gen it0); [discriminate |].
    intros [= <- <-]. destruct H0. repeat split; assumption.
  - destruct (gen it0); [discriminate |].
    intros [= <- <-]. destruct H0. repeat split; assumption.
Qed.

(** What a call does once the expected length is computed. *)
Lemma get_requests_generated (gen : request_iterator -> option exn)
  (self : BaseClient) (kwargs : dict) (n : option number) :
  match py_len (_inputs self) with
  | Some len =>
      exists size,
        dict_get "request_size" (merged_kwargs self kwargs)
        = Some (PyInt size)
        /\ (size =? 0) = false
        /\ n = Some (py_max (Int 1) (truediv len size))
  | None => n = None
  end ->
  _get_requests gen self kwargs
  = ({| args := merged_kwargs self kwargs; _inputs := _inputs self;
        _inputs_length := n |},
     generated gen (requests_for self (merged_kwargs self kwargs))).
Proof.
  unfold _get_requests, merged_kwargs, requests_for, generated, inputs.
  cbn [_inputs args].
  destruct (py_len (_inputs self)) as [len |].
  - intros (size & -> & -> & ->). reflexivity.
  - intros ->. reflexivity.
Qed.

(** X1 (precedence of the keyword arguments): in the keyword arguments
    [_get_requests] hands to the request generator, an argument of the call
    wins over everything, [data] is otherwise [self.inputs], and every other
    key is otherwise taken from the client's arguments.  The choice between
    the asynchronous and the synchronous generator follows [self.inputs],
    also when the call passes another [data]. *)
Theorem get_requests_kwargs_precedence
  (gen : request_iterator -> option exn) (self : BaseClient)
  (kwargs : dict) (self' : BaseClient) (it : request_iterator) :
  NoDup (map fst kwargs) ->
  _get_requests gen self kwargs = (self', Ok it) ->
  (forall k,
      dict_get k (kwargs_of it)
      = match dict_get k kwargs with
        | Some v => Some v
        | None => if String.eqb k "data" then Some (inputs self)
                  else dict_get k (args self)
        end)
  /\ is_async_iterator it = isasyncgen (inputs self).
Proof.
  intros Hnd H. apply get_requests_ok in H as (Hk & Ha & _). split.
  - intros k. rewrite Hk. unfold merged_kwargs.
    now rewrite (dict_get_update k _ kwargs Hnd), dict_get_set.
  - exact Ha.
Qed.

Lemma get_requests_kwargs_precedence_witness :
  exists self' it,
    _get_requests (fun _ => None) client7 [("data"%string, PyAsyncGen)]
    = (self', Ok it)
    /\ dict_get "data" (kwargs_of it) = Some PyAsyncGen
    /\ dict_get "request_size" (kwargs_of it) = Some (PyInt 3)
    /\ is_async_iterator it = false.
Proof.
  eexists. eexists. split; [reflexivity |].
  destruct (get_requests_kwargs_precedence (fun _ => None) client7
              [("data"%string, PyAsyncGen)] _ _
              ltac:(repeat constructor; cbn; tauto) eq_refl) as [Hk Ha].
  split; [exact (Hk "data"%string) |].
  split; [exact (Hk "request_size"%string) | exact Ha].
Defined.

(** X2 (keyword arguments persist): [vars(self.args)] is the dictionary of
    the arguments itself, so after a call of [_get_requests] the client's
    arguments are the merged keyword arguments of that call; a following
    call without arguments computes the same expected length and asks the
    same generator for an iterator with the same keyword arguments, [data]
    being set to [self.inputs] again: it returns that iterator unless the
    generator raises. *)
Theorem get_requests_kwargs_persist (gen : request_iterator -> option exn)
  (self : BaseClient) (kwargs : dict)
  (self1 : BaseClient) (it1 : request_iterator) :
  _get_requests gen self kwargs = (self1, Ok it1) ->
  args self1 = kwargs_of it1
  /\ exists it2,
      snd (_get_requests gen self1 []) = generated gen it2
      /\ is_async_iterator it2 = is_async_iterator it1
      /\ _inputs_length (fst (_get_requests gen self1 []))
         = _inputs_length self1
      /\ forall k,
          dict_get k (kwargs_of it2)
          = if String.eqb k "data" then Some (inputs self)
            else dict_get k (kwargs_of it1).
Proof.
  intros H.
  pose proof (get_requests_ok _ _ _ _ _ H) as (Hk & Ha & Hargs & Hin).
  split; [congruence |].
  assert (Hm : merged_kwargs self1 []
               = dict_set "data" (_inputs self) (merged_kwargs self kwargs)).
  { unfold merged_kwargs at 1, inputs. now rewrite Hargs, Hin. }
  assert (Hrs : dict_get "request_size" (merged_kwargs self1 [])
                = dict_get "request_size" (merged_kwargs self kwargs))
    by (now rewrite Hm, dict_get_set).
  assert (Hn : match py_len (_inputs self1) with
               | Some len =>
                   exists size,
                     dict_get "request_size" (merged_kwargs self1 [])
                     = Some (PyInt size)
                     /\ (size =? 0) = false
                     /\ _inputs_length self1
                        = Some (py_max (Int 1) (truediv len size))
               | None => _inputs_length self1 = None
               end).
  { rewrite Hin, Hrs. clear Hm Hrs Hargs Hin Hk Ha.
    unfold _get_requests in H. unfold inputs in H.
    cbn [_inputs args] in H.
    change (dict_update (dict_set "data" (_inputs self) (args self)) kwargs)
      with (merged_kwargs self kwargs) in H.
    destruct (py_len (_inputs self)) as [len |].
    - destruct (dict_get "request_size" (merged_kwargs self kwargs))
        as [[| size | | | | | | | |] |]; try discriminate.
      destruct (size =? 0) eqn:E0; [discriminate |].
      injection H as <- _. exists size. repeat split. exact E0.
    - injection H as <- _. reflexivity. }
  rewrite (get_requests_generated gen self1 [] _ Hn). cbn [fst snd].
  exists (requests_for self1 (merged_kwargs self1 [])).
  split; [reflexivity |]. split; [| split; [reflexivity |]].
  - rewrite Ha. unfold requests_for, inputs. rewrite Hin.
    now destruct (isasyncgen (_inputs self)).
  - intros k.
    assert (Hkw : kwargs_of (requests_for self1 (merged_kwargs self1 []))
                  = merged_kwargs self1 [])
      by (unfold requests_for; now destruct (isasyncgen (inputs self1))).
    now rewrite Hkw, Hm, dict_get_set, Hk.
Qed.

Lemma get_requests_kwargs_persist_witness :
  exists self1 it1 it2,
    _get_requests (fun _ => None) client2
      [("request_size"%string, PyInt 5)] = (self1, Ok it1)
    /\ snd (_get_requests (fun _ => None) self1 []) = Ok it2
    /\ dict_get "request_size" (args client2) = None
    /\ dict_get "request_size" (kwargs_of it2) = Some (PyInt 5).
Proof.
  eexists. eexists.
  destruct (get_requests_kwargs_persist (fun _ => None) client2
              [("request_size"%string, PyInt 5)] _ _ eq_refl)
    as (_ & it2 & H2 & _ & _ & Hk).
  exists it2. split; [reflexivity |]. split; [exact H2 |].
  split; [reflexivity |]. exact (Hk "request_size"%string).
Defined.

(** X3 (errors of [_get_requests]): with inputs that have a length the
    call raises [KeyError] when no [request_size] is among the merged
    keyword arguments and [ZeroDivisionError] when [request_size] is 0, and
    the expected length is then as it was.  With inputs that have no length
    the expected length becomes [None] and the call returns the iterator
    the request generator is asked for, unless the generator raises.  In
    every case the client's arguments have been updated and its inputs are
    as before. *)
Theorem get_requests_errors (gen : request_iterator -> option exn)
  (self : BaseClient) (kwargs : dict) :
  (forall len,
      py_len (_inputs self) = Some len ->
      (dict_get "request_size" (merged_kwargs self kwargs) = None ->
       snd (_get_requests gen self kwargs) = Raise (Exn KeyError)
       /\ _inputs_length (fst (_get_requests gen self kwargs))
          = _inputs_length self)
      /\ (dict_get "request_size" (merged_kwargs self kwargs)
          = Some (PyInt 0) ->
          snd (_get_requests gen self kwargs)
          = Raise (Exn ZeroDivisionError)
          /\ _inputs_length (fst (_get_requests gen self kwargs))
             = _inputs_length self))
  /\ (py_len (_inputs self) = None ->
      snd (_get_requests gen self kwargs)
      = generated gen (requests_for self (merged_kwargs self kwargs))
      /\ _inputs_length (fst (_get_requests gen self kwargs)) = None)
  /\ args (fst (_get_requests gen self kwargs)) = merged_kwargs self kwargs
  /\ _inputs (fst (_get_requests gen self kwargs)) = _inputs self.
Proof.
  split; [| split].
  - intros len Hlen.
    unfold _get_requests, merged_kwargs, inputs. cbn [_inputs args].
    rewrite Hlen. split; intros ->; split; reflexivity.
  - intros Hlen.
    rewrite (get_requests_generated gen self kwargs None)
      by (now rewrite Hlen).
    split; reflexivity.
  - unfold _get_requests, merged_kwargs, inputs. cbn [_inputs args].
    set (kw := dict_update (dict_set "data" (_inputs self) (args self))
                 kwargs).
    destruct (py_len (_inputs self)) as [len |]; [| split; reflexivity].
    destruct (dict_get "request_size" kw) as [[] |];
      try (split; reflexivity).
    match goal with
    | |- context [?n =? 0] => destruct (n =? 0)
    end; split; reflexivity.
Qed.

Lemma get_requests_errors_witness :
  snd (_get_requests (fun _ => None) client2 []) = Raise (Exn KeyError)
  /\ snd (_get_requests (fun _ => None) client2
            [("request_size"%string, PyInt 0)])
     = Raise (Exn ZeroDivisionError)
  /\ dict_get "data" (args (fst (_get_requests (fun _ => None) client2 [])))
     = Some (PyList ["a"; "b"]%string).
Proof.
  split; [| split].
  - exact (proj1 (proj1 (proj1 (get_requests_errors (fun _ => None)
                                  client2 []) 2 eq_refl) eq_refl)).
  - exact (proj1 (proj2 (proj1 (get_requests_errors (fun _ => None) client2
                                  [("request_size"%string, PyInt 0)])
                           2 eq_refl) eq_refl)).
  - rewrite (proj1 (proj2 (proj2 (get_requests_errors (fun _ => None)
                                    client2 [])))).
    reflexivity.
Defined.

(** X4 (the [inputs] setter): setting a callable stores the result of
    calling it, anything else is stored as it is; when the call raises, the
    exception goes on to the caller and the client is unchanged.  What the
    setter stored is what [inputs] returns and what [_get_requests] then
    passes as [data] (unless the call names a [data] of its own), and it is
    what selects the asynchronous generator. *)
Theorem inputs_setter_resolves (gen : request_iterator -> option exn)
  (self : BaseClient) (src : PyObj) (kwargs : dict) :
  (forall e, resolve src = Raise e -> set_inputs src self = (self, Raise e))
  /\ (forall v,
        resolve src = Ok v ->
        exists self1,
          set_inputs src self = (self1, Ok tt)
          /\ inputs self1 = v
          /\ args self1 = args self
          /\ (forall self2 it,
                dict_get "data" kwargs = None ->
                _get_requests gen self1 kwargs = (self2, Ok it) ->
                dict_get "data" (kwargs_of it) = Some v
                /\ is_async_iterator it = isasyncgen v)).
Proof.
  unfold resolve, set_inputs. split.
  - intros e H. destruct (callable src); [now rewrite H | discriminate].
  - intros v H.
    assert (Hs : (if callable src
                  then match call src with
                       | Ok v => ({| args := args self; _inputs := v;
                                     _inputs_length := _inputs_length self |},
                                  Ok tt)
                       | Raise e => (self, Raise e)
                       end
                  else ({| args := args self; _inputs := src;
                           _inputs_length := _inputs_length self |}, Ok tt))
                 = ({| args := args self; _inputs := v;
                       _inputs_length := _inputs_length self |}, Ok tt)).
    { destruct (callable src); [now rewrite H | now injection H as ->]. }
    rewrite Hs. eexists. split; [reflexivity |].
    split; [reflexivity |]. split; [reflexivity |].
    intros self2 it Hd Hg. apply get_requests_ok in Hg as (Hk & Ha & _).
    split; [| exact Ha].
    rewrite Hk. unfold merged_kwargs.
    now rewrite (dict_get_update_absent _ _ _ Hd), dict_get_set.
Qed.

Lemma inputs_setter_resolves_witness :
  exists self1 self2 it,
    set_inputs PyAsyncGenFunction client7 = (self1, Ok tt)
    /\ inputs self1 = PyAsyncGen
    /\ _get_requests (fun _ => None) self1 [] = (self2, Ok it)
    /\ dict_get "data" (kwargs_of it) = Some PyAsyncGen
    /\ is_async_iterator it = true.
Proof.
  destruct (proj2 (inputs_setter_resolves (fun _ => None) client7
                     PyAsyncGenFunction [])
              PyAsyncGen eq_refl) as (self1 & Hs & Hi & _ & Hg).
  injection Hs as <-.
  eexists. eexists. eexists. split; [reflexivity |].
  split; [exact Hi |]. split; [reflexivity |].
  exact (Hg _ _ eq_refl eq_refl).
Defined.

(** X5 (effects of [check_input]): the check calls the source once when it
    is callable and never otherwise; it pulls at most one request; it logs
    an error only when it has pulled a request and raises [BadClientInput]
    from an exception that derives from [Exception]; a check that returns
    has logged nothing. *)
Theorem check_input_effects (fr : dict -> result PyObj) (inputs : PyObj)
  (kwargs : dict) :
  calls (check_input fr inputs kwargs)
  = (if callable inputs then [Called] else [])
  /\ (List.length (pulls (check_input fr inputs kwargs)) <= 1)%nat
  /\ (logged (check_input fr inputs kwargs) <> [] ->
      List.length (pulls (check_input fr inputs kwargs)) = 1%nat
      /\ exists ex,
          snd (check_input fr inputs kwargs)
          = Raise (ExnFrom BadClientInput ex)
          /\ is_Exception ex = true)
  /\ (snd (check_input fr inputs kwargs) = Ok tt ->
      logged (check_input fr inputs kwargs) = []).
Proof.
  destruct (Client_spec.resolve inputs) as [o | e] eqn:Hr.
  2:{ rewrite (check_input_resolve_raises fr inputs kwargs e Hr).
      unfold Client_spec.resolve in Hr.
      destruct (callable inputs); [| discriminate].
      cbn. repeat split; try lia; try congruence; discriminate. }
  destruct inputs as [| | | | | | | out | |] eqn:Ei;
    try (cbn; repeat split; try lia; try congruence; discriminate).
  all: rewrite <- Ei in *;
    assert (Hn : inputs <> PyNone) by (rewrite Ei; discriminate);
    rewrite (check_input_after_resolve fr inputs kwargs o Hn Hr);
    unfold calls, pulls, logged, check_resolved, try_except_Exception, mbind,
      emit, raise, ret; cbv beta;
    rewrite Ei; cbn [callable];
    destruct (is_async o);
      [ cbn; repeat split; try lia; try congruence; discriminate |];
    destruct (fr (check_kwargs o kwargs)) as [r | ex];
      [ destruct (is_Request r); cbn;
          repeat split; try lia; try congruence; try discriminate;
          eexists; split; reflexivity
      | destruct (is_Exception ex) eqn:Ee; cbn; rewrite ?Ee; cbn;
          repeat split; try lia; try congruence; try discriminate;
          eexists; split; [reflexivity | assumption] ].
Qed.

(** X6 (keyword arguments of the check): what [check_input] hands to the
    request generator has [exec_endpoint] set to ["/"] and [data] set to the
    resolved source, whatever the caller passed under these names; every
    other keyword argument of the caller is passed on as it is. *)
Theorem check_input_kwargs (fr : dict -> result PyObj) (inputs o : PyObj)
  (kwargs : dict) :
  inputs <> PyNone -> Client_spec.resolve inputs = Ok o ->
  is_async o = false ->
  exists kw,
    pulls (check_input fr inputs kwargs) = [Pulled kw]
    /\ forall k,
        dict_get k kw
        = if String.eqb k "exec_endpoint" then Some (PyStr "/")
          else if String.eqb k "data" then Some o
          else dict_get k kwargs.
Proof.
  intros Hn Hr Ha. exists (check_kwargs o kwargs). split.
  - rewrite (check_input_after_resolve fr inputs kwargs o Hn Hr).
    unfold pulls, check_resolved, try_except_Exception, mbind, emit, raise,
      ret.
    cbv beta. rewrite Ha.
    destruct (fr (check_kwargs o kwargs)) as [r | e].
    + destruct (is_Request r); cbn; destruct (callable inputs); reflexivity.
    + destruct (is_Exception e) eqn:Ee; cbn; rewrite ?Ee; cbn;
        destruct (callable inputs); reflexivity.
  - intros k. unfold check_kwargs. now rewrite !dict_get_set.
Qed.

Lemma check_input_kwargs_witness :
  exists kw,
    pulls (check_input (fun _ => Ok (PyRequest 0))
             (PyFunction (Returns (PyList ["a"]%string)))
             [("data"%string, PyInt 1); ("request_size"%string, PyInt 3)])
    = [Pulled kw]
    /\ dict_get "data" kw = Some (PyList ["a"]%string)
    /\ dict_get "exec_endpoint" kw = Some (PyStr "/")
    /\ dict_get "request_size" kw = Some (PyInt 3).
Proof.
  destruct (check_input_kwargs (fun _ => Ok (PyRequest 0))
              (PyFunction (Returns (PyList ["a"]%string)))
              (PyList ["a"]%string)
              [("data"%string, PyInt 1); ("request_size"%string, PyInt 3)]
              ltac:(discriminate) eq_refl eq_refl) as (kw & Hp & Hk).
  exists kw. split; [exact Hp |].
  split; [exact (Hk "data"%string) |].
  split; [exact (Hk "exec_endpoint"%string) |].
  exact (Hk "request_size"%string).
Defined.
End Client_more.

(** ** The codec: what the setter leaves and what the getter makes of it *)

Module Codec_messages.
Import jina_pb2 DenseNdArray Codec_spec Message_spec np_facts Codec_facts
  Uint8_facts.

Section Codec.
Context {platform : np.Platform}.

Lemma is_float_beq (dt : np.DType) :
  np.DType_beq dt np.float32 || np.DType_beq dt np.float64
  || np.DType_beq dt np.float16 = np.is_float dt.
Proof. destruct dt; reflexivity. Qed.

(** The five ways through the setter. *)
Lemma set_value_cases (mode : option string) (x : np.ndarray) :
  (mode = Some "fp32"%string /\ np.dtype x = np.float64
   /\ forall blob,
       set_value mode blob x
       = (store_array (np.astype x np.float32)
            (set_original_dtype (np.name (np.dtype x))
               (set_quantization FP32 blob)), Ok tt))
  \/ (mode = Some "fp16"%string
      /\ (np.dtype x = np.float32 \/ np.dtype x = np.float64)
      /\ forall blob,
          set_value mode blob x
          = (store_array (np.astype x np.float16)
               (set_original_dtype (np.name (np.dtype x))
                  (set_quantization FP16 blob)), Ok tt))
  \/ (mode = Some "uint8"%string /\ np.is_float (np.dtype x) = true
      /\ np.items x <> []
      /\ exists mx mn,
          np.max x = Ok mx /\ np.min x = Ok mn
          /\ forall blob,
              set_value mode blob x
              = (let hi := np.to_double mx in
                 let lo := np.to_double mn in
                 let sc := py_div_int (py_sub hi lo) 256 in
                 (store_array
                    (np.astype (np.div (np.sub x lo) sc) np.uint8)
                    (set_scale sc
                       (set_original_dtype (np.name (np.dtype x))
                          (set_min_val lo
                             (set_max_val hi
                                (set_quantization UINT8 blob))))),
                  Ok tt)))
  \/ (mode = Some "uint8"%string /\ np.is_float (np.dtype x) = true
      /\ np.items x = []
      /\ forall blob,
          set_value mode blob x
          = (set_quantization UINT8 blob, Raise (Exn ValueError)))
  \/ (unsupported mode (np.dtype x) = true
      /\ forall blob,
          set_value mode blob x
          = (store_array x (set_quantization NONE blob), Ok tt)).
Proof.
  destruct (unsupported mode (np.dtype x)) eqn:Hu.
  { do 4 right. split; [reflexivity |]. intros blob.
    now apply set_value_fallback. }
  unfold unsupported in Hu. unfold set_value.
  rewrite is_float_beq.
  mode_cases mode; cbn [is_mode String.eqb Ascii.eqb Bool.eqb andb] in *.
  - apply negb_false_iff in Hu. rewrite Hu. left.
    apply DType_beq_eq in Hu. repeat split; assumption.
  - apply negb_false_iff in Hu. rewrite Hu. right; left.
    apply orb_true_iff in Hu. rewrite !DType_beq_eq in Hu.
    repeat split; assumption.
  - apply negb_false_iff in Hu. rewrite Hu.
    unfold np.max, np.min, np.reduce.
    destruct (np.items x) as [| v vs] eqn:Ei.
    + do 3 right; left. repeat split; assumption.
    + do 2 right; left. repeat split; try assumption; [discriminate |].
      eexists. eexists. split; [reflexivity |]. split; reflexivity.
  - discriminate.
Qed.

(** Decoding a message in [FP16] mode whose buffer holds a float16 array
    with at least one element. *)
Lemma get_value_fp16 (blob : DenseNdArrayProto) (h : np.ndarray)
  (dt : np.DType) :
  np.wf h -> np.size h <> 0%nat -> np.dtype h = np.float16 ->
  buffer blob = np.data h -> dtype blob = np.str np.float16 ->
  shape blob = np.shape h -> quantization blob = FP16 ->
  original_dtype blob = np.name dt ->
  get_value blob = Ok (Some (np.astype h dt)).
Proof.
  intros Hwf Hne Hdt Hb Hd Hs Hq Ho.
  rewrite get_value_nonempty
    by (rewrite Hb; now apply wf_data_nonempty).
  rewrite Hb, Hd, Hs, Hq, Ho.
  unfold np.frombuffer. rewrite dtype_of_string_str.
  assert (Hmod : (length (np.data h) mod np.itemsize np.float16 = 0)%nat).
  { rewrite Hwf, Hdt, Nat.mul_comm. apply Nat.Div0.mod_mul. }
  rewrite Hmod. cbn [Nat.eqb bind].
  unfold np.astype_str. rewrite dtype_of_string_name. cbn [bind].
  unfold np.reshape, np.size, np.astype at 1, np.of_items.
  cbn [np.shape np.dtype np.data np.prod fold_right].
  pose proof (wf_count h Hwf) as Hc. rewrite Hdt in Hc.
  rewrite Hc, Nat.mul_1_r. fold (np.size h). rewrite Nat.eqb_refl.
  cbn [bind].
  assert (Hi : np.items {| np.dtype := np.float16; np.shape := [np.size h];
                           np.data := np.data h |} = np.items h)
    by (apply items_same; [now rewrite Hdt | reflexivity]).
  unfold np.astype, np.of_items. cbn [np.shape np.dtype np.data].
  now rewrite Hi.
Qed.

Lemma items_nil_size (x : np.ndarray) :
  np.wf x -> (np.items x = [] <-> np.size x = 0%nat).
Proof.
  intros Hwf. rewrite <- (length_items_wf x Hwf).
  split; [now intros -> | apply length_zero_iff_nil].
Qed.

(** X7 (the only failure of the setter): storing a well-formed array
    either succeeds or raises [ValueError]; it raises exactly when [uint8]
    is requested for a float array without elements (the maximum of an
    empty array), and then the message is left with [quantization] set to
    [UINT8] and every other field as it was. *)
Theorem set_value_raises (mode : option string) (blob : DenseNdArrayProto)
  (x : np.ndarray) :
  np.wf x ->
  (snd (set_value mode blob x) = Ok tt
   \/ snd (set_value mode blob x) = Raise (Exn ValueError))
  /\ (snd (set_value mode blob x) = Raise (Exn ValueError) <->
      mode = Some "uint8"%string /\ np.is_float (np.dtype x) = true
      /\ np.size x = 0%nat)
  /\ (snd (set_value mode blob x) = Raise (Exn ValueError) ->
      fst (set_value mode blob x) = set_quantization UINT8 blob).
Proof.
  intros Hwf. pose proof (items_nil_size x Hwf) as Hnil.
  destruct (set_value_cases mode x)
    as [(Hm & Hd & E) | [(Hm & Hd & E) | [(Hm & Hf & Hne & mx & mn & _ & _ & E)
       | [(Hm & Hf & He & E) | (Hu & E)]]]]; rewrite E; cbn [fst snd].
  - split; [now left |]. split; [| discriminate].
    split; [discriminate | intros (Hm' & _)]. congruence.
  - split; [now left |]. split; [| discriminate].
    split; [discriminate | intros (Hm' & _)]. congruence.
  - split; [now left |]. split; [| discriminate].
    split; [discriminate | intros (_ & _ & H0)]. tauto.
  - split; [now right |]. split; [| reflexivity].
    split; [intros _; tauto | reflexivity].
  - split; [now left |]. split; [| discriminate].
    split; [discriminate | intros (-> & Hf & _)].
    unfold unsupported in Hu. cbn in Hu. rewrite Hf in Hu. discriminate.
Qed.

(** X8 (the stored message is consistent): after a successful store of a
    well-formed array, [dtype] names the dtype of the buffer (float16 under
    [FP16], uint8 under [UINT8], float32 under [FP32], the array's own
    under [NONE]), [shape] is the shape of the array, and the buffer holds
    one item of that dtype for each element: 2, 1 and 4 bytes per element
    in the three quantized modes. *)
Theorem encoded_message_consistent (mode : option string)
  (blob : DenseNdArrayProto) (x : np.ndarray) :
  np.wf x -> snd (set_value mode blob x) = Ok tt ->
  let blob' := fst (set_value mode blob x) in
  let dt' := stored_dtype (quantization blob') (np.dtype x) in
  dtype blob' = np.str dt'
  /\ shape blob' = np.shape x
  /\ length (buffer blob') = (np.itemsize dt' * np.size x)%nat.
Proof.
  intros Hwf. cbv zeta.
  destruct (set_value_cases mode x)
    as [(Hm & Hd & E) | [(Hm & Hd & E) | [(Hm & Hf & Hne & mx & mn & _ & _ & E)
       | [(Hm & Hf & He & E) | (Hu & E)]]]]; rewrite E; cbn [fst snd];
    intros Hok;
    try discriminate Hok;
    cbn [buffer shape dtype quantization store_array set_dtype set_shape
           set_buffer set_quantization set_original_dtype set_scale
           set_min_val set_max_val stored_dtype];
    (split; [reflexivity |]); (split; [reflexivity |]); unfold np.tobytes.
  - exact (wf_astype x np.float32 Hwf).
  - exact (wf_astype x np.float16 Hwf).
  - exact (wf_astype _ np.uint8 (wf_arith _ _ _ (wf_arith _ _ _ Hwf))).
  - exact Hwf.
Qed.

(** X9 (what the setter wrote, the getter reads): for every requested mode
    and every well-formed array, when the store succeeds the getter does
    not raise on the message: it returns an array of the shape of the
    original with as many elements.  Its dtype is float64 for an array
    without elements, float32 under [FP32], and the dtype of the original
    otherwise. *)
Theorem decode_after_encode (mode : option string)
  (blob : DenseNdArrayProto) (x : np.ndarray) :
  np.wf x -> snd (set_value mode blob x) = Ok tt ->
  exists y,
    get_value (fst (set_value mode blob x)) = Ok (Some y)
    /\ np.shape y = np.shape x
    /\ length (np.items y) = np.size x
    /\ np.dtype y
       = decoded_dtype (quantization (fst (set_value mode blob x)))
           (np.dtype x) (np.size x).
Proof.
  intros Hwf Hok. unfold decoded_dtype.
  destruct (Nat.eqb_spec (np.size x) 0) as [H0 | Hne].
  - (* no element: the buffer is empty *)
    exists (np.zeros (np.shape x)).
    assert (Hget : forall b : DenseNdArrayProto,
               buffer b = [] -> shape b = np.shape x ->
               get_value b = Ok (Some (np.zeros (np.shape x)))).
    { intros b Hb Hs. unfold get_value. rewrite Hb, Hs.
      pose proof (prod_nil_shape x H0) as Hl. apply Nat.ltb_lt in Hl.
      now rewrite Hl. }
    assert (Hempty : forall a : np.ndarray,
               np.wf a -> np.size a = 0%nat -> np.data a = [])
      by (intros a; apply wf_empty_data).
    repeat split.
    + destruct (set_value_cases mode x)
        as [(Hm & Hd & E) | [(Hm & Hd & E) | [(Hm & Hf & Hne & _)
           | [(Hm & Hf & He & E) | (Hu & E)]]]].
      * rewrite E. apply Hget; [| reflexivity].
        apply (Hempty _ (wf_astype x np.float32 Hwf) H0).
      * rewrite E. apply Hget; [| reflexivity].
        apply (Hempty _ (wf_astype x np.float16 Hwf) H0).
      * exfalso. apply Hne. now apply items_nil_size.
      * rewrite E in Hok. discriminate Hok.
      * rewrite E. apply Hget; [| reflexivity]. now apply Hempty.
    + rewrite items_zeros, repeat_length. reflexivity.
  - destruct (set_value_cases mode x)
      as [(Hm & Hd & E) | [(Hm & Hd & E) | [(Hm & Hf & _)
         | [(Hm & Hf & He & E) | (Hu & E)]]]].
    + rewrite E. cbn [fst quantization store_array set_dtype set_shape
        set_buffer].
      exists (np.astype x np.float32). split.
      * rewrite (get_value_plain _ (np.astype x np.float32) (np.shape x));
          try reflexivity; auto using wf_astype.
      * repeat split.
        rewrite length_items_wf by now apply wf_astype. reflexivity.
    + rewrite E. cbn [fst quantization store_array set_dtype set_shape
        set_buffer set_original_dtype set_quantization].
      exists (np.astype (np.astype x np.float16) (np.dtype x)). split.
      * apply get_value_fp16; try reflexivity; auto using wf_astype.
      * repeat split.
        rewrite length_items_wf by now apply wf_astype, wf_astype.
        reflexivity.
    + destruct (uint8_round_trip_items blob x Hwf Hne Hf)
        as (blob' & mx & mn & y & Hset & _ & _ & _ & _ & _ & Hq & _
            & Hget & Hyd & Hys & Hyi).
      subst mode. rewrite Hset. cbn [fst]. exists y. rewrite Hq.
      repeat split; try assumption.
      rewrite Hyi, length_map. now apply length_items_wf.
    + rewrite E in Hok. discriminate Hok.
    + rewrite E. cbn [fst quantization store_array set_dtype set_shape
        set_buffer set_quantization].
      exists x. split.
      * rewrite (get_value_plain _ x (np.shape x)); try reflexivity; auto.
        destruct x; reflexivity.
      * repeat split. now apply length_items_wf.
Qed.

(** X10 (no stale state): whether a store succeeds, and what the getter
    then reads, does not depend on what the message held before the store,
    although the setter leaves the fields it does not use untouched. *)
Theorem decode_ignores_previous_content (mode : option string)
  (blob1 blob2 : DenseNdArrayProto) (x : np.ndarray) :
  snd (set_value mode blob1 x) = Ok tt ->
  snd (set_value mode blob2 x) = Ok tt
  /\ get_value (fst (set_value mode blob1 x))
     = get_value (fst (set_value mode blob2 x)).
Proof.
  destruct (set_value_cases mode x)
    as [(Hm & Hd & E) | [(Hm & Hd & E) | [(Hm & Hf & Hne & mx & mn & _ & _ & E)
       | [(Hm & Hf & He & E) | (Hu & E)]]]]; rewrite !E; cbv zeta;
    cbn [fst snd]; intros Hok; try discriminate Hok;
    (split; [reflexivity |]); unfold get_value;
    cbn [buffer shape dtype quantization original_dtype scale min_val
           store_array set_dtype set_shape set_buffer set_quantization
           set_original_dtype set_scale set_min_val set_max_val];
    reflexivity.
Qed.

(** X11 (FP32 is one way): with [fp32] requested, a float64 array with at
    least one element is stored as float32 and [original_dtype] records
    ["float64"], but the getter does not convert back: it returns the array
    cast to float32, of dtype float32. *)
Theorem fp32_one_way (blob : DenseNdArrayProto) (x : np.ndarray) :
  np.wf x -> np.size x <> 0%nat -> np.dtype x = np.float64 ->
  snd (set_value (Some "fp32"%string) blob x) = Ok tt
  /\ original_dtype (fst (set_value (Some "fp32"%string) blob x))
     = "float64"%string
  /\ get_value (fst (set_value (Some "fp32"%string) blob x))
     = Ok (Some (np.astype x np.float32))
  /\ np.dtype (np.astype x np.float32) = np.float32
  /\ np.items (np.astype x np.float32)
     = map (fun v => stored np.float32 (np.cast np.float32 v)) (np.items x).
Proof.
  intros Hwf Hne Hdt.
  assert (Hset : set_value (Some "fp32"%string) blob x
                 = (store_array (np.astype x np.float32)
                      (set_original_dtype "float64"
                         (set_quantization FP32 blob)), Ok tt))
    by (unfold set_value; rewrite Hdt; reflexivity).
  rewrite Hset. cbn [fst snd]. split; [reflexivity |].
  split; [reflexivity |]. split; [| split; [reflexivity | apply items_astype]].
  rewrite (get_value_plain _ (np.astype x np.float32) (np.shape x));
    try reflexivity; auto using wf_astype.
Qed.

(** X12 (buffer and shape that do not fit): for a message with a buffer
    that is not empty and with dtypes as the setter writes them, the getter
    returns an array of the declared shape when the length of the buffer is
    a multiple of the item size and the product of the shape is the number
    of items, and raises [ValueError] in every other case. *)
Theorem decode_size_mismatch (blob : DenseNdArrayProto) (dt od : np.DType) :
  buffer blob <> [] -> dtype blob = np.str dt ->
  (reads_original (quantization blob) = true ->
   original_dtype blob = np.name od) ->
  ((length (buffer blob) mod np.itemsize dt = 0)%nat
   /\ np.prod (shape blob) = (length (buffer blob) / np.itemsize dt)%nat ->
   exists y, get_value blob = Ok (Some y) /\ np.shape y = shape blob)
  /\ (~ ((length (buffer blob) mod np.itemsize dt = 0)%nat
         /\ np.prod (shape blob)
            = (length (buffer blob) / np.itemsize dt)%nat) ->
      get_value blob = Raise (Exn ValueError)).
Proof.
  intros Hb Hd Ho. rewrite (get_value_nonempty blob Hb), Hd.
  unfold np.frombuffer. rewrite dtype_of_string_str.
  destruct (Nat.eqb_spec (length (buffer blob) mod np.itemsize dt) 0)
    as [Hm | Hm]; cbn [bind]; [| split; [tauto | reflexivity]].
  set (B := {| np.dtype := dt;
               np.shape := [(length (buffer blob) / np.itemsize dt)%nat];
               np.data := buffer blob |}).
  assert (HB : np.size B = (length (buffer blob) / np.itemsize dt)%nat)
    by (unfold np.size; cbn; lia).
  assert (Hplain : forall X : np.ndarray,
             np.size X = np.size B ->
             (np.prod (shape blob)
              = (length (buffer blob) / np.itemsize dt)%nat ->
              exists y, (r <- np.reshape X (shape blob) ;; Ok (Some r))
                        = Ok (Some y) /\ np.shape y = shape blob)
             /\ (np.prod (shape blob)
                 <> (length (buffer blob) / np.itemsize dt)%nat ->
                 (r <- np.reshape X (shape blob) ;; Ok (Some r))
                 = Raise (Exn ValueError))).
  { intros X HX. unfold np.reshape. rewrite HX, HB.
    destruct (Nat.eqb_spec (np.prod (shape blob))
                (length (buffer blob) / np.itemsize dt)) as [Hp | Hp];
      cbn [bind].
    - split; [intros _; eexists; split; reflexivity | tauto].
    - split; [tauto | reflexivity]. }
  unfold np.astype_str.
  destruct (quantization blob) eqn:Hq; cbn [reads_original] in Ho;
    try rewrite (Ho eq_refl), dtype_of_string_name; cbn [bind].
  - destruct (Hplain B eq_refl) as (H1 & H2). split; [tauto |].
    intros H. apply H2. tauto.
  - destruct (Hplain (np.astype B od) eq_refl) as (H1 & H2).
    split; [tauto |]. intros H. apply H2. tauto.
  - destruct (Hplain (np.add (np.mul (np.astype B od) (scale blob))
                        (min_val blob)) eq_refl) as (H1 & H2).
    split; [tauto |]. intros H. apply H2. tauto.
  - destruct (Hplain B eq_refl) as (H1 & H2). split; [tauto |].
    intros H. apply H2. tauto.
Qed.
End Codec.

Lemma set_value_raises_witness :
  np.wf empty32
  /\ snd (set_value (platform := np.x86_64) (Some "uint8"%string) empty
            empty32) = Raise (Exn ValueError)
  /\ fst (set_value (platform := np.x86_64) (Some "uint8"%string) empty
            empty32) = set_quantization UINT8 empty.
Proof.
  assert (Hwf : np.wf empty32) by reflexivity.
  destruct (set_value_raises (platform := np.x86_64) (Some "uint8"%string)
              empty empty32 Hwf) as (_ & Hiff & Hfst).
  assert (Hr := proj2 Hiff (conj eq_refl (conj eq_refl eq_refl))).
  split; [exact Hwf |]. split; [exact Hr | exact (Hfst Hr)].
Defined.

Lemma encoded_message_consistent_witness :
  np.wf ones1
  /\ dtype (fst (set_value (platform := np.x86_64) (Some "fp16"%string)
                   empty ones1)) = "<f2"%string
  /\ length (buffer (fst (set_value (platform := np.x86_64)
                            (Some "fp16"%string) empty ones1))) = 2%nat.
Proof.
  assert (Hwf : np.wf ones1) by reflexivity.
  destruct (encoded_message_consistent (platform := np.x86_64)
              (Some "fp16"%string) empty ones1 Hwf eq_refl)
    as (Hd & _ & Hl).
  split; [exact Hwf |]. split; [exact Hd | exact Hl].
Defined.

Lemma decode_after_encode_witness :
  np.wf ones1
  /\ exists y,
      get_value (platform := np.x86_64)
        (fst (set_value (platform := np.x86_64)
                (Some "fp16"%string) empty ones1)) = Ok (Some y)
      /\ np.shape y = [1%nat] /\ np.dtype y = np.float64.
Proof.
  assert (Hwf : np.wf ones1) by reflexivity.
  destruct (decode_after_encode (platform := np.x86_64)
              (Some "fp16"%string) empty ones1 Hwf eq_refl)
    as (y & Hg & Hs & _ & Hd).
  split; [exact Hwf |]. exists y.
  split; [exact Hg |]. split; [exact Hs | exact Hd].
Defined.

Lemma decode_ignores_previous_content_witness :
  snd (set_value (platform := np.x86_64) None declared34 ints12) = Ok tt
  /\ get_value (platform := np.x86_64)
       (fst (set_value (platform := np.x86_64) None empty ints12))
     = get_value (platform := np.x86_64)
         (fst (set_value (platform := np.x86_64) None declared34 ints12)).
Proof.
  exact (decode_ignores_previous_content (platform := np.x86_64) None empty
           declared34 ints12 eq_refl).
Defined.

Lemma fp32_one_way_witness :
  np.wf ones1
  /\ get_value (platform := np.x86_64)
       (fst (set_value (platform := np.x86_64) (Some "fp32"%string)
               empty ones1))
     = Ok (Some (np.astype (platform := np.x86_64) ones1 np.float32))
  /\ np.dtype (np.astype (platform := np.x86_64) ones1 np.float32)
     = np.float32.
Proof.
  assert (Hwf : np.wf ones1) by reflexivity.
  destruct (fp32_one_way (platform := np.x86_64) empty ones1 Hwf
              ltac:(discriminate) eq_refl) as (_ & _ & Hg & Hd & _).
  split; [exact Hwf |]. split; [exact Hg | exact Hd].
Defined.

Lemma decode_size_mismatch_witness :
  get_value (platform := np.x86_64) truncated = Raise (Exn ValueError).
Proof.
  apply (proj2 (decode_size_mismatch (platform := np.x86_64) truncated
                  np.float32 np.float32 ltac:(discriminate) eq_refl
                  ltac:(discriminate))).
  intros [H _]. discriminate H.
Defined.
End Codec_messages.

(** ** The FP16 mode: a second round trip loses nothing *)

Module Fp16_facts.
Import jina_pb2 DenseNdArray Codec_spec Message_spec np_facts Codec_facts
  Uint8_facts IEEE_facts Float_arrays Codec_messages.

(** A float of a narrow format, widened and narrowed back, is itself; the
    widened float is a float of the wide format. *)
Lemma widen_narrow (p e P E : Z) (f : spec_float) :
  p < P -> e <= E -> e + p <= E + 1 ->
  valid_binary p e f = true ->
  valid_binary P E (IEEE.of_float P E f) = true
  /\ IEEE.of_float p e (IEEE.of_float P E f) = f.
Proof.
  intros HP HE HEp Hv.
  destruct f as [s | s | | s m x]; try (split; reflexivity).
  cbn [valid_binary] in Hv. cbn [IEEE.of_float].
  pose proof Hv as Hv'. apply bounded_spec in Hv' as [Hc Hx].
  pose proof (Pos2Z.is_pos (digits2_pos m)) as Hd.
  set (d := Zpos (digits2_pos m)) in *.
  assert (Hlo : emin p e <= x) by lia.
  assert (Hdp : d <= p \/ x = emin p e) by lia.
  assert (Hk : Zpos (Z.to_pos (P - d)) = P - d).
  { apply Z2Pos.id. unfold emin in *. lia. }
  rewrite (binary_round_widen P E s m x);
    [| fold d; unfold emin in *; lia ..].
  fold d. split.
  - cbn [valid_binary]. apply bounded_spec.
    rewrite digits_iter_xO, Pos2Z.inj_add. fold d. rewrite Hk.
    unfold emin in *. split; lia.
  - cbn [IEEE.of_float]. now apply binary_round_shifted.
Qed.

Section Elements.
Context {platform : np.Platform}.

(** An element of a float16 array, cast to float32 or float64 and back to
    float16, goes through memory unchanged. *)
Lemma fp16_element (dt : np.DType) (v : np.scalar) :
  dt = np.float32 \/ dt = np.float64 ->
  float_of np.float16 v ->
  stored np.float16 (np.cast np.float16 (stored dt (np.cast dt v))) = v.
Proof.
  intros Hdt Hv. unfold float_of in Hv. cbn [np.kind] in Hv.
  destruct v as [f | ?]; [| contradiction].
  assert (H : exists P E, np.kind dt = np.Float P E
                          /\ 11 < P /\ 16 <= E /\ 16 + 11 <= E + 1).
  { destruct Hdt as [-> | ->]; [exists 24, 128 | exists 53, 1024];
      repeat split; lia. }
  destruct H as (P & E & Hk & HP & HE & HEp).
  destruct (widen_narrow 11 16 P E f HP HE HEp Hv) as [Hw Hn].
  unfold np.cast at 2. rewrite Hk.
  rewrite (stored_float dt) by (unfold float_of; now rewrite Hk).
  unfold np.cast. cbn [np.kind]. rewrite Hn.
  apply stored_float. exact Hv.
Qed.

(** Casting to float16 and back is idempotent on arrays. *)
Lemma fp16_astype_idempotent (x : np.ndarray) (dt : np.DType) :
  dt = np.float32 \/ dt = np.float64 ->
  let y := np.astype (np.astype x np.float16) dt in
  np.astype (np.astype y np.float16) dt = y.
Proof.
  intros Hdt y. set (h := np.astype x np.float16).
  assert (Hi : np.items (np.astype y np.float16) = np.items h).
  { rewrite items_astype. unfold y. rewrite items_astype, map_map.
    transitivity (map (fun v => v) (np.items h)); [| apply map_id].
    apply map_ext_in. intros v Hin. apply fp16_element; [exact Hdt |].
    now apply (items_float h v eq_refl). }
  unfold np.astype at 1. rewrite Hi. reflexivity.
Qed.

(** X13 (FP16 is idempotent): what the getter reads after a store in [fp16]
    mode of a float32 or float64 array is stored and read back unchanged by
    a second round trip in [fp16] mode: all the loss is in the first
    conversion to float16. *)
Theorem fp16_idempotent (blob blob2 : DenseNdArrayProto) (x : np.ndarray) :
  np.wf x -> np.size x <> 0%nat ->
  np.dtype x = np.float32 \/ np.dtype x = np.float64 ->
  exists y,
    get_value (fst (set_value (Some "fp16"%string) blob x)) = Ok (Some y)
    /\ snd (set_value (Some "fp16"%string) blob2 y) = Ok tt
    /\ get_value (fst (set_value (Some "fp16"%string) blob2 y))
       = Ok (Some y).
Proof.
  intros Hwf Hne Hdt.
  assert (Htrip : forall (b : DenseNdArrayProto) (a : np.ndarray),
             np.wf a -> np.size a <> 0%nat ->
             np.dtype a = np.float32 \/ np.dtype a = np.float64 ->
             snd (set_value (Some "fp16"%string) b a) = Ok tt
             /\ get_value (fst (set_value (Some "fp16"%string) b a))
                = Ok (Some (np.astype (np.astype a np.float16)
                              (np.dtype a)))).
  { intros b a Ha Hn Hd.
    assert (Hset : set_value (Some "fp16"%string) b a
                   = (store_array (np.astype a np.float16)
                        (set_original_dtype (np.name (np.dtype a))
                           (set_quantization FP16 b)), Ok tt))
      by (unfold set_value; destruct Hd as [-> | ->]; reflexivity).
    rewrite Hset. cbn [fst snd]. split; [reflexivity |].
    apply get_value_fp16; try reflexivity; auto using wf_astype. }
  set (y := np.astype (np.astype x np.float16) (np.dtype x)).
  exists y. destruct (Htrip blob x Hwf Hne Hdt) as [_ H1].
  split; [exact H1 |].
  assert (Hy : np.wf y) by (apply wf_astype, wf_astype, Hwf).
  destruct (Htrip blob2 y Hy Hne Hdt) as [H2 H3].
  split; [exact H2 |]. rewrite H3.
  change (np.dtype y) with (np.dtype x).
  pose proof (fp16_astype_idempotent x (np.dtype x) Hdt) as Hid.
  cbv zeta in Hid. fold y in Hid. now rewrite Hid.
Qed.
End Elements.

Lemma fp16_idempotent_witness :
  np.wf ones1
  /\ exists y,
      get_value (platform := np.x86_64)
        (fst (set_value (platform := np.x86_64) (Some "fp16"%string) empty
                ones1)) = Ok (Some y)
      /\ get_value (platform := np.x86_64)
           (fst (set_value (platform := np.x86_64) (Some "fp16"%string)
                   empty y)) = Ok (Some y).
Proof.
  assert (Hwf : np.wf ones1) by reflexivity.
  destruct (fp16_idempotent (platform := np.x86_64) empty empty ones1 Hwf
              ltac:(discriminate) (or_intror eq_refl))
    as (y & H1 & _ & H2).
  split; [exact Hwf |]. exists y. split; [exact H1 | exact H2].
Defined.
End Fp16_facts.

(** ** The UINT8 mode: the maximum *)

Module Uint8_maximum.
Import jina_pb2 DenseNdArray Codec_spec Message_spec np_facts Codec_facts
  Uint8_facts Uint8_num IEEE_facts Float_arrays.
Local Open Scope Q_scope.

Section Maximum.
Context {platform : np.Platform}.




End Maximum.

#[local] Existing Instance np.x86_64.


End Uint8_maximum.

(** ** The UINT8 mode: NaN *)

Module Uint8_codes.
Import jina_pb2 DenseNdArray Codec_spec Message_spec np_facts Codec_facts
  Uint8_facts Uint8_num IEEE_facts Order_facts Min_facts Float_arrays
  Float_min.
Local Open Scope Q_scope.

Section Codes.
Context {platform : np.Platform}.

(** A NaN among the elements is the minimum. *)
Lemma fold_fmin_nan (fs : list spec_float) (f0 : spec_float) :
  f0 = S754_nan \/ In S754_nan fs -> fold_left np.fmin fs f0 = S754_nan.
Proof.
  revert f0. induction fs as [| f fs IH]; intros f0 [H | H].
  - exact H.
  - contradiction.
  - subst f0. cbn [fold_left]. apply IH. now left.
  - cbn [fold_left]. apply IH. destruct H as [-> | H]; [left | now right].
    unfold np.fmin. now destruct f0.
Qed.

Lemma min_nan (x : np.ndarray) :
  np.is_float (np.dtype x) = true -> In (np.F S754_nan) (np.items x) ->
  np.min x = Ok (np.F S754_nan).
Proof.
  intros Hf Hin.
  destruct (float_kind (np.dtype x) Hf) as (p & e & Hk & _).
  destruct (floats_of (np.dtype x) p e (np.items x) Hk
              (fun v => items_float x v Hf)) as (fs & Hfs & _).
  unfold np.min, np.reduce. rewrite Hfs in Hin |- *.
  apply in_map_iff in Hin. destruct Hin as (f & [= ->] & Hin).
  destruct fs as [| f1 fs]; [contradiction |].
  cbn [map]. rewrite fold_smin_F. f_equal. f_equal.
  apply fold_fmin_nan. destruct Hin as [-> | Hin]; [now left | now right].
Qed.

(** Whatever the code, adding a NaN minimum gives NaN. *)
Lemma dequantize_nan (dt : np.DType) (sc : spec_float) (k : np.scalar) :
  np.is_float dt = true ->
  dequantize dt S754_nan sc k = np.F S754_nan.
Proof.
  intros Hf. destruct (float_kind dt Hf) as (p & e & Hk & _).
  unfold dequantize, step_add, np.arith1. rewrite Hk.
  cbn [IEEE.of_float].
  assert (Hn : forall a, SFadd p e a S754_nan = S754_nan)
    by (intros [| | |]; reflexivity).
  rewrite Hn. apply stored_float. unfold float_of. now rewrite Hk.
Qed.

(** X18 (a NaN spoils the array): when a float array has a NaN among its
    elements, the store in [uint8] mode succeeds with [min_val] a NaN, and
    every element the getter reads back is a NaN. *)
Theorem uint8_nan_poisons (blob : DenseNdArrayProto) (x : np.ndarray) :
  np.wf x -> np.is_float (np.dtype x) = true ->
  In (np.F S754_nan) (np.items x) ->
  exists blob' y,
    set_value (Some "uint8"%string) blob x = (blob', Ok tt)
    /\ min_val blob' = S754_nan
    /\ get_value blob' = Ok (Some y)
    /\ length (np.items y) = length (np.items x)
    /\ forall w, In w (np.items y) -> w = np.F S754_nan.
Proof.
  intros Hwf Hf Hin.
  assert (Hne : np.size x <> 0%nat).
  { rewrite <- (length_items_wf x Hwf). intros H0.
    apply length_zero_iff_nil in H0. rewrite H0 in Hin. contradiction. }
  destruct (uint8_round_trip_items blob x Hwf Hne Hf)
    as (blob' & mx & mn & y & Hset & _ & Hmn & _ & Hlo & _ & _ & _
        & Hget & _ & _ & Hyi).
  rewrite (min_nan x Hf Hin) in Hmn. injection Hmn as <-.
  cbn [np.to_double IEEE.of_float] in Hlo.
  exists blob', y. split; [exact Hset |]. split; [exact Hlo |].
  split; [exact Hget |]. rewrite Hyi, Hlo. split; [apply length_map |].
  intros w Hw. apply in_map_iff in Hw. destruct Hw as (v & <- & _).
  now apply dequantize_nan.
Qed.
End Codes.

#[local] Existing Instance np.x86_64.

Lemma uint8_nan_poisons_witness :
  exists blob y,
    uint8_trip with_nan = Some (blob, y)
    /\ min_val blob = S754_nan
    /\ forall w, In w (np.items y) -> w = np.F S754_nan.
Proof.
  assert (Hwf : np.wf with_nan) by reflexivity.
  destruct (uint8_nan_poisons empty with_nan Hwf eq_refl
              ltac:(vm_compute; tauto))
    as (blob & y & Hset & Hmin & Hget & _ & Hall).
  assert (Hb : blob = fst (set_value (Some "uint8"%string) empty with_nan))
    by (now rewrite Hset).
  exists blob, y. split.
  - unfold uint8_trip. cbv zeta. now rewrite <- Hb, Hget.
  - split; assumption.
Defined.
End Uint8_codes.

(** ** The FP16 mode: large elements *)

Module Overflow_facts.
Import Codec_spec IEEE_facts Order_facts.

Lemma shr_m_shr_1 (mrs : shr_record) :
  0 <= shr_m mrs -> shr_m (shr_1 mrs) = shr_m mrs / 2.
Proof.
  destruct mrs as [m r s]. cbn [shr_m]. intros Hm.
  rewrite <- Z.div2_div.
  destruct m as [| [p | p |] | p]; try reflexivity. lia.
Qed.

Lemma shr_m_iter (k : positive) (mrs : shr_record) :
  0 <= shr_m mrs ->
  shr_m (iter_pos shr_1 k mrs) = shr_m mrs / 2 ^ Zpos k.
Proof.
  rewrite iter_pos_iter. intros Hm.
  induction k using Pos.peano_ind.
  - cbn [Pos.iter]. rewrite shr_m_shr_1 by exact Hm. reflexivity.
  - rewrite Pos.iter_succ, shr_m_shr_1.
    + rewrite IHk, Pos2Z.inj_succ, Z.pow_succ_r by lia.
      rewrite Z.div_div by lia. f_equal. lia.
    + rewrite IHk. apply Z.div_pos; lia.
Qed.

(** A shift to the right: the exponent does not go down, and a significand
    with more digits than the shift stays positive. *)
Lemma shr_positive (m : positive) (l : location) (e n : Z) :
  n <= Zpos (digits2_pos m) - 1 ->
  exists m', shr_m (fst (shr (shr_record_of_loc (Zpos m) l) e n)) = Zpos m'
             /\ snd (shr (shr_record_of_loc (Zpos m) l) e n) = e + Z.max 0 n.
Proof.
  intros Hn.
  assert (Hm : shr_m (shr_record_of_loc (Zpos m) l) = Zpos m)
    by (destruct l as [| []]; reflexivity).
  unfold shr. destruct n as [| p | p]; cbn [fst snd].
  - rewrite Hm. exists m. split; [reflexivity | lia].
  - rewrite shr_m_iter by (rewrite Hm; lia). rewrite Hm.
    pose proof (digits_bounds m) as [Hlo _].
    assert (Hp : 2 ^ Zpos p <= Zpos m).
    { apply Z.le_trans with (2 ^ (Zpos (digits2_pos m) - 1)); [| exact Hlo].
      apply Z.pow_le_mono_r; lia. }
    assert (Hq : 1 <= Zpos m / 2 ^ Zpos p).
    { apply Z.div_le_lower_bound; lia. }
    destruct (Zpos m / 2 ^ Zpos p) as [| q | q] eqn:Eq; try lia.
    exists q. split; [reflexivity | lia].
  - rewrite Hm. exists m. split; [reflexivity | lia].
Qed.

Section Format.
Variables prec emax : Z.
Hypothesis Hprec : 1 < prec.
Hypothesis Hemax : prec < emax.

Lemma round_aux_overflow (s : bool) (m : positive) (e : Z) :
  emax < Zpos (digits2_pos m) + e ->
  binary_round_aux prec emax s (Zpos m) e loc_Exact = S754_infinity s.
Proof.
  intros HD. unfold binary_round_aux, shr_fexp. cbn [Zdigits2].
  set (n1 := fexp prec emax (Zpos (digits2_pos m) + e) - e).
  assert (Hn1 : n1 = Zpos (digits2_pos m) - prec).
  { unfold n1, fexp, emin. lia. }
  destruct (shr_positive m loc_Exact e n1 ltac:(lia)) as (m1 & Hm1 & He1).
  destruct (shr (shr_record_of_loc (Zpos m) loc_Exact) e n1)
    as [mrs' e'] eqn:E1.
  cbn [fst snd] in Hm1, He1.
  assert (He' : emax - prec < e') by lia.
  assert (Hr : exists m2,
             round_nearest_even (shr_m mrs') (loc_of_shr_record mrs')
             = Zpos m2).
  { rewrite Hm1. unfold round_nearest_even.
    destruct (loc_of_shr_record mrs') as [| []]; eauto.
    - destruct (Z.even (Zpos m1)); eauto.
      exists (m1 + 1)%positive. lia.
    - exists (m1 + 1)%positive. lia. }
  destruct Hr as (m2 & ->). cbn [Zdigits2].
  set (n2 := fexp prec emax (Zpos (digits2_pos m2) + e') - e').
  assert (Hn2 : n2 <= Zpos (digits2_pos m2) - 1).
  { unfold n2, fexp, emin. lia. }
  destruct (shr_positive m2 loc_Exact e' n2 Hn2) as (m3 & Hm3 & He3).
  destruct (shr (shr_record_of_loc (Zpos m2) loc_Exact) e' n2)
    as [mrs'' e''] eqn:E2.
  cbn [fst snd] in Hm3, He3. rewrite Hm3.
  destruct (Z.leb_spec e'' (emax - prec)); [lia | reflexivity].
Qed.

(** Rounding a number that is at least [2 ^ emax] gives an infinity. *)
Lemma binary_round_overflow (s : bool) (m : positive) (e : Z) :
  emax < Zpos (digits2_pos m) + e ->
  binary_round prec emax s m e = S754_infinity s.
Proof.
  intros HD. unfold binary_round, shl_align.
  destruct (fexp prec emax (Zpos (digits2_pos m) + e) - e) as [| d | d] eqn:Ed;
    try (now apply round_aux_overflow).
  apply round_aux_overflow.
  rewrite digits_iter_xO, Pos2Z.inj_add. lia.
Qed.
End Format.

Local Open Scope Q_scope.

(** A positive float that denotes at least [2 ^ n] has more than [n]
    binary digits before the point. *)
Lemma digits_of_large (m : positive) (e n : Z) :
  2 ^ n <= IEEE.value (S754_finite false m e) ->
  (n < Zpos (digits2_pos m) + e)%Z.
Proof.
  intros H. rewrite value_pos in H.
  destruct (Z.lt_ge_cases n (Zpos (digits2_pos m) + e)) as [Hlt | Hge];
    [exact Hlt | exfalso].
  pose proof (digits_bounds m) as [_ Hhi].
  assert (H1 : inject_Z (Zpos m) < 2 ^ Zpos (digits2_pos m)).
  { rewrite <- (Zpower_Qpower 2 (Zpos (digits2_pos m))) by lia.
    now rewrite <- Zlt_Qlt. }
  assert (H2 : inject_Z (Zpos m) * 2 ^ e
               < 2 ^ Zpos (digits2_pos m) * 2 ^ e).
  { apply Qmult_lt_compat_r; [apply pow2_pos | exact H1]. }
  rewrite <- (Qpower_plus 2) in H2 by (intros E; discriminate E).
  assert (H3 : 2 ^ (Zpos (digits2_pos m) + e) <= 2 ^ n).
  { apply Qpower_le_compat_l; [exact Hge | discriminate]. }
  lra.
Qed.
End Overflow_facts.

Module Fp16_range.
Import jina_pb2 DenseNdArray Codec_spec Message_spec np_facts Codec_facts
  Uint8_facts IEEE_facts Float_arrays Codec_messages Overflow_facts.
Local Open Scope Q_scope.

Section Elements.
Context {platform : np.Platform}.

(** An element of magnitude at least 65536 is an infinity after the cast
    to float16, and stays one. *)
Lemma fp16_overflow_element (dt : np.DType) (s : bool) (m : positive)
  (e : Z) :
  dt = np.float32 \/ dt = np.float64 ->
  65536 <= IEEE.value (S754_finite false m e) ->
  stored dt
    (np.cast dt
       (stored np.float16 (np.cast np.float16 (np.F (S754_finite s m e)))))
  = np.F (S754_infinity s).
Proof.
  intros Hdt Hv.
  assert (HD : (16 < Zpos (digits2_pos m) + e)%Z)
    by (apply digits_of_large; exact Hv).
  unfold np.cast at 2. cbn [np.kind IEEE.of_float].
  rewrite (binary_round_overflow 11 16 ltac:(lia) ltac:(lia) s m e HD).
  rewrite (stored_float np.float16) by reflexivity.
  destruct Hdt as [-> | ->]; unfold np.cast; cbn [np.kind IEEE.of_float];
    now apply stored_float.
Qed.

(** X19 (FP16 overflows): in [fp16] mode every finite element of a float32
    or float64 array whose magnitude is at least 65536 is read back as the
    infinity of its sign: the mode is not lossless. *)
Theorem fp16_overflow (blob : DenseNdArrayProto) (x : np.ndarray) :
  np.wf x -> np.size x <> 0%nat ->
  np.dtype x = np.float32 \/ np.dtype x = np.float64 ->
  exists y,
    get_value (fst (set_value (Some "fp16"%string) blob x)) = Ok (Some y)
    /\ np.dtype y = np.dtype x
    /\ forall i s m e,
        nth_error (np.items x) i = Some (np.F (S754_finite s m e)) ->
        65536 <= IEEE.value (S754_finite false m e) ->
        nth_error (np.items y) i = Some (np.F (S754_infinity s)).
Proof.
  intros Hwf Hne Hdt.
  exists (np.astype (np.astype x np.float16) (np.dtype x)).
  split; [| split; [reflexivity |]].
  - assert (Hset : set_value (Some "fp16"%string) blob x
                   = (store_array (np.astype x np.float16)
                        (set_original_dtype (np.name (np.dtype x))
                           (set_quantization FP16 blob)), Ok tt))
      by (unfold set_value; destruct Hdt as [-> | ->]; reflexivity).
    rewrite Hset. cbn [fst].
    apply get_value_fp16; try reflexivity; auto using wf_astype.
  - intros i s m e Hi Hv.
    rewrite !items_astype, map_map, nth_error_map, Hi. cbn [option_map].
    f_equal. now apply fp16_overflow_element.
Qed.
End Elements.

Lemma fp16_overflow_witness :
  np.wf large
  /\ exists y,
      get_value (platform := np.x86_64)
        (fst (set_value (platform := np.x86_64) (Some "fp16"%string) empty
                large)) = Ok (Some y)
      /\ nth_error (np.items y) 0 = Some (np.F (S754_infinity false)).
Proof.
  assert (Hwf : np.wf large) by reflexivity.
  destruct (fp16_overflow (platform := np.x86_64) empty large Hwf
              ltac:(discriminate) (or_intror eq_refl)) as (y & Hg & _ & H).
  split; [exact Hwf |]. exists y. split; [exact Hg |].
  eapply H; [vm_compute; reflexivity | vm_compute; discriminate].
Defined.
End Fp16_range.

(** ** Rounding: every operation is near the exact result *)

(** *** Shifting and rounding a significand *)

Module Round_facts.
Import Codec_spec IEEE_facts Overflow_facts.

Lemma Zdigits2_nonneg (m : Z) : 0 <= Zdigits2 m.
Proof. destruct m; cbn; lia. Qed.

Lemma Zdigits2_bounds (m : Z) :
  0 < m -> 2 ^ (Zdigits2 m - 1) <= m < 2 ^ Zdigits2 m.
Proof.
  destruct m as [| p | p]; try lia. intros _. apply digits_bounds.
Qed.

Lemma Zdigits2_unique (m n : Z) :
  2 ^ (n - 1) <= m < 2 ^ n -> 0 < m -> Zdigits2 m = n.
Proof.
  destruct m as [| p | p]; try lia. intros H _. now apply digits_unique.
Qed.

Lemma Zdigits2_le (m n : Z) :
  0 <= m -> 0 <= n -> m < 2 ^ n -> Zdigits2 m <= n.
Proof.
  intros Hm Hn H. destruct (Z.eq_dec m 0) as [-> | Hz]; [cbn; lia |].
  pose proof (Zdigits2_bounds m ltac:(lia)) as [Hlo _].
  destruct (Z.le_gt_cases (Zdigits2 m) n) as [Hle | Hgt]; [exact Hle |].
  assert (2 ^ n <= 2 ^ (Zdigits2 m - 1)) by (apply Z.pow_le_mono_r; lia).
  lia.
Qed.

Lemma Zdigits2_ge (m n : Z) :
  0 < m -> 2 ^ (n - 1) <= m -> n <= Zdigits2 m.
Proof.
  intros Hm H. pose proof (Zdigits2_bounds m Hm) as [_ Hhi].
  pose proof (Zdigits2_nonneg m).
  destruct (Z.le_gt_cases n (Zdigits2 m)) as [Hle | Hgt]; [exact Hle |].
  assert (2 ^ Zdigits2 m <= 2 ^ (n - 1)) by (apply Z.pow_le_mono_r; lia).
  lia.
Qed.

Lemma shr_m_of_loc (m : Z) (l : location) :
  shr_m (shr_record_of_loc m l) = m.
Proof. destruct l as [| []]; reflexivity. Qed.

(** A shift to the right divides the significand. *)
Lemma shr_spec (m : Z) (l : location) (e n : Z) :
  0 <= m -> 0 <= n ->
  shr_m (fst (shr (shr_record_of_loc m l) e n)) = m / 2 ^ n
  /\ snd (shr (shr_record_of_loc m l) e n) = e + n.
Proof.
  intros Hm Hn. unfold shr. destruct n as [| p | p]; cbn [fst snd]; try lia.
  - rewrite shr_m_of_loc, Z.div_1_r. split; [reflexivity | lia].
  - rewrite shr_m_iter by (rewrite shr_m_of_loc; exact Hm).
    now rewrite shr_m_of_loc.
Qed.

Lemma shr_none (mrs : shr_record) (e n : Z) :
  n <= 0 -> shr mrs e n = (mrs, e).
Proof. destruct n; try reflexivity; lia. Qed.

Lemma round_nearest_even_cases (m : Z) (l : location) :
  round_nearest_even m l = m \/ round_nearest_even m l = m + 1.
Proof.
  destruct l as [| []]; cbn; auto. destruct (Z.even m); auto.
Qed.

Section Format.
Variables prec emax : Z.
Hypothesis Hprec : 1 < prec.
Hypothesis Hemax : prec < emax.

(** What rounding does to a significand [m] at an exponent [e] that is
    fine enough: the result is zero or a float of the format whose
    significand, at the exponent [e1] of the format, is the quotient
    of [m] or the next integer. *)
Lemma round_aux_spec (s : bool) (m e : Z) (l : location) :
  0 <= m ->
  e <= fexp prec emax (Zdigits2 m + e) ->
  fexp prec emax (Zdigits2 m + e) <= emax - prec - 1 ->
  (binary_round_aux prec emax s m e l = S754_zero s
   /\ m / 2 ^ (fexp prec emax (Zdigits2 m + e) - e) = 0)
  \/ exists mf ef,
      binary_round_aux prec emax s m e l = S754_finite s mf ef
      /\ bounded prec emax mf ef = true
      /\ fexp prec emax (Zdigits2 m + e) <= ef
      /\ (Zpos mf * 2 ^ (ef - fexp prec emax (Zdigits2 m + e))
          = m / 2 ^ (fexp prec emax (Zdigits2 m + e) - e)
          \/ Zpos mf * 2 ^ (ef - fexp prec emax (Zdigits2 m + e))
             = m / 2 ^ (fexp prec emax (Zdigits2 m + e) - e) + 1).
Proof.
  intros Hm He Hfin.
  set (e1 := fexp prec emax (Zdigits2 m + e)) in *.
  set (m1 := m / 2 ^ (e1 - e)).
  assert (Hemin : emin prec emax <= e1) by (unfold e1, fexp; lia).
  assert (Hn1 : 0 <= e1 - e) by lia.
  assert (Hp1 : 0 < 2 ^ (e1 - e)) by (apply Z.pow_pos_nonneg; lia).
  assert (Hm1 : 0 <= m1 < 2 ^ prec).
  { split; [apply Z.div_pos; lia |].
    destruct (Z.eq_dec m 0) as [-> | Hz].
    - unfold m1. rewrite Z.div_0_l by lia. apply Z.pow_pos_nonneg; lia.
    - pose proof (Zdigits2_bounds m ltac:(lia)) as [_ Hhi].
      apply Z.div_lt_upper_bound; [exact Hp1 |].
      rewrite <- Z.pow_add_r by lia.
      apply Z.lt_le_trans with (1 := Hhi).
      apply Z.pow_le_mono_r; [lia |]. unfold e1, fexp. lia. }
  assert (Hnorm : emin prec emax < e1 -> 2 ^ (prec - 1) <= m1).
  { intros Hlt.
    assert (E1 : e1 = Zdigits2 m + e - prec) by (unfold e1, fexp in *; lia).
    assert (Hz : 0 < m).
    { destruct (Z.eq_dec m 0) as [-> | Hz]; [| lia].
      cbn [Zdigits2] in E1. lia. }
    pose proof (Zdigits2_bounds m Hz) as [Hlo _].
    apply Z.div_le_lower_bound; [exact Hp1 |].
    rewrite <- Z.pow_add_r by lia.
    replace (e1 - e + (prec - 1)) with (Zdigits2 m - 1) by lia.
    exact Hlo. }
  unfold binary_round_aux, shr_fexp. fold e1.
  destruct (shr_spec m l e (e1 - e) Hm Hn1) as [Hs1 Hs2].
  destruct (shr (shr_record_of_loc m l) e (e1 - e)) as [mrs1 e'] eqn:E.
  cbn [fst snd] in Hs1, Hs2. fold m1 in Hs1.
  replace e' with e1 by lia. clear Hs2 E e'.
  set (m2 := round_nearest_even (shr_m mrs1) (loc_of_shr_record mrs1)).
  assert (Hm2 : m2 = m1 \/ m2 = m1 + 1)
    by (unfold m2; rewrite <- Hs1; apply round_nearest_even_cases).
  destruct (Z.eq_dec m2 0) as [Hz2 | Hz2].
  - (* the result is zero *)
    left. rewrite Hz2. cbn [Zdigits2].
    rewrite shr_none by (unfold fexp; lia).
    cbn. split; [reflexivity | lia].
  - right.
    assert (Hpos2 : 0 < m2) by lia.
    destruct (Z.eq_dec m2 (2 ^ prec)) as [Htop | Htop].
    + (* the significand has one digit too many *)
      assert (Hd2 : Zdigits2 m2 = prec + 1).
      { apply Zdigits2_unique; [| exact Hpos2]. rewrite Htop.
        replace (prec + 1 - 1) with prec by lia. split; [lia |].
        apply Z.pow_lt_mono_r; lia. }
      rewrite Hd2.
      replace (fexp prec emax (prec + 1 + e1) - e1) with 1
        by (unfold fexp; lia).
      destruct (shr_spec m2 loc_Exact e1 1 ltac:(lia) ltac:(lia))
        as [Ht1 Ht2].
      destruct (shr (shr_record_of_loc m2 loc_Exact) e1 1)
        as [mrs2 e''] eqn:E2.
      cbn [fst snd] in Ht1, Ht2. rewrite Ht1, Htop.
      assert (Hhalf : 2 ^ prec / 2 ^ 1 = 2 ^ (prec - 1)).
      { rewrite <- Z.pow_sub_r by lia. reflexivity. }
      rewrite Hhalf.
      assert (Hpp : 0 < 2 ^ (prec - 1)) by (apply Z.pow_pos_nonneg; lia).
      pose proof (pow2_prec prec Hprec) as Hpw.
      destruct (2 ^ (prec - 1)) as [| mf | mf] eqn:Emf; try lia.
      destruct (Z.leb_spec e'' (emax - prec)); [| lia].
      exists mf, e''. split; [reflexivity |]. split.
      { apply bounded_spec. rewrite Ht2.
        assert (Hdf : Zpos (digits2_pos mf) = prec).
        { apply digits_unique. rewrite <- Emf. split; [lia |].
          apply Z.pow_lt_mono_r; lia. }
        rewrite Hdf. unfold emin in *. split; lia. }
      split; [lia |]. right. rewrite Ht2.
      replace (e1 + 1 - e1) with 1 by lia.
      change (2 ^ 1) with 2. lia.
    + (* the significand fits *)
      assert (Hlt2 : m2 < 2 ^ prec) by lia.
      assert (Hd2 : Zdigits2 m2 <= prec)
        by (apply Zdigits2_le; lia).
      pose proof (Zdigits2_bounds m2 Hpos2) as [Hlo2 Hhi2].
      assert (Hd2' : 1 <= Zdigits2 m2).
      { destruct m2; cbn; lia. }
      assert (Hcan : fexp prec emax (Zdigits2 m2 + e1) = e1).
      { destruct (Z.eq_dec e1 (emin prec emax)) as [Ee | Ee].
        - unfold fexp. lia.
        - assert (Hge : prec <= Zdigits2 m2).
          { apply Zdigits2_ge; [exact Hpos2 |].
            specialize (Hnorm ltac:(lia)). lia. }
          unfold fexp. lia. }
      rewrite Hcan, Z.sub_diag. cbn [shr shr_record_of_loc shr_m].
      destruct m2 as [| mf | mf] eqn:Emf; try lia.
      destruct (Z.leb_spec e1 (emax - prec)); [| lia].
      exists mf, e1. split; [reflexivity |]. split.
      { apply bounded_spec. cbn [Zdigits2] in Hcan.
        unfold fexp in Hcan. split; lia. }
      split; [lia |]. rewrite Z.sub_diag, Z.mul_1_r. exact Hm2.
Qed.
End Format.
End Round_facts.

(** *** The number a rounded significand denotes *)

Module Qpow_facts.
Import Order_facts.
Local Open Scope Q_scope.

Lemma pow2_add (a b : Z) : 2 ^ (a + b) == 2 ^ a * 2 ^ b.
Proof. apply Qpower_plus. intros H. discriminate H. Qed.

Lemma pow2_inject (n : Z) : (0 <= n)%Z -> inject_Z (2 ^ n) == 2 ^ n.
Proof. intros H. now rewrite Zpower_Qpower. Qed.

Lemma pow2_le (a b : Z) : (a <= b)%Z -> 2 ^ a <= 2 ^ b.
Proof. intros H. apply Qpower_le_compat_l; [exact H | discriminate]. Qed.

Lemma pow2_sub (a b : Z) : (b <= a)%Z -> inject_Z (2 ^ (a - b)) * 2 ^ b == 2 ^ a.
Proof.
  intros H. rewrite pow2_inject by lia. rewrite <- pow2_add.
  now replace (a - b + b)%Z with a by lia.
Qed.

Lemma inject_Z_le (a b : Z) : (a <= b)%Z -> inject_Z a <= inject_Z b.
Proof. intros H. now rewrite <- Zle_Qle. Qed.

Lemma inject_Z_lt (a b : Z) : (a < b)%Z -> inject_Z a < inject_Z b.
Proof. intros H. now rewrite <- Zlt_Qlt. Qed.

(** The number [c * 2 ^ e1], seen at a finer exponent. *)
Lemma scale_mantissa (c : Z) (e e1 : Z) :
  (e <= e1)%Z -> inject_Z c * 2 ^ e1 == inject_Z (c * 2 ^ (e1 - e)) * 2 ^ e.
Proof.
  intros H. rewrite inject_Z_mult, <- Qmult_assoc, pow2_sub by lia.
  reflexivity.
Qed.
End Qpow_facts.

Module Round_value.
Import Codec_spec IEEE_facts Order_facts Overflow_facts Round_facts
  Rounding_spec Qpow_facts.
Local Open Scope Q_scope.

Section Format.
Variables prec emax : Z.
Hypothesis Hprec : (1 < prec)%Z.
Hypothesis Hemax : (prec < emax)%Z.

Lemma value_of_sign (s : bool) (m : positive) (e : Z) :
  IEEE.value (S754_finite s m e)
  == (if s then - (inject_Z (Zpos m) * 2 ^ e) else inject_Z (Zpos m) * 2 ^ e).
Proof.
  destruct s; [rewrite value_neg |]; rewrite value_pos; reflexivity.
Qed.

(** Rounding a number [z] that lies at the significand [m] of the exponent
    [e] (between [m] and [m + 1]). *)
Lemma round_aux_rounds (s : bool) (m e : Z) (l : location) (z : Q) :
  (0 <= m)%Z ->
  (e <= fexp prec emax (Zdigits2 m + e))%Z ->
  (fexp prec emax (Zdigits2 m + e) <= emax - prec - 1)%Z ->
  0 < z ->
  inject_Z m * 2 ^ e <= z -> z < inject_Z (m + 1) * 2 ^ e ->
  rounds_to prec emax (if s then - z else z)
    (binary_round_aux prec emax s m e l).
Proof.
  intros Hm He Hfin Hzpos Hlo Hhi.
  set (e1 := fexp prec emax (Zdigits2 m + e)) in *.
  set (m1 := (m / 2 ^ (e1 - e))%Z).
  assert (Hp : (0 < 2 ^ (e1 - e))%Z) by (apply Z.pow_pos_nonneg; lia).
  pose proof (Z.mul_div_le m _ Hp) as Hd1.
  pose proof (Z.mul_succ_div_gt m _ Hp) as Hd2.
  fold m1 in Hd1, Hd2.
  pose proof (pow2_pos e) as Pe. pose proof (pow2_pos e1) as Pe1.
  assert (Hz0 : 0 <= z).
  { apply Qle_trans with (2 := Hlo). apply Qmult_le_0_compat;
      [change 0 with (inject_Z 0); now apply inject_Z_le | lra]. }
  assert (B1 : inject_Z m1 * 2 ^ e1 <= z).
  { rewrite (scale_mantissa m1 e e1) by lia.
    apply Qle_trans with (2 := Hlo).
    apply Qmult_le_compat_r; [apply inject_Z_le; lia | lra]. }
  assert (B2 : z < inject_Z (m1 + 1) * 2 ^ e1).
  { rewrite (scale_mantissa (m1 + 1) e e1) by lia.
    apply Qlt_le_trans with (1 := Hhi).
    apply Qmult_le_compat_r; [apply inject_Z_le; lia | lra]. }
  rewrite inject_Z_plus in B2. change (inject_Z 1) with 1 in B2.
  assert (Hm1 : (0 <= m1)%Z) by (apply Z.div_pos; lia).
  assert (Hulp : 2 ^ e1 <= 2 ^ (1 - prec) * z + 2 ^ emin prec emax).
  { pose proof (pow2_pos (1 - prec)) as Pd.
    pose proof (pow2_pos (emin prec emax)) as Pm.
    destruct (Z.eq_dec e1 (emin prec emax)) as [-> | Ne].
    - assert (0 <= 2 ^ (1 - prec) * z) by (apply Qmult_le_0_compat; lra).
      lra.
    - assert (E1 : e1 = (Zdigits2 m + e - prec)%Z)
        by (unfold e1, fexp in *; lia).
      assert (Hz : (0 < m)%Z).
      { destruct (Z.eq_dec m 0) as [-> | Hz]; [| lia].
        unfold e1, fexp in *. cbn [Zdigits2] in *. lia. }
      pose proof (Zdigits2_bounds m Hz) as [Hdl _].
      pose proof (Zdigits2_nonneg m).
      assert (Hd1' : (1 <= Zdigits2 m)%Z) by (destruct m; cbn; lia).
      assert (Hge : 2 ^ (Zdigits2 m - 1 + e) <= z).
      { apply Qle_trans with (2 := Hlo). rewrite pow2_add.
        apply Qmult_le_compat_r; [| lra].
        rewrite <- pow2_inject by lia. now apply inject_Z_le. }
      assert (Hk : 2 ^ e1 == 2 ^ (1 - prec) * 2 ^ (Zdigits2 m - 1 + e)).
      { rewrite <- pow2_add. rewrite E1.
        now replace (1 - prec + (Zdigits2 m - 1 + e))%Z
          with (Zdigits2 m + e - prec)%Z by lia. }
      rewrite Hk.
      assert (2 ^ (1 - prec) * 2 ^ (Zdigits2 m - 1 + e)
              <= 2 ^ (1 - prec) * z).
      { rewrite !(Qmult_comm (2 ^ (1 - prec))).
        apply Qmult_le_compat_r; lra. }
      lra. }
  assert (Hfinal : forall V : Q,
             V == inject_Z m1 * 2 ^ e1 \/ V == (inject_Z m1 + 1) * 2 ^ e1 ->
             Qabs ((if s then - V else V) - (if s then - z else z))
             <= 2 ^ (1 - prec) * Qabs (if s then - z else z)
                + 2 ^ emin prec emax).
  { intros V HV.
    assert (Ha : Qabs (if s then - z else z) == z).
    { destruct s; [rewrite Qabs_opp |]; now apply Qabs_pos. }
    rewrite Ha.
    assert (Hb : Qabs (V - z) <= 2 ^ e1).
    { apply Qabs_Qle_condition. destruct HV as [-> | ->]; split; lra. }
    assert (Hc : Qabs ((if s then - V else V) - (if s then - z else z))
                 == Qabs (V - z)).
    { destruct s; [| reflexivity].
      rewrite <- (Qabs_opp (V - z)). apply Qabs_wd. ring. }
    rewrite Hc. lra. }
  destruct (round_aux_spec prec emax Hprec s m e l Hm He Hfin)
    as [[-> H0] | (mf & ef & -> & Hb & Hef & Hv)].
  - fold e1 m1 in H0. unfold rounds_to. cbn [valid_binary IEEE.is_finite
      IEEE.value].
    split; [reflexivity |]. split; [reflexivity |]. split.
    + specialize (Hfinal 0). replace (if s then - 0 else 0) with 0 in Hfinal
        by (now destruct s).
      apply Hfinal. left. rewrite H0. ring.
    + split; intros _; apply Qle_refl.
  - fold e1 m1 in Hef, Hv. unfold rounds_to. cbn [valid_binary IEEE.is_finite].
    split; [exact Hb |]. split; [reflexivity |].
    set (V := inject_Z (Zpos mf) * 2 ^ ef).
    assert (HV : V == inject_Z m1 * 2 ^ e1 \/ V == (inject_Z m1 + 1) * 2 ^ e1).
    { unfold V. rewrite (scale_mantissa (Zpos mf) e1 ef) by lia.
      destruct Hv as [-> | ->]; [left; reflexivity | right].
      rewrite inject_Z_plus. reflexivity. }
    assert (HV0 : 0 <= V).
    { unfold V. apply Qmult_le_0_compat; [| apply Qlt_le_weak, pow2_pos].
      change 0 with (inject_Z 0). apply inject_Z_le. lia. }
    rewrite value_of_sign. fold V. split; [now apply Hfinal |].
    destruct s; split; intros Hs; lra.
Qed.
End Format.
End Round_value.

(** *** Conversions *)

Module Round_ops.
Import Codec_spec IEEE_facts Order_facts Overflow_facts Round_facts
  Rounding_spec Qpow_facts Round_value.
Local Open Scope Q_scope.

Lemma pow2_lt_inv (a b : Z) : 2 ^ a < 2 ^ b -> (a < b)%Z.
Proof.
  intros H. destruct (Z_lt_le_dec a b) as [Hlt | Hge]; [exact Hlt |].
  pose proof (pow2_le b a Hge). lra.
Qed.

Lemma rounds_to_wd (prec emax : Z) (z z' : Q) (f : spec_float) :
  z == z' -> rounds_to prec emax z f -> rounds_to prec emax z' f.
Proof.
  intros E (V & F & B & P & N). unfold rounds_to.
  split; [exact V |]. split; [exact F |]. split.
  - now rewrite <- E.
  - split; intros H; [apply P | apply N]; now rewrite E.
Qed.

Lemma rounds_to_zero (prec emax : Z) (s : bool) (z : Q) :
  z == 0 -> rounds_to prec emax z (S754_zero s).
Proof.
  intros E. apply (rounds_to_wd prec emax 0 z); [now symmetry |].
  unfold rounds_to. cbn [valid_binary IEEE.is_finite IEEE.value].
  split; [reflexivity |]. split; [reflexivity |]. split.
  - setoid_replace (0 - 0) with 0 by ring. cbn [Qabs Z.abs].
    pose proof (pow2_pos (emin prec emax)).
    change (Qabs 0) with 0. lra.
  - split; intros _; apply Qle_refl.
Qed.

(** A float of the format denotes itself. *)
Lemma rounds_to_exact (prec emax : Z) (f : spec_float) (z : Q) :
  valid_binary prec emax f = true -> IEEE.is_finite f = true ->
  z == IEEE.value f -> rounds_to prec emax z f.
Proof.
  intros V F E. apply (rounds_to_wd prec emax (IEEE.value f) z);
    [now symmetry |].
  unfold rounds_to. split; [exact V |]. split; [exact F |]. split.
  - setoid_replace (IEEE.value f - IEEE.value f) with 0 by ring.
    change (Qabs 0) with 0.
    pose proof (pow2_pos (emin prec emax)).
    pose proof (pow2_pos (1 - prec)).
    pose proof (Qabs_nonneg (IEEE.value f)).
    assert (0 <= 2 ^ (1 - prec) * Qabs (IEEE.value f))
      by (apply Qmult_le_0_compat; lra).
    lra.
  - split; intros H; exact H.
Qed.

Lemma shl_align_spec (m : positive) (e e' : Z) :
  let mz := fst (shl_align m e e') in
  let ez := snd (shl_align m e e') in
  ez = Z.min e e'
  /\ Zpos mz = (Zpos m * 2 ^ (e - ez))%Z
  /\ (Zpos (digits2_pos mz) + ez = Zpos (digits2_pos m) + e)%Z.
Proof.
  unfold shl_align. destruct (e' - e)%Z as [| d | d] eqn:E; cbn [fst snd].
  - split; [lia |]. rewrite Z.sub_diag. split; lia.
  - split; [lia |]. rewrite Z.sub_diag. split; lia.
  - split; [lia |]. rewrite iter_xO_value, digits_iter_xO.
    replace (e - e')%Z with (Zpos d) by lia. split; lia.
Qed.

Lemma fexp_mono (prec emax a b : Z) :
  (a <= b)%Z -> (fexp prec emax a <= fexp prec emax b)%Z.
Proof. unfold fexp. lia. Qed.

Section Format.
Variables prec emax : Z.
Hypothesis Hprec : (1 < prec)%Z.
Hypothesis Hemax : (prec < emax)%Z.

(** Rounding a number of magnitude below [2 ^ (emax - 1)]. *)
Lemma round_aux_below (s : bool) (m e : Z) (l : location) (z : Q) :
  (0 <= m)%Z ->
  (e <= fexp prec emax (Zdigits2 m + e))%Z ->
  (m = 0%Z -> e <= emax - 1)%Z ->
  0 < z ->
  inject_Z m * 2 ^ e <= z -> z < inject_Z (m + 1) * 2 ^ e ->
  z < 2 ^ (emax - 1) ->
  rounds_to prec emax (if s then - z else z)
    (binary_round_aux prec emax s m e l).
Proof.
  intros Hm He H0 Hz Hlo Hhi Hmag.
  apply (round_aux_rounds prec emax Hprec); try assumption.
  destruct (Z.eq_dec m 0) as [-> | Hne].
  - specialize (H0 eq_refl). cbn [Zdigits2]. unfold fexp, emin. lia.
  - assert (Hpos : (0 < m)%Z) by lia.
    pose proof (Zdigits2_bounds m Hpos) as [Hd _].
    assert (H1 : 2 ^ (Zdigits2 m - 1 + e) < 2 ^ (emax - 1)).
    { apply Qle_lt_trans with (2 := Hmag). apply Qle_trans with (2 := Hlo).
      rewrite pow2_add.
      assert (Hd1 : (1 <= Zdigits2 m)%Z) by (destruct m; cbn; lia).
      apply Qmult_le_compat_r; [| apply Qlt_le_weak, pow2_pos].
      rewrite <- pow2_inject by lia. now apply inject_Z_le. }
    apply pow2_lt_inv in H1. unfold fexp, emin. lia.
Qed.

Lemma binary_round_rounds (s : bool) (m : positive) (e : Z) :
  inject_Z (Zpos m) * 2 ^ e < 2 ^ (emax - 1) ->
  rounds_to prec emax (IEEE.value (S754_finite s m e))
    (binary_round prec emax s m e).
Proof.
  intros Hmag. unfold binary_round.
  pose proof (shl_align_spec m e (fexp prec emax (Zpos (digits2_pos m) + e)))
    as (He & Hmz & Hd).
  destruct (shl_align m e (fexp prec emax (Zpos (digits2_pos m) + e)))
    as [mz ez]. cbn [fst snd] in He, Hmz, Hd.
  assert (Hv : inject_Z (Zpos m) * 2 ^ e == inject_Z (Zpos mz) * 2 ^ ez).
  { rewrite Hmz. apply scale_mantissa. lia. }
  apply (rounds_to_wd prec emax
           (if s then - (inject_Z (Zpos mz) * 2 ^ ez)
            else inject_Z (Zpos mz) * 2 ^ ez)).
  { rewrite value_of_sign. destruct s; rewrite Hv; reflexivity. }
  pose proof (pow2_pos ez) as Pz.
  assert (Hzpos : 0 < inject_Z (Zpos mz) * 2 ^ ez).
  { apply Qmult_lt_0_compat; [| exact Pz].
    change 0 with (inject_Z 0). apply inject_Z_lt. lia. }
  apply round_aux_below; try assumption.
  - lia.
  - cbn [Zdigits2]. rewrite Hd. lia.
  - discriminate.
  - apply Qle_refl.
  - apply Qmult_lt_compat_r; [exact Pz | apply inject_Z_lt; lia].
  - now rewrite <- Hv.
Qed.

Lemma binary_normalize_rounds (m e : Z) (szero : bool) :
  Qabs (inject_Z m * 2 ^ e) < 2 ^ (emax - 1) ->
  rounds_to prec emax (inject_Z m * 2 ^ e)
    (binary_normalize prec emax m e szero).
Proof.
  intros Hmag. pose proof (pow2_pos e) as Pe.
  destruct m as [| m | m]; cbn [binary_normalize].
  - apply rounds_to_zero. ring.
  - apply (rounds_to_wd prec emax (IEEE.value (S754_finite false m e)));
      [apply value_pos |].
    apply binary_round_rounds.
    rewrite Qabs_pos in Hmag; [exact Hmag |].
    apply Qmult_le_0_compat; [| lra].
    change 0 with (inject_Z 0). apply inject_Z_le. lia.
  - assert (E : inject_Z (Zneg m) * 2 ^ e == - (inject_Z (Zpos m) * 2 ^ e)).
    { change (Zneg m) with (- Zpos m)%Z. rewrite inject_Z_opp. ring. }
    apply (rounds_to_wd prec emax (IEEE.value (S754_finite true m e))).
    { rewrite value_neg, value_pos. now symmetry. }
    apply binary_round_rounds.
    rewrite E, Qabs_opp, Qabs_pos in Hmag; [exact Hmag |].
    apply Qmult_le_0_compat; [| lra].
    change 0 with (inject_Z 0). apply inject_Z_le. lia.
Qed.

(** Conversion to the format, of a finite float of any format. *)
Lemma of_float_rounds (f : spec_float) :
  IEEE.is_finite f = true ->
  Qabs (IEEE.value f) < 2 ^ (emax - 1) ->
  rounds_to prec emax (IEEE.value f) (IEEE.of_float prec emax f).
Proof.
  destruct f as [s | s | | s m e]; try discriminate; intros _ Hmag.
  - apply rounds_to_zero. reflexivity.
  - cbn [IEEE.of_float]. apply binary_round_rounds.
    rewrite value_of_sign in Hmag. pose proof (pow2_pos e).
    assert (0 <= inject_Z (Zpos m) * 2 ^ e).
    { apply Qmult_le_0_compat; [| lra].
      change 0 with (inject_Z 0). apply inject_Z_le. lia. }
    destruct s; [rewrite Qabs_opp in Hmag |]; rewrite Qabs_pos in Hmag;
      assumption.
Qed.
End Format.
End Round_ops.

(** *** Sums, differences and products *)

Module Round_arith.
Import Codec_spec IEEE_facts Order_facts Overflow_facts Round_facts
  Rounding_spec Qpow_facts Round_value Round_ops.
Local Open Scope Q_scope.

Lemma inject_cond_Zopp (s : bool) (m : Z) :
  inject_Z (cond_Zopp s m) == (if s then - inject_Z m else inject_Z m).
Proof.
  destruct s; cbn [cond_Zopp]; [now rewrite inject_Z_opp | reflexivity].
Qed.

(** A significand moved to a smaller exponent denotes the same number. *)
Lemma aligned_value (s : bool) (m : positive) (e ez : Z) :
  (ez <= e)%Z ->
  inject_Z (cond_Zopp s (Zpos (fst (shl_align m e ez)))) * 2 ^ ez
  == IEEE.value (S754_finite s m e).
Proof.
  intros H. pose proof (shl_align_spec m e ez) as (He & Hm & _).
  cbv zeta in He, Hm. rewrite Hm, He, Z.min_r by lia.
  rewrite inject_cond_Zopp, value_of_sign.
  destruct s; rewrite (scale_mantissa (Zpos m) ez e) by lia; ring.
Qed.

Lemma value_zero (s : bool) : IEEE.value (S754_zero s) = 0.
Proof. reflexivity. Qed.

Lemma value_SFopp_finite (s : bool) (m : positive) (e : Z) :
  IEEE.value (S754_finite (negb s) m e) == - IEEE.value (S754_finite s m e).
Proof. rewrite !value_of_sign. destruct s; cbn [negb]; ring. Qed.

Section Format.
Variables prec emax : Z.
Hypothesis Hprec : (1 < prec)%Z.
Hypothesis Hemax : (prec < emax)%Z.

Lemma SFadd_rounds (x y : spec_float) :
  valid_binary prec emax x = true -> valid_binary prec emax y = true ->
  IEEE.is_finite x = true -> IEEE.is_finite y = true ->
  Qabs (IEEE.value x + IEEE.value y) < 2 ^ (emax - 1) ->
  rounds_to prec emax (IEEE.value x + IEEE.value y) (SFadd prec emax x y).
Proof.
  intros Vx Vy Fx Fy Hmag.
  destruct x as [sx | sx | | sx mx ex]; try discriminate Fx;
    destruct y as [sy | sy | | sy my ey]; try discriminate Fy.
  - destruct sx, sy; apply rounds_to_zero; cbn; reflexivity.
  - cbn [SFadd]. apply rounds_to_exact; [exact Vy | reflexivity |].
    rewrite value_zero. ring.
  - cbn [SFadd]. apply rounds_to_exact; [exact Vx | reflexivity |].
    rewrite value_zero. ring.
  - cbn [SFadd]. cbv zeta.
    assert (E : inject_Z
                  (cond_Zopp sx (Zpos (fst (shl_align mx ex (Z.min ex ey))))
                   + cond_Zopp sy (Zpos (fst (shl_align my ey (Z.min ex ey)))))
                * 2 ^ Z.min ex ey
                == IEEE.value (S754_finite sx mx ex)
                   + IEEE.value (S754_finite sy my ey)).
    { rewrite inject_Z_plus, Qmult_plus_distr_l.
      rewrite !aligned_value by lia. reflexivity. }
    apply (rounds_to_wd prec emax _ _ _ E).
    apply (binary_normalize_rounds prec emax Hprec Hemax).
    rewrite <- E in Hmag. exact Hmag.
Qed.

Lemma SFsub_rounds (x y : spec_float) :
  valid_binary prec emax x = true -> valid_binary prec emax y = true ->
  IEEE.is_finite x = true -> IEEE.is_finite y = true ->
  Qabs (IEEE.value x - IEEE.value y) < 2 ^ (emax - 1) ->
  rounds_to prec emax (IEEE.value x - IEEE.value y) (SFsub prec emax x y).
Proof.
  intros Vx Vy Fx Fy Hmag.
  destruct x as [sx | sx | | sx mx ex]; try discriminate Fx;
    destruct y as [sy | sy | | sy my ey]; try discriminate Fy.
  - destruct sx, sy; apply rounds_to_zero; cbn; reflexivity.
  - cbn [SFsub]. apply rounds_to_exact; [exact Vy | reflexivity |].
    rewrite value_zero, value_SFopp_finite. ring.
  - cbn [SFsub]. apply rounds_to_exact; [exact Vx | reflexivity |].
    rewrite value_zero. ring.
  - cbn [SFsub]. cbv zeta.
    assert (E : inject_Z
                  (cond_Zopp sx (Zpos (fst (shl_align mx ex (Z.min ex ey))))
                   - cond_Zopp sy (Zpos (fst (shl_align my ey (Z.min ex ey)))))
                * 2 ^ Z.min ex ey
                == IEEE.value (S754_finite sx mx ex)
                   - IEEE.value (S754_finite sy my ey)).
    { unfold Z.sub. rewrite inject_Z_plus, inject_Z_opp.
      setoid_replace ((inject_Z
                         (cond_Zopp sx (Zpos (fst (shl_align mx ex (Z.min ex ey)))))
                       + - inject_Z
                           (cond_Zopp sy
                              (Zpos (fst (shl_align my ey (Z.min ex ey))))))
                      * 2 ^ Z.min ex ey)
        with (inject_Z
                (cond_Zopp sx (Zpos (fst (shl_align mx ex (Z.min ex ey)))))
              * 2 ^ Z.min ex ey
              - inject_Z
                  (cond_Zopp sy (Zpos (fst (shl_align my ey (Z.min ex ey)))))
                * 2 ^ Z.min ex ey) by ring.
      rewrite !aligned_value by lia. reflexivity. }
    apply (rounds_to_wd prec emax _ _ _ E).
    apply (binary_normalize_rounds prec emax Hprec Hemax).
    rewrite <- E in Hmag. exact Hmag.
Qed.

Lemma digits_mul_ge (a b : positive) :
  (Zpos (digits2_pos a) + Zpos (digits2_pos b) - 1
   <= Zpos (digits2_pos (a * b)))%Z.
Proof.
  pose proof (digits_bounds a) as [Ha _].
  pose proof (digits_bounds b) as [Hb _].
  change (Zpos (digits2_pos (a * b))) with (Zdigits2 (Zpos (a * b))).
  apply Zdigits2_ge; [lia |].
  replace (Zpos (digits2_pos a) + Zpos (digits2_pos b) - 1 - 1)%Z
    with ((Zpos (digits2_pos a) - 1) + (Zpos (digits2_pos b) - 1))%Z by lia.
  rewrite Z.pow_add_r by lia. rewrite Pos2Z.inj_mul.
  apply Z.mul_le_mono_nonneg; try lia; apply Z.pow_nonneg; lia.
Qed.

Lemma SFmul_rounds (x y : spec_float) :
  valid_binary prec emax x = true -> valid_binary prec emax y = true ->
  IEEE.is_finite x = true -> IEEE.is_finite y = true ->
  Qabs (IEEE.value x * IEEE.value y) < 2 ^ (emax - 1) ->
  rounds_to prec emax (IEEE.value x * IEEE.value y) (SFmul prec emax x y).
Proof.
  intros Vx Vy Fx Fy Hmag.
  destruct x as [sx | sx | | sx mx ex]; try discriminate Fx;
    destruct y as [sy | sy | | sy my ey]; try discriminate Fy;
    try (apply rounds_to_zero; rewrite value_zero; ring).
  cbn [SFmul].
  set (z := inject_Z (Zpos (mx * my)) * 2 ^ (ex + ey)).
  assert (Ez : IEEE.value (S754_finite sx mx ex)
               * IEEE.value (S754_finite sy my ey)
               == if xorb sx sy then - z else z).
  { unfold z. rewrite !value_of_sign, Pos2Z.inj_mul, inject_Z_mult.
    destruct sx, sy; cbn [xorb]; rewrite pow2_add; ring. }
  pose proof (pow2_pos (ex + ey)) as Pe.
  assert (Hz : 0 < z).
  { unfold z. apply Qmult_lt_0_compat; [| exact Pe].
    change 0 with (inject_Z 0). apply inject_Z_lt. lia. }
  apply (rounds_to_wd prec emax (if xorb sx sy then - z else z));
    [now symmetry |].
  cbn [valid_binary] in Vx, Vy.
  apply bounded_spec in Vx as [Cx _]. apply bounded_spec in Vy as [Cy _].
  apply (round_aux_below prec emax Hprec Hemax); try assumption.
  - lia.
  - cbn [Zdigits2]. pose proof (digits_mul_ge mx my).
    pose proof (digits_bounds mx). pose proof (digits_bounds my).
    assert (1 <= Zpos (digits2_pos mx))%Z by lia.
    assert (1 <= Zpos (digits2_pos my))%Z by lia.
    unfold fexp, emin in *. lia.
  - discriminate.
  - apply Qle_refl.
  - unfold z. apply Qmult_lt_compat_r; [exact Pe | apply inject_Z_lt; lia].
  - rewrite Ez in Hmag.
    destruct (xorb sx sy); [rewrite Qabs_opp in Hmag |];
      rewrite Qabs_pos in Hmag; lra.
Qed.
End Format.
End Round_arith.

(** *** Quotients *)

Module Round_div.
Import Codec_spec IEEE_facts Order_facts Overflow_facts Round_facts
  Rounding_spec Qpow_facts Round_value Round_ops Round_arith.
Local Open Scope Q_scope.

Section Format.
Variables prec emax : Z.
Hypothesis Hprec : (1 < prec)%Z.
Hypothesis Hemax : (prec < emax)%Z.

(** The quotient of two significands, as the division computes it. *)
Lemma div_core_spec (m1 m2 : positive) (e1 e2 : Z) :
  let d1 := Zpos (digits2_pos m1) in
  let d2 := Zpos (digits2_pos m2) in
  let e' := Z.min (fexp prec emax (d1 + e1 - (d2 + e2))) (e1 - e2) in
  let s := (e1 - e2 - e')%Z in
  let q := (Zpos m1 * 2 ^ s / Zpos m2)%Z in
  exists l, SFdiv_core_binary prec emax (Zpos m1) e1 (Zpos m2) e2 = (q, e', l).
Proof.
  intros d1 d2 e' s q. unfold SFdiv_core_binary. cbn [Zdigits2].
  fold d1 d2. fold e'. fold s.
  assert (Hs : (0 <= s)%Z) by (unfold s, e'; lia).
  assert (Hm : match s with
               | Zpos _ => Z.shiftl (Zpos m1) s
               | Z0 => Zpos m1
               | Zneg _ => 0%Z
               end = (Zpos m1 * 2 ^ s)%Z).
  { destruct s as [| p | p]; [lia | | lia].
    now rewrite Z.shiftl_mul_pow2 by lia. }
  rewrite Hm. unfold q, Z.div.
  destruct (Z.div_eucl (Zpos m1 * 2 ^ s) (Zpos m2)) as [q' r'].
  eexists. reflexivity.
Qed.

Lemma SFdiv_rounds (x y : spec_float) :
  IEEE.is_finite x = true -> IEEE.is_finite y = true ->
  ~ IEEE.value y == 0 ->
  Qabs (IEEE.value x / IEEE.value y) < 2 ^ (emax - 1) ->
  rounds_to prec emax (IEEE.value x / IEEE.value y) (SFdiv prec emax x y).
Proof.
  intros Fx Fy Hy Hmag.
  destruct y as [sy | sy | | sy my ey]; try discriminate Fy;
    [exfalso; apply Hy; reflexivity |].
  destruct x as [sx | sx | | sx mx ex]; try discriminate Fx.
  { apply rounds_to_zero. rewrite value_zero. unfold Qdiv. ring. }
  cbn [SFdiv].
  destruct (div_core_spec mx my ex ey) as [l ->]. cbv zeta.
  set (d1 := Zpos (digits2_pos mx)). set (d2 := Zpos (digits2_pos my)).
  set (e' := Z.min (fexp prec emax (d1 + ex - (d2 + ey))) (ex - ey)).
  set (s := (ex - ey - e')%Z).
  set (q := (Zpos mx * 2 ^ s / Zpos my)%Z).
  assert (Hs : (0 <= s)%Z) by (unfold s, e'; lia).
  pose proof (digits_bounds mx) as [Lx Ux]. fold d1 in Lx, Ux.
  pose proof (digits_bounds my) as [Ly Uy]. fold d2 in Ly, Uy.
  assert (Hd1 : (1 <= d1)%Z) by (unfold d1; lia).
  assert (Hd2 : (1 <= d2)%Z) by (unfold d2; lia).
  assert (P2s : (0 < 2 ^ s)%Z) by (apply Z.pow_pos_nonneg; lia).
  assert (Hq0 : (0 <= q)%Z) by (apply Z.div_pos; lia).
  pose proof (Z.mul_div_le (Zpos mx * 2 ^ s) (Zpos my) ltac:(lia)) as Q1.
  pose proof (Z.mul_succ_div_gt (Zpos mx * 2 ^ s) (Zpos my) ltac:(lia)) as Q2.
  fold q in Q1, Q2.
  (* the quotient as a number *)
  set (a := inject_Z (Zpos mx) * 2 ^ ex).
  set (b := inject_Z (Zpos my) * 2 ^ ey).
  pose proof (pow2_pos ex) as Pex. pose proof (pow2_pos ey) as Pey.
  pose proof (pow2_pos e') as Pe'.
  assert (Ha : 0 < a).
  { apply Qmult_lt_0_compat; [| exact Pex].
    change 0 with (inject_Z 0). apply inject_Z_lt. lia. }
  assert (Hb : 0 < b).
  { apply Qmult_lt_0_compat; [| exact Pey].
    change 0 with (inject_Z 0). apply inject_Z_lt. lia. }
  set (z := a / b).
  assert (Hz : 0 < z).
  { unfold z, Qdiv. apply Qmult_lt_0_compat; [exact Ha |].
    now apply Qinv_lt_0_compat. }
  assert (Ez : IEEE.value (S754_finite sx mx ex)
               / IEEE.value (S754_finite sy my ey)
               == if xorb sx sy then - z else z).
  { rewrite !value_of_sign. fold a b. unfold z.
    destruct sx, sy; cbn [xorb]; field; lra. }
  (* a = (mx * 2 ^ s) * 2 ^ (e' + ey) *)
  assert (Ea : a == inject_Z (Zpos mx * 2 ^ s) * 2 ^ (e' + ey)).
  { unfold a. rewrite (scale_mantissa (Zpos mx) (e' + ey) ex) by (unfold s in Hs; lia).
    now replace (ex - (e' + ey))%Z with s by (unfold s; lia). }
  assert (Eb : forall c : Z,
             inject_Z c * 2 ^ e' * b == inject_Z (c * Zpos my) * 2 ^ (e' + ey)).
  { intros c. unfold b. rewrite inject_Z_mult, pow2_add. ring. }
  pose proof (pow2_pos (e' + ey)) as Pee.
  assert (Blo : inject_Z q * 2 ^ e' <= z).
  { unfold z. apply Qle_shift_div_l; [exact Hb |].
    rewrite Eb, Ea. apply Qmult_le_compat_r; [| lra].
    apply inject_Z_le. lia. }
  assert (Bhi : z < inject_Z (q + 1) * 2 ^ e').
  { unfold z. apply Qlt_shift_div_r; [exact Hb |].
    rewrite Eb, Ea. apply Qmult_lt_compat_r; [lra |].
    apply inject_Z_lt. lia. }
  assert (Hzmag : z < 2 ^ (emax - 1)).
  { rewrite Ez in Hmag.
    destruct (xorb sx sy); [rewrite Qabs_opp in Hmag |];
      rewrite Qabs_pos in Hmag; lra. }
  apply (rounds_to_wd prec emax (if xorb sx sy then - z else z));
    [now symmetry |].
  apply (round_aux_below prec emax Hprec Hemax); try assumption.
  - (* the exponent is at most the canonical one *)
    apply Z.le_trans with (fexp prec emax (d1 + ex - (d2 + ey)));
      [unfold e'; lia |].
    apply fexp_mono.
    enough (d1 - d2 + s <= Zdigits2 q)%Z by (unfold s in *; lia).
    destruct (Z_le_gt_dec (d1 - d2 + s) 0) as [Hn | Hn].
    { pose proof (Zdigits2_nonneg q). lia. }
    assert (Hq : (2 ^ (d1 - d2 + s - 1) <= q)%Z).
    { unfold q. apply Z.div_le_lower_bound; [lia |].
      apply Z.le_trans with (2 ^ d2 * 2 ^ (d1 - d2 + s - 1))%Z.
      - apply Z.mul_le_mono_nonneg_r; [apply Z.pow_nonneg |]; lia.
      - rewrite <- Z.pow_add_r by lia.
        replace (d2 + (d1 - d2 + s - 1))%Z with ((d1 - 1) + s)%Z by lia.
        rewrite Z.pow_add_r by lia.
        apply Z.mul_le_mono_nonneg_r; lia. }
    assert (0 < 2 ^ (d1 - d2 + s - 1))%Z by (apply Z.pow_pos_nonneg; lia).
    apply Zdigits2_ge; lia.
  - (* a quotient below one unit *)
    intros _.
    assert (Hlow : 2 ^ (d1 + ex - (d2 + ey) - 1) < z).
    { unfold z. apply Qlt_shift_div_l; [exact Hb |].
      apply Qlt_le_trans with (2 ^ (d1 + ex - (d2 + ey) - 1) * (2 ^ d2 * 2 ^ ey)).
      - pose proof (pow2_pos (d1 + ex - (d2 + ey) - 1)).
        unfold b. rewrite !(Qmult_comm (2 ^ (d1 + ex - (d2 + ey) - 1))).
        apply Qmult_lt_compat_r; [assumption |].
        apply Qmult_lt_compat_r; [exact Pey |].
        rewrite <- pow2_inject by lia. apply inject_Z_lt. lia.
      - rewrite <- !pow2_add.
        replace (d1 + ex - (d2 + ey) - 1 + (d2 + ey))%Z
          with ((d1 - 1) + ex)%Z by lia.
        rewrite pow2_add. unfold a.
        apply Qmult_le_compat_r; [| lra].
        rewrite <- pow2_inject by lia. apply inject_Z_le. lia. }
    assert (Hlt : 2 ^ (d1 + ex - (d2 + ey) - 1) < 2 ^ (emax - 1)) by lra.
    apply pow2_lt_inv in Hlt.
    assert (e' <= fexp prec emax (d1 + ex - (d2 + ey)))%Z by (unfold e'; lia).
    unfold fexp, emin in *. lia.
Qed.
End Format.
End Round_div.

(** ** The UINT8 mode: the error of one element, in numbers *)

Local Open Scope Q_scope.

Module Uint8_error.

Section Analysis.
(** [d] bounds the relative error of one operation (half a unit in the last
    place would do), [h] the absolute error of a result in the subnormal
    range. *)
Variables d h : Q.
Hypothesis Hd0 : 0 < d.
Hypothesis Hd : 1024 * d <= 1.
Hypothesis Hh0 : 0 <= h.
Hypothesis Hhd : h <= d.

Lemma small_part (x : Q) : 0 <= x -> 0 <= x * d /\ 1024 * (x * d) <= x.
Proof using Hd0 Hd Hh0 Hhd.
  intros Hx. split; [apply Qmult_le_0_compat; lra |].
  assert (x * (1024 * d) <= x * 1)
    by (rewrite !(Qmult_comm x); apply Qmult_le_compat_r; lra).
  lra.
Qed.

Lemma times_le (x y z : Q) : 0 <= z -> x <= y -> x * z <= y * z.
Proof using Hd0 Hd Hh0 Hhd. intros Hz Hxy. now apply Qmult_le_compat_r. Qed.

(** [scale]: the difference [D] of the maximum and the minimum (here
    [D' = D / 256]), the quotient [S] by 256, and [S] converted to the
    element type, [s]; [c] is the exact 256th of the range. *)
Lemma diff_bounds (c D D' : Q) :
  0 < c -> 4 * h <= d * c ->
  256 * c - (d * (256 * c) + h) <= D -> D <= 256 * c + d * (256 * c) + h ->
  256 * D' == D ->
  c * (1 - 2 * d) <= D' /\ D' <= c * (1 + 2 * d).
Proof using Hd0 Hd Hh0 Hhd.
  intros Hc Hh D1 D2 ED.
  destruct (small_part c) as [C1 C2]; [lra |].
  destruct (small_part (c * d) C1) as [C3 C4].
  split; lra.
Qed.

Lemma quot_bounds (c D' S : Q) :
  0 < c -> 4 * h <= d * c ->
  c * (1 - 2 * d) <= D' -> D' <= c * (1 + 2 * d) ->
  D' - (d * D' + h) <= S -> S <= D' + d * D' + h ->
  c * (1 - 4 * d) <= S /\ S <= c * (1 + 4 * d).
Proof using Hd0 Hd Hh0 Hhd.
  intros Hc Hh B1 B2 S1 S2.
  destruct (small_part c) as [C1 C2]; [lra |].
  destruct (small_part (c * d) C1) as [C3 C4].
  pose proof (times_le D' (c * (1 + 2 * d)) d ltac:(lra) B2) as HD'd.
  destruct (small_part D') as [C5 C6]; [lra |].
  split; lra.
Qed.

Lemma conv_bounds (c S s : Q) :
  0 < c -> 4 * h <= d * c ->
  c * (1 - 4 * d) <= S -> S <= c * (1 + 4 * d) ->
  S - (d * S + h) <= s -> s <= S + d * S + h ->
  c * (1 - 6 * d) <= s /\ s <= c * (1 + 6 * d).
Proof using Hd0 Hd Hh0 Hhd.
  intros Hc Hh BS1 BS2 s1 s2.
  destruct (small_part c) as [C1 C2]; [lra |].
  destruct (small_part (c * d) C1) as [C3 C4].
  pose proof (times_le S (c * (1 + 4 * d)) d ltac:(lra) BS2) as HSd.
  destruct (small_part S) as [C7 C8]; [lra |].
  split; lra.
Qed.

(** A number within a few relative errors of [c] is between [c / 2] and
    [2 * c]. *)
Lemma near_bounds (c x n : Q) :
  0 < c -> 0 <= n -> n <= 6 ->
  c * (1 - n * d) <= x -> x <= c * (1 + n * d) ->
  0 < c * (1 - n * d) /\ c <= 2 * x /\ x <= 2 * c.
Proof using Hd0 Hd Hh0 Hhd.
  intros Hc Hn0 Hn H1 H2.
  destruct (small_part c) as [C1 C2]; [lra |].
  assert (Hn1 : 0 <= (6 - n) * (c * d)) by (apply Qmult_le_0_compat; lra).
  assert (Hn2 : 0 <= n * (c * d)) by (apply Qmult_le_0_compat; lra).
  repeat split; lra.
Qed.

(** The quotient of an element at a distance from the maximum is below
    256. *)
Lemma code_bound (c a dq s : Q) :
  0 < c -> 4 * h <= d * c ->
  0 <= a -> a <= (1 - 16 * d) * (256 * c) ->
  0 <= dq -> dq <= a + d * a + h ->
  c * (1 - 6 * d) <= s -> 0 < c * (1 - 6 * d) ->
  0 <= dq / s /\ dq / s <= 256
  /\ forall t, t <= dq / s + d * (dq / s) + h -> t < 256.
Proof using Hd0 Hd Hh0 Hhd.
  intros Hc Hh Ha0 Ha Hq0 Hq Hs Hs0.
  assert (Hspos : 0 < s) by lra.
  destruct (small_part c) as [C1 C2]; [lra |].
  destruct (small_part (c * d) C1) as [C3 C4].
  pose proof (times_le a _ d ltac:(lra) Ha) as Had.
  assert (Hw0 : 0 <= dq / s).
  { apply Qle_shift_div_l; [exact Hspos | lra]. }
  assert (Hw : dq / s <= 256 * (1 - 2 * d)).
  { apply Qle_shift_div_r; [exact Hspos |].
    assert (256 * (1 - 2 * d) * (c * (1 - 6 * d)) <= 256 * (1 - 2 * d) * s).
    { rewrite !(Qmult_comm (256 * (1 - 2 * d))). apply times_le; lra. }
    lra. }
  split; [exact Hw0 |]. split; [lra |].
  intros t Ht.
  pose proof (times_le _ _ d ltac:(lra) Hw) as Hwd.
  assert (0 <= d * d) by (apply Qmult_le_0_compat; lra).
  lra.
Qed.

(** What the code [k] stands for: [k * s] is at most one step [s] below the
    distance [a] of the element from the minimum. *)
Lemma product_bound (a dq s t k M : Q) :
  0 < s -> 0 <= a -> a <= 2 * M -> 128 * s <= 2 * M -> 512 * h <= d * M ->
  0 <= dq -> a - (d * a + h) <= dq -> dq <= a + d * a + h ->
  dq / s - (d * (dq / s) + h) <= t -> t <= dq / s + d * (dq / s) + h ->
  0 <= k -> k <= t -> t < k + 1 ->
  0 <= k * s
  /\ a - s - 3 * (a * d) - 2 * h - h * s <= k * s
  /\ k * s <= a + 3 * (a * d) + 2 * h + h * s
  /\ k * s <= 3 * M.
Proof using Hd0 Hd Hh0 Hhd.
  intros Hs Ha HaM HsM HhM Hq0 Hq1 Hq2 Ht1 Ht2 Hk0 Hk1 Hk2.
  assert (HM0 : 0 <= M) by lra.
  destruct (small_part M HM0) as [M1 M2].
  assert (Hhs2 : h * s <= d * s) by (apply times_le; lra).
  destruct (small_part s) as [S1 S2]; [lra |].
  destruct (small_part a Ha) as [A1 A2].
  destruct (small_part (a * d) A1) as [A3 A4].
  destruct (small_part h Hh0) as [H1 H2].
  destruct (small_part dq Hq0) as [Q1 Q2].
  pose proof (times_le _ _ d ltac:(lra) Hq2) as Hqd.
  assert (Hths : 0 <= h * s) by (apply Qmult_le_0_compat; lra).
  assert (E1 : (dq / s + d * (dq / s) + h) * s == dq + dq * d + h * s)
    by (field; lra).
  assert (E2 : (dq / s - (d * (dq / s) + h)) * s == dq - dq * d - h * s)
    by (field; lra).
  pose proof (times_le _ _ s ltac:(lra) Ht2) as T2. rewrite E1 in T2.
  pose proof (times_le _ _ s ltac:(lra) Ht1) as T1. rewrite E2 in T1.
  pose proof (times_le _ _ s ltac:(lra) Hk1) as K1.
  assert (K2 : t * s <= (k + 1) * s) by (apply times_le; lra).
  split; [apply Qmult_le_0_compat; lra |].
  repeat split; lra.
Qed.

(** The element read back, [r], against the element [v = a + lo]. *)
Lemma sum_bound (a s k u lo v M : Q) :
  0 < s -> 0 <= a -> v == a + lo -> Qabs v <= M -> a <= 2 * M ->
  128 * s <= 2 * M -> 512 * h <= d * M ->
  0 <= k * s ->
  a - s - 3 * (a * d) - 2 * h - h * s <= k * s ->
  k * s <= a + 3 * (a * d) + 2 * h + h * s ->
  k * s - (d * (k * s) + h) <= u -> u <= k * s + d * (k * s) + h ->
  (a - u <= s + 5 * (a * d) + 4 * h + 2 * (h * s)
   /\ u - a <= s + 5 * (a * d) + 4 * h + 2 * (h * s))
  /\ Qabs (u + lo) <= 2 * M.
Proof using Hd0 Hd Hh0 Hhd.
  intros Hs Ha Hv HM HaM HsM HhM Hk0 Hk1 Hk2 Hu1 Hu2.
  assert (HM0 : 0 <= M) by (pose proof (Qabs_nonneg v); lra).
  destruct (small_part a Ha) as [A1 A2].
  destruct (small_part (a * d) A1) as [A3 A4].
  destruct (small_part h Hh0) as [H1 H2].
  destruct (small_part M HM0) as [M1 M2].
  assert (Hhs : 0 <= h * s) by (apply Qmult_le_0_compat; lra).
  assert (Hhs2 : h * s <= d * s) by (apply times_le; lra).
  destruct (small_part s) as [S1 S2]; [lra |].
  destruct (small_part (h * s) Hhs) as [P1 P2].
  pose proof (times_le _ _ d ltac:(lra) Hk2) as Hkd.
  destruct (small_part (k * s) Hk0) as [K1 K2].
  assert (G : a - u <= s + 5 * (a * d) + 4 * h + 2 * (h * s)
              /\ u - a <= s + 5 * (a * d) + 4 * h + 2 * (h * s))
    by (split; lra).
  split; [exact G |].
  apply Qabs_Qle_condition in HM. apply Qabs_Qle_condition.
  split; lra.
Qed.

Lemma error_bound (a s S u lo v r M : Q) :
  0 < s -> 0 <= a -> v == a + lo -> Qabs v <= M -> a <= 2 * M ->
  128 * s <= 2 * M -> 128 * S <= 2 * M -> 512 * h <= d * M ->
  0 <= S -> s <= S + d * S + h ->
  a - u <= s + 5 * (a * d) + 4 * h + 2 * (h * s) ->
  u - a <= s + 5 * (a * d) + 4 * h + 2 * (h * s) ->
  Qabs (u + lo) <= 2 * M ->
  Qabs (r - (u + lo)) <= d * Qabs (u + lo) + h ->
  Qabs (v - r) <= S + 16 * d * M.
Proof using Hd0 Hd Hh0 Hhd.
  intros Hs Ha Hv HM HaM HsM HSM HhM HS0 HsS G1 G2 HY Hr.
  assert (HM0 : 0 <= M) by (pose proof (Qabs_nonneg v); lra).
  destruct (small_part a Ha) as [A1 A2].
  destruct (small_part M HM0) as [M1 M2].
  destruct (small_part S HS0) as [S1 S2].
  assert (Hhs : 0 <= h * s) by (apply Qmult_le_0_compat; lra).
  assert (Hhs2 : h * s <= d * s) by (apply times_le; lra).
  destruct (small_part s) as [s1 s2]; [lra |].
  pose proof (times_le _ _ d ltac:(lra) HaM) as HaMd.
  pose proof (times_le _ _ d ltac:(lra) HsM) as HsMd.
  pose proof (times_le _ _ d ltac:(lra) HSM) as HSMd.
  pose proof (times_le _ _ d ltac:(lra) HY) as HYd.
  pose proof (Qabs_nonneg (u + lo)) as HY0.
  apply Qabs_Qle_condition in Hr. apply Qabs_Qle_condition.
  split; lra.
Qed.
End Analysis.
End Uint8_error.

(** ** The UINT8 mode: one element through the setter and the getter *)

Module Uint8_path.
Import jina_pb2 DenseNdArray Codec_spec np_facts Codec_facts Uint8_facts
  Uint8_num IEEE_facts Order_facts Min_facts Float_arrays Float_min
  Rounding_spec Qpow_facts Round_ops Round_arith Round_div Uint8_error.
Local Open Scope Q_scope.

Lemma rounds_to_interval (p e : Z) (z : Q) (f : spec_float) (d h : Q) :
  rounds_to p e z f -> 0 <= z -> 2 ^ (1 - p) <= d -> 2 ^ emin p e <= h ->
  0 <= IEEE.value f
  /\ z - (d * z + h) <= IEEE.value f /\ IEEE.value f <= z + d * z + h.
Proof.
  intros (_ & _ & B & P & _) Hz Hd Hh.
  rewrite (Qabs_pos z Hz) in B. apply Qabs_Qle_condition in B.
  assert (2 ^ (1 - p) * z <= d * z) by (apply Qmult_le_compat_r; assumption).
  split; [now apply P |]. split; lra.
Qed.

Lemma Qabs_below (x y b : Q) : - y <= x -> x <= y -> y < b -> Qabs x < b.
Proof.
  intros H1 H2 H3. apply Qle_lt_trans with (2 := H3).
  apply Qabs_Qle_condition. now split.
Qed.

Lemma stored_rounds (dt : np.DType) (p e : Z) (z : Q) (f : spec_float) :
  np.kind dt = np.Float p e -> rounds_to p e z f ->
  stored dt (np.F f) = np.F f.
Proof.
  intros Hk (V & _). apply stored_float. unfold float_of. now rewrite Hk.
Qed.

(** The formats of the float dtypes, and the error bounds of their
    operations against those of binary64. *)
Lemma format_range (dt : np.DType) :
  np.is_float dt = true ->
  exists p e,
    np.kind dt = np.Float p e
    /\ (11 <= p <= 53)%Z /\ (16 <= e <= 1024)%Z /\ (p < e)%Z
    /\ (e + p <= 1077)%Z.
Proof.
  destruct dt; try discriminate; intros _.
  - exists 11%Z, 16%Z. repeat split; lia.
  - exists 24%Z, 128%Z. repeat split; lia.
  - exists 53%Z, 1024%Z. repeat split; lia.
Qed.

Lemma format_facts (p e : Z) :
  (11 <= p <= 53)%Z -> (16 <= e <= 1024)%Z -> (e + p <= 1077)%Z ->
  0 < 2 ^ (1 - p) /\ 1024 * 2 ^ (1 - p) <= 1
  /\ 0 <= 2 ^ emin p e /\ 2 ^ emin p e <= 2 ^ (1 - p)
  /\ 2 ^ (1 - 53) <= 2 ^ (1 - p) /\ 2 ^ emin 53 1024 <= 2 ^ emin p e
  /\ 2 ^ emin p e == 2 ^ (2 - e) * 2 ^ (1 - p).
Proof.
  intros Hp He Hs.
  split; [apply pow2_pos |]. split.
  { assert (H : 2 ^ (1 - p) <= 2 ^ (-10)) by (apply pow2_le; lia).
    assert (E : 2 ^ (-10) == 1 # 1024) by reflexivity.
    rewrite E in H. lra. }
  split; [apply Qlt_le_weak, pow2_pos |].
  split; [apply pow2_le; unfold emin; lia |].
  split; [apply pow2_le; lia |].
  split; [apply pow2_le; unfold emin; lia |].
  rewrite <- pow2_add. unfold emin.
  now replace (3 - e - p)%Z with (2 - e + (1 - p))%Z by lia.
Qed.

Section Path.
Context {platform : np.Platform}.
Variables (dt : np.DType) (p e : Z).
Hypothesis Hk : np.kind dt = np.Float p e.
Hypothesis Hp : (11 <= p <= 53)%Z.
Hypothesis He : (16 <= e <= 1024)%Z.
Hypothesis Hpe : (p < e)%Z.
Hypothesis Hsum : (e + p <= 1077)%Z.

(** One element through the setter and the getter: every operation gives a
    finite float near the exact result, the code is the integer part of a
    quotient below 256, and the element read back is within one step, and
    the accumulated rounding, of the element. *)
Lemma element_path (hiF loF f0 fv : spec_float) (M : Q) :
  valid_binary 53 1024 hiF = true -> IEEE.is_finite hiF = true ->
  valid_binary 53 1024 loF = true -> IEEE.is_finite loF = true ->
  valid_binary p e f0 = true -> IEEE.is_finite f0 = true ->
  IEEE.of_float p e loF = f0 -> IEEE.value f0 == IEEE.value loF ->
  valid_binary p e fv = true -> IEEE.is_finite fv = true ->
  IEEE.value loF <= IEEE.value fv ->
  Qabs (IEEE.value loF) <= M -> Qabs (IEEE.value hiF) <= M ->
  M <= 2 ^ (e - 3) ->
  1024 * 2 ^ (2 - e) <= IEEE.value hiF - IEEE.value loF ->
  IEEE.value fv - IEEE.value loF
  <= (1 - 16 * 2 ^ (1 - p)) * (IEEE.value hiF - IEEE.value loF) ->
  exists r,
    dequantize dt loF (py_div_int (py_sub hiF loF) 256)
      (quantize dt loF (py_div_int (py_sub hiF loF) 256) (np.F fv)) = np.F r
    /\ IEEE.is_finite r = true
    /\ Qabs (IEEE.value fv - IEEE.value r)
       <= IEEE.value (py_div_int (py_sub hiF loF) 256)
          + 16 * 2 ^ (1 - p) * M.
Proof.
  intros Vhi Fhi Vlo Flo V0 F0 C0 E0 Vv Fv Hge HMlo HMhi HMB Hrange Hmargin.
  assert (Hprec : (1 < p)%Z) by lia.
  assert (Hf : np.is_float dt = true) by (unfold np.is_float; now rewrite Hk).
  destruct (format_facts p e Hp He Hsum)
    as (Hd0 & Hd & Hh0 & Hhd & Hd64 & Hh64 & Hhe).
  set (d := 2 ^ (1 - p)) in *. set (h := 2 ^ emin p e) in *.
  set (lo := IEEE.value loF) in *. set (hi := IEEE.value hiF) in *.
  set (v := IEEE.value fv) in *.
  pose proof (pow2_pos (2 - e)) as Psn. pose proof (pow2_pos (e - 3)) as PB.
  set (sn := 2 ^ (2 - e)) in *. set (B := 2 ^ (e - 3)) in *.
  assert (HB4 : 2 ^ (e - 1) == 4 * B).
  { replace (e - 1)%Z with (2 + (e - 3))%Z by lia. rewrite pow2_add.
    reflexivity. }
  assert (HB64 : 2 ^ (e - 1) <= 2 ^ (1024 - 1)) by (apply pow2_le; lia).
  assert (H256 : 32768 <= 2 ^ (e - 1)).
  { assert (H : 2 ^ 15 <= 2 ^ (e - 1)) by (apply pow2_le; lia).
    assert (E : 2 ^ 15 == 32768) by reflexivity. now rewrite E in H. }
  set (c := (hi - lo) / 256).
  assert (Ec : 256 * c == hi - lo) by (unfold c; field).
  assert (Hc : 0 < c) by lra.
  apply Qabs_Qle_condition in HMlo. apply Qabs_Qle_condition in HMhi.
  assert (HM0 : 0 <= M) by lra.
  assert (HcM : 128 * c <= M) by lra.
  assert (Hh4 : 4 * h <= d * c).
  { assert (H : (4 * sn) * d <= c * d) by (apply (times_le d h Hd0 Hd Hh0 Hhd); lra). lra. }
  assert (Hh512 : 512 * h <= d * M).
  { assert (H : (128 * c) * d <= M * d) by (apply (times_le d h Hd0 Hd Hh0 Hhd); lra). lra. }
  rewrite <- Ec in Hmargin.
  (* max_val - min_val *)
  assert (R1 : rounds_to 53 1024 (hi - lo) (py_sub hiF loF)).
  { apply SFsub_rounds; try lia; try assumption.
    fold hi lo. apply (Qabs_below _ (2 * M)); lra. }
  destruct (rounds_to_interval 53 1024 _ _ d h R1 ltac:(lra) Hd64 Hh64)
    as (D0 & D1 & D2).
  set (Dfl := py_sub hiF loF) in *. set (D := IEEE.value Dfl) in *.
  rewrite <- Ec in D1, D2.
  assert (ED : 256 * (D / 256) == D) by field.
  destruct (diff_bounds d h Hd0 Hd Hh0 Hhd c D (D / 256) Hc Hh4 D1 D2 ED)
    as (B1 & B2).
  destruct (near_bounds d h Hd0 Hd Hh0 Hhd c (D / 256) 2 Hc ltac:(lra) ltac:(lra)
              ltac:(lra) ltac:(lra)) as (_ & N1 & N2).
  (* scale *)
  assert (E256 : IEEE.value (IEEE.of_Z 53 1024 256) == 256)
    by (vm_compute; reflexivity).
  assert (R2 : rounds_to 53 1024 (D / 256) (py_div_int Dfl 256)).
  { apply (rounds_to_wd 53 1024
             (IEEE.value Dfl / IEEE.value (IEEE.of_Z 53 1024 256))).
    { fold D. now rewrite E256. }
    destruct R1 as (_ & FD & _).
    apply SFdiv_rounds; try lia; try assumption.
    - reflexivity.
    - rewrite E256. discriminate.
    - fold D. rewrite E256. rewrite Qabs_pos by lra. lra. }
  destruct (rounds_to_interval 53 1024 _ _ d h R2 ltac:(lra) Hd64 Hh64)
    as (S0 & S1 & S2).
  set (sc := py_div_int Dfl 256) in *. set (S := IEEE.value sc) in *.
  destruct (quot_bounds d h Hd0 Hd Hh0 Hhd c (D / 256) S Hc Hh4 B1 B2 S1 S2)
    as (BS1 & BS2).
  destruct (near_bounds d h Hd0 Hd Hh0 Hhd c S 4 Hc ltac:(lra) ltac:(lra)
              BS1 BS2) as (_ & N3 & N4).
  (* scale in the element type *)
  assert (R3 : rounds_to p e S (IEEE.of_float p e sc)).
  { destruct R2 as (_ & FS & _).
    apply of_float_rounds; try lia; try assumption.
    fold S. rewrite Qabs_pos by lra. lra. }
  destruct (rounds_to_interval p e _ _ d h R3 ltac:(lra) ltac:(apply Qle_refl)
              ltac:(apply Qle_refl)) as (s0 & s1 & s2).
  set (sf := IEEE.of_float p e sc) in *. set (s := IEEE.value sf) in *.
  destruct (conv_bounds d h Hd0 Hd Hh0 Hhd c S s Hc Hh4 BS1 BS2 s1 s2)
    as (Bs1 & Bs2).
  destruct (near_bounds d h Hd0 Hd Hh0 Hhd c s 6 Hc ltac:(lra) ltac:(lra)
              Bs1 Bs2) as (Ns0 & N5 & N6).
  assert (Hs : 0 < s) by lra.
  (* x - min_val *)
  set (a := v - lo) in *.
  assert (Ha0 : 0 <= a) by (unfold a; lra).
  destruct (small_part d h Hd0 Hd Hh0 Hhd c ltac:(lra)) as [C1 C2].
  assert (HaM : a <= 2 * M) by lra.
  assert (Rd : rounds_to p e a (SFsub p e fv f0)).
  { apply (rounds_to_wd p e (IEEE.value fv - IEEE.value f0)).
    { rewrite E0. reflexivity. }
    apply SFsub_rounds; try lia; try assumption.
    rewrite E0. fold v lo a. rewrite Qabs_pos by lra. lra. }
  destruct (rounds_to_interval p e _ _ d h Rd Ha0 ltac:(apply Qle_refl)
              ltac:(apply Qle_refl)) as (q0 & q1 & q2).
  assert (Hsub : step_sub dt loF (np.F fv) = np.F (SFsub p e fv f0)).
  { unfold step_sub, np.arith1. rewrite Hk. cbn [np.as_float]. rewrite C0.
    exact (stored_rounds dt p e _ _ Hk Rd). }
  set (df := SFsub p e fv f0) in *. set (dq := IEEE.value df) in *.
  (* ... / scale *)
  destruct (code_bound d h Hd0 Hd Hh0 Hhd c a dq s Hc Hh4 Ha0 Hmargin q0 q2
              Bs1 Ns0) as (Hw0 & Hw256 & Hcode).
  assert (Rt : rounds_to p e (dq / s) (SFdiv p e df sf)).
  { destruct Rd as (_ & Fd & _). destruct R3 as (_ & Fs & _).
    apply SFdiv_rounds; try lia; try assumption.
    - fold s. lra.
    - fold dq s. rewrite Qabs_pos by lra. lra. }
  destruct (rounds_to_interval p e _ _ d h Rt Hw0 ltac:(apply Qle_refl)
              ltac:(apply Qle_refl)) as (t0 & t1 & t2).
  assert (Hdiv : step_div dt sc (np.F df) = np.F (SFdiv p e df sf)).
  { unfold step_div, np.arith1. rewrite Hk. cbn [np.as_float]. fold sf.
    exact (stored_rounds dt p e _ _ Hk Rt). }
  set (tf := SFdiv p e df sf) in *. set (t := IEEE.value tf) in *.
  pose proof (Hcode t t2) as Ht256.
  (* the code *)
  assert (Ftf : IEEE.is_finite tf = true) by (destruct Rt as (_ & F & _); exact F).
  pose proof (trunc_floor tf Ftf t0) as Htr. fold t in Htr.
  set (k := Qfloor t) in *.
  pose proof (Qfloor_le t) as Hk1. fold k in Hk1.
  pose proof (Qlt_floor t) as Hk2. fold k in Hk2.
  rewrite inject_Z_plus in Hk2. change (inject_Z 1) with 1 in Hk2.
  assert (Hkr : (0 <= k < 256)%Z).
  { split.
    - change 0%Z with (Qfloor 0). apply Qfloor_resp_le. exact t0.
    - rewrite Zlt_Qlt. change (inject_Z 256) with 256. lra. }
  pose proof (step_code_in_range tf k Htr Hkr) as Hcodeq.
  destruct (step_float_code dt k Hf Hkr) as (yf & Hy & Hyform & Hyv).
  assert (Vy : valid_binary p e yf = true).
  { pose proof (load_float dt (np.store dt (np.cast dt (np.I k))) Hf) as V.
    change (float_of dt (step_float dt (np.I k))) in V.
    rewrite Hy in V. unfold float_of in V. now rewrite Hk in V. }
  assert (Fy : IEEE.is_finite yf = true)
    by (destruct Hyform as [-> | (m & x & ->)]; reflexivity).
  assert (Hk0 : 0 <= inject_Z k).
  { change 0 with (inject_Z 0). apply inject_Z_le. lia. }
  (* code * scale *)
  destruct (product_bound d h Hd0 Hd Hh0 Hhd a dq s t (inject_Z k) M Hs Ha0
              HaM ltac:(lra) Hh512 q0 q1 q2 t1 t2 Hk0 Hk1 Hk2)
    as (P0 & P1 & P2 & P3).
  assert (Ru : rounds_to p e (inject_Z k * s) (SFmul p e yf sf)).
  { apply (rounds_to_wd p e (IEEE.value yf * IEEE.value sf)).
    { rewrite Hyv. reflexivity. }
    destruct R3 as (Vs & Fs & _).
    apply SFmul_rounds; try lia; try assumption.
    rewrite Hyv. fold s. rewrite Qabs_pos by lra. lra. }
  destruct (rounds_to_interval p e _ _ d h Ru P0 ltac:(apply Qle_refl)
              ltac:(apply Qle_refl)) as (u0 & u1 & u2).
  assert (Hmul : step_mul dt sc (np.F yf) = np.F (SFmul p e yf sf)).
  { unfold step_mul, np.arith1. rewrite Hk. cbn [np.as_float]. fold sf.
    exact (stored_rounds dt p e _ _ Hk Ru). }
  set (uf := SFmul p e yf sf) in *. set (u := IEEE.value uf) in *.
  (* ... + min_val *)
  assert (Hv : v == a + lo) by (unfold a; ring).
  assert (HMv : Qabs v <= M) by (apply Qabs_Qle_condition; split; lra).
  destruct (sum_bound d h Hd0 Hd Hh0 Hhd a s (inject_Z k) u lo v M Hs Ha0 Hv
              HMv HaM ltac:(lra) Hh512 P0 P1 P2 u1 u2) as ((G1 & G2) & HY).
  assert (Rr : rounds_to p e (u + lo) (SFadd p e uf f0)).
  { apply (rounds_to_wd p e (IEEE.value uf + IEEE.value f0)).
    { rewrite E0. reflexivity. }
    destruct Ru as (Vu & Fu & _).
    apply SFadd_rounds; try lia; try assumption.
    rewrite E0. fold u lo. apply Qabs_Qle_condition in HY.
    apply (Qabs_below _ (2 * M)); lra. }
  assert (Hadd : step_add dt loF (np.F uf) = np.F (SFadd p e uf f0)).
  { unfold step_add, np.arith1. rewrite Hk. cbn [np.as_float]. rewrite C0.
    exact (stored_rounds dt p e _ _ Hk Rr). }
  exists (SFadd p e uf f0).
  split.
  { unfold quantize, dequantize. rewrite Hsub, Hdiv, Hcodeq, Hy, Hmul.
    exact Hadd. }
  destruct Rr as (_ & Fr & Br & _). split; [exact Fr |].
  fold v.
  apply (error_bound d h Hd0 Hd Hh0 Hhd a s S u lo v _ M); try assumption;
    try lra.
Qed.
End Path.
End Uint8_path.

(** ** The UINT8 mode: the error of the round trip *)

Module Extremes.
Import jina_pb2 DenseNdArray Codec_spec np_facts Codec_facts Uint8_facts
  Uint8_num IEEE_facts Order_facts Min_facts Float_arrays Float_min.

Lemma fmin_bottom_r (a b : spec_float) : bottom b -> bottom (np.fmin a b).
Proof.
  unfold bottom, np.fmin.
  destruct a as [[|] | [|] | | [|] ma xa], b as [[|] | [|] | | [|] mb xb];
    cbn; intros [H | H]; try discriminate H; auto.
Qed.

Lemma fold_fmin_bottom_in (vs : list spec_float) (a w : spec_float) :
  In w (a :: vs) -> bottom w -> bottom (fold_left np.fmin vs a).
Proof.
  revert a. induction vs as [| b vs IH]; intros a Hin Hw.
  - destruct Hin as [E | []]. now subst w.
  - cbn [fold_left]. destruct Hin as [E | [E | Hin]].
    + subst w. apply fold_fmin_bottom. now apply fmin_bottom.
    + subst w. apply fold_fmin_bottom. now apply fmin_bottom_r.
    + apply IH; [now right | exact Hw].
Qed.

Lemma fmax_cases (a b : spec_float) : np.fmax a b = a \/ np.fmax a b = b.
Proof.
  unfold np.fmax. destruct (IEEE.is_nan a); [now left |].
  destruct (IEEE.is_nan b); [now right |].
  destruct (SFltb a b); [now right | now left].
Qed.

Lemma fold_fmax_in (vs : list spec_float) (a : spec_float) :
  In (fold_left np.fmax vs a) (a :: vs).
Proof.
  revert a. induction vs as [| b vs IH]; intros a; [now left |].
  cbn [fold_left]. destruct (IH (np.fmax a b)) as [H | H].
  - rewrite <- H. destruct (fmax_cases a b) as [-> | ->];
      [now left | right; now left].
  - right. now right.
Qed.

(** A NaN or plus infinity among the elements is the maximum. *)
Lemma fmax_top (a b : spec_float) :
  (a = S754_nan \/ a = S754_infinity false)
  \/ (b = S754_nan \/ b = S754_infinity false) ->
  np.fmax a b = S754_nan \/ np.fmax a b = S754_infinity false.
Proof.
  unfold np.fmax.
  destruct a as [[|] | [|] | | [|] ma xa], b as [[|] | [|] | | [|] mb xb];
    cbn; intros [[H | H] | [H | H]]; try discriminate H; auto.
Qed.

Lemma fold_fmax_top (vs : list spec_float) (a w : spec_float) :
  In w (a :: vs) -> w = S754_nan \/ w = S754_infinity false ->
  fold_left np.fmax vs a = S754_nan
  \/ fold_left np.fmax vs a = S754_infinity false.
Proof.
  revert a w. induction vs as [| b vs IH]; intros a w Hin Hw.
  - destruct Hin as [E | []]. now subst w.
  - cbn [fold_left]. destruct Hin as [E | [E | Hin]].
    + subst w.
      apply (IH _ (np.fmax a b)); [now left | apply fmax_top; now left].
    + subst w.
      apply (IH _ (np.fmax a b)); [now left | apply fmax_top; now right].
    + apply (IH _ w); [now right | exact Hw].
Qed.

Lemma fold_smax_F (fs : list spec_float) (f0 : spec_float) :
  fold_left np.smax (map np.F fs) (np.F f0)
  = np.F (fold_left np.fmax fs f0).
Proof.
  revert f0. induction fs as [| f fs IH]; intros f0; [reflexivity |].
  cbn [map fold_left np.smax]. apply IH.
Qed.

(** [x.max()] and [x.min()] of a float array are elements of it, and when
    both are finite every element is. *)
Lemma extremes_float (x : np.ndarray) (mx mn : np.scalar) (p e : Z) :
  np.kind (np.dtype x) = np.Float p e ->
  np.max x = Ok mx -> np.min x = Ok mn ->
  exists f1 f0,
    mx = np.F f1 /\ mn = np.F f0
    /\ valid_binary p e f1 = true /\ valid_binary p e f0 = true
    /\ (IEEE.is_finite f1 = true -> IEEE.is_finite f0 = true ->
        forall v, In v (np.items x) ->
                  exists fv, v = np.F fv /\ valid_binary p e fv = true
                             /\ IEEE.is_finite fv = true).
Proof.
  intros Hk Hmax Hmin.
  assert (Hf : np.is_float (np.dtype x) = true)
    by (unfold np.is_float; now rewrite Hk).
  destruct (floats_of (np.dtype x) p e (np.items x) Hk
              (fun v => items_float x v Hf)) as (fs & Hfs & Hval).
  unfold np.max, np.min, np.reduce in Hmax, Hmin. rewrite Hfs in Hmax, Hmin.
  destruct fs as [| fa fs]; [discriminate |].
  cbn [map] in Hmax, Hmin. injection Hmax as <-. injection Hmin as <-.
  rewrite fold_smax_F, fold_smin_F.
  pose proof (proj1 (Forall_forall _ _) Hval) as Hall.
  exists (fold_left np.fmax fs fa), (fold_left np.fmin fs fa).
  split; [reflexivity |]. split; [reflexivity |].
  split; [apply Hall, fold_fmax_in |]. split; [apply Hall, fold_fmin_in |].
  intros F1 F0 v Hin. rewrite Hfs in Hin. apply in_map_iff in Hin.
  destruct Hin as (fv & <- & Hin). exists fv. split; [reflexivity |].
  split; [now apply Hall |].
  destruct (IEEE.is_finite fv) eqn:Fv; [reflexivity | exfalso].
  destruct (not_finite_cases fv Fv) as [Hb | ->].
  - pose proof (fold_fmin_bottom_in fs fa fv Hin Hb) as Hbot.
    apply bottom_not_finite in Hbot. congruence.
  - destruct (fold_fmax_top fs fa _ Hin (or_intror eq_refl)) as [E | E];
      rewrite E in F1; discriminate F1.
Qed.
End Extremes.

Module Uint8_bound.
Import jina_pb2 DenseNdArray Codec_spec np_facts Codec_facts Uint8_facts
  Uint8_num IEEE_facts Order_facts Min_facts Float_arrays Float_min
  Uint8_round_trip Rounding_spec Qpow_facts Round_ops Uint8_path Extremes.
Local Open Scope Q_scope.

Section RoundTrip.
Context {platform : np.Platform}.

(** The maximum and the minimum as Python floats: finite binary64 floats
    that denote the same numbers and convert back to the element type
    exactly. *)
Lemma to_double_valid (dt : np.DType) (p e : Z) (f : spec_float) :
  np.kind dt = np.Float p e -> (11 <= p <= 53)%Z -> (16 <= e <= 1024)%Z ->
  valid_binary p e f = true ->
  IEEE.is_finite (np.to_double (np.F f)) = true ->
  Qabs (IEEE.value (np.to_double (np.F f))) <= 2 ^ (e - 3) ->
  IEEE.is_finite f = true
  /\ valid_binary 53 1024 (np.to_double (np.F f)) = true
  /\ IEEE.of_float p e (np.to_double (np.F f)) = f
  /\ IEEE.value f == IEEE.value (np.to_double (np.F f)).
Proof.
  intros Hk Hp He V Fd Hmag.
  assert (Hf : np.is_float dt = true) by (unfold np.is_float; now rewrite Hk).
  assert (Hfl : float_of dt (np.F f)) by (unfold float_of; now rewrite Hk).
  pose proof (to_double_finite f Fd) as F.
  destruct (to_double_exact dt f Hf Hfl F) as (Hcast & _ & Hval).
  unfold np.cast in Hcast. rewrite Hk in Hcast. injection Hcast as Hcast.
  split; [exact F |]. split; [| split; [exact Hcast | now symmetry]].
  assert (R : rounds_to 53 1024 (IEEE.value f) (IEEE.of_float 53 1024 f)).
  { apply of_float_rounds; try lia; try exact F.
    rewrite <- Hval. apply Qle_lt_trans with (1 := Hmag).
    apply Qlt_le_trans with (2 ^ (1024 - 1)); [| apply Qle_refl].
    apply Qle_lt_trans with (2 ^ (1024 - 3)); [apply pow2_le; lia |].
    vm_compute. reflexivity. }
  destruct R as (R & _). exact R.
Qed.

(** C1, amended (UINT8 round trip): for a float array with at least one
    element the setter in [uint8] mode stores the maximum, the minimum and
    [scale = (max_val - min_val) / 256], computed as Python floats, and the
    getter reads an array of the same dtype and shape back.  The cast to
    uint8 truncates and every operation rounds, so the bound is one step
    and a rounding term, not half a step.  Let [max_val] and [min_val] be
    finite and of magnitude at most [limit] (an eighth of the range of the
    element type), and let them be at least 1024 times the smallest normal
    number of the element type apart.  Then every element [v] that is not
    within 16 [eps] of the length of the range below [max_val],
    [v - min_val <= (1 - 16 eps) (max_val - min_val)], is read back as a
    finite float [r] with
    [|v - r| <= scale + 16 eps max(|min_val|, |max_val|)]; no element is
    below [min_val].  For a constant array ([max_val == min_val], finite)
    every element read back is finite and equal to [min_val]. *)
Theorem uint8_round_trip (blob : DenseNdArrayProto) (x : np.ndarray) :
  np.wf x -> np.size x <> 0%nat -> np.is_float (np.dtype x) = true ->
  exists blob' mx mn y,
    set_value (Some "uint8"%string) blob x = (blob', Ok tt)
    /\ np.max x = Ok mx /\ np.min x = Ok mn
    /\ max_val blob' = np.to_double mx /\ min_val blob' = np.to_double mn
    /\ scale blob' = py_div_int (py_sub (max_val blob') (min_val blob')) 256
    /\ get_value blob' = Ok (Some y)
    /\ np.dtype y = np.dtype x /\ np.shape y = np.shape x
    /\ (IEEE.is_finite (max_val blob') = true ->
        IEEE.is_finite (min_val blob') = true ->
        magnitude blob' <= limit (np.dtype x) ->
        1024 * tiny (np.dtype x)
        <= IEEE.value (max_val blob') - IEEE.value (min_val blob') ->
        forall i v,
          nth_error (np.items x) i = Some v ->
          real v - IEEE.value (min_val blob')
          <= (1 - 16 * eps (np.dtype x))
             * (IEEE.value (max_val blob') - IEEE.value (min_val blob')) ->
          exists r,
            nth_error (np.items y) i = Some (np.F r)
            /\ IEEE.is_finite r = true
            /\ IEEE.value (min_val blob') <= real v
            /\ Qabs (real v - IEEE.value r)
               <= IEEE.value (scale blob')
                  + 16 * eps (np.dtype x) * magnitude blob')
    /\ (SFeqb (max_val blob') (min_val blob') = true ->
        IEEE.is_finite (max_val blob') = true ->
        forall i w,
          nth_error (np.items y) i = Some w ->
          finite_with (IEEE.value (min_val blob')) w).
Proof.
  intros Hwf Hne Hf.
  destruct (uint8_round_trip_items blob x Hwf Hne Hf)
    as (blob' & mx & mn & y & Hset & Hmx & Hmn & Hhi & Hlo & Hsc & _ & _
        & Hget & Hyd & Hys & Hyi).
  destruct (format_range (np.dtype x) Hf)
    as (p & e & Hk & Hp & He & Hpe & Hsum).
  assert (Hp1 : (1 < p)%Z) by lia.
  destruct (extremes_float x mx mn p e Hk Hmx Hmn)
    as (f1 & f0 & -> & -> & V1 & V0 & Hall).
  destruct (min_float x (np.F f0) p e Hk Hp1 Hmn)
    as (f0' & E0 & _ & Hmin). injection E0 as <-.
  assert (Hfl0 : float_of (np.dtype x) (np.F f0))
    by (unfold float_of; now rewrite Hk).
  exists blob', (np.F f1), (np.F f0), y. repeat split; try assumption.
  - intros Fhi Flo Hmag Hrange i v Hi Hmargin.
    unfold limit in Hmag. unfold tiny in Hrange. unfold eps in Hmargin |- *.
    rewrite Hk in Hmag, Hrange, Hmargin |- *.
    assert (HMlo : Qabs (IEEE.value (min_val blob')) <= magnitude blob')
      by apply Q.le_max_l.
    assert (HMhi : Qabs (IEEE.value (max_val blob')) <= magnitude blob')
      by apply Q.le_max_r.
    rewrite Hhi in Fhi. rewrite Hlo in Flo.
    destruct (to_double_valid (np.dtype x) p e f1 Hk Hp He V1 Fhi)
      as (F1 & Vhi & _ & _).
    { rewrite <- Hhi. now apply Qle_trans with (magnitude blob'). }
    destruct (to_double_valid (np.dtype x) p e f0 Hk Hp He V0 Flo)
      as (F0 & Vlo & C0 & E0).
    { rewrite <- Hlo. now apply Qle_trans with (magnitude blob'). }
    destruct (Hall F1 F0 v (nth_error_In _ _ Hi)) as (fv & -> & Vv & Fv).
    cbn [real] in *.
    assert (Hge : IEEE.value (min_val blob') <= IEEE.value fv).
    { rewrite Hlo, <- E0. apply (Hmin F0); [| exact Fv].
      exact (nth_error_In _ _ Hi). }
    rewrite <- Hhi in Vhi, Fhi. rewrite <- Hlo in Vlo, Flo, C0, E0.
    destruct (element_path (np.dtype x) p e Hk Hp He Hpe Hsum
                (max_val blob') (min_val blob') f0 fv (magnitude blob')
                Vhi Fhi Vlo Flo V0 F0 C0 E0 Vv Fv Hge HMlo HMhi Hmag Hrange
                Hmargin) as (r & Hr & Fr & Hb).
    rewrite <- Hsc in Hr, Hb.
    exists r. split.
    { rewrite Hyi, nth_error_map, Hi. cbn [option_map]. now rewrite Hr. }
    split; [exact Fr |]. split; [exact Hge | exact Hb].
  - intros Heq Hfin i w Hi.
    rewrite Hyi, nth_error_map in Hi.
    destruct (nth_error (np.items x) i) as [v |]; [| discriminate].
    cbn [option_map] in Hi. injection Hi as <-. rewrite Hsc.
    apply constant_element; try assumption.
    rewrite Hlo. apply min_representable; try assumption.
    rewrite <- Hlo. now apply (SFeqb_finite (max_val blob')).
Qed.
End RoundTrip.

Lemma uint8_round_trip_witness :
  (exists blob y r,
      uint8_trip (platform := np.x86_64) uneven = Some (blob, y)
      /\ nth_error (np.items uneven) 1 = Some (f64 2 0)
      /\ nth_error (np.items y) 1 = Some (np.F r)
      /\ IEEE.is_finite r = true
      /\ IEEE.value (min_val blob) <= real (f64 2 0)
      /\ Qabs (real (f64 2 0) - IEEE.value r)
         <= IEEE.value (scale blob)
            + 16 * eps np.float64 * magnitude blob)
  /\ (exists blob y,
        uint8_trip (platform := np.x86_64) fives = Some (blob, y)
        /\ forall i w,
            nth_error (np.items y) i = Some w ->
            finite_with (IEEE.value (min_val blob)) w).
Proof.
  split.
  - destruct (uint8_round_trip (platform := np.x86_64) empty uneven)
      as (blob & mx & mn & y & Hset & _ & _ & _ & _ & _ & Hget & _ & _
          & Hbound & _);
      [reflexivity | cbn; lia | reflexivity |].
    assert (Hb : blob = fst (set_value (platform := np.x86_64)
                               (Some "uint8"%string) empty uneven))
      by now rewrite Hset.
    destruct (Hbound ltac:(rewrite Hb; vm_compute; reflexivity)
                ltac:(rewrite Hb; vm_compute; reflexivity)
                ltac:(rewrite Hb; vm_compute; discriminate)
                ltac:(rewrite Hb; vm_compute; discriminate)
                1%nat (f64 2 0) ltac:(vm_compute; reflexivity)
                ltac:(rewrite Hb; vm_compute; discriminate))
      as (r & Hr & Hfin & Hge & Herr).
    exists blob, y, r. split.
    { unfold uint8_trip. cbv zeta. rewrite <- Hb, Hget. reflexivity. }
    split; [vm_compute; reflexivity |].
    split; [exact Hr |]. split; [exact Hfin |].
    split; [exact Hge | exact Herr].
  - destruct (uint8_round_trip (platform := np.x86_64) empty fives)
      as (blob & mx & mn & y & Hset & _ & _ & _ & _ & _ & Hget & _ & _
          & _ & Hconst);
      [reflexivity | cbn; lia | reflexivity |].
    assert (Hb : blob = fst (set_value (platform := np.x86_64)
                               (Some "uint8"%string) empty fives))
      by now rewrite Hset.
    exists blob, y. split.
    + unfold uint8_trip. cbv zeta. rewrite <- Hb, Hget. reflexivity.
    + apply Hconst; rewrite Hb; vm_compute; reflexivity.
Defined.

(** C1 as stated fails, in each of the ways the amended statement allows
    for (x86-64; the element is the second of three, never the maximum):

    - the cast truncates: in [[0.0, 0.75, 256.0]] the scale is 1.0 and 0.75
      is read back as 0.0, an error above [scale / 2];
    - the operations round: in [[2^53, 2^53 + 10, 2^53 + 448]] the scale is
      1.75 and [2^53 + 10] is read back as [2^53 + 8], an error above
      [scale];
    - close to the maximum the quotient rounds to 256: in
      [[-2^60, 1.0, 2.0]] the element 1.0 gets the code 0 and is read back
      as [-2^60];
    - the difference of large elements overflows: in
      [[-2^1023, 0.0, 2^1023]] the scale is infinite and 0.0 is read back
      as NaN;
    - the scale of a tiny range underflows: in [[0.0, 2^-1074, 2^-1073]]
      the scale is 0.0 and [2^-1074] is read back as 0.0;
    - an infinite maximum: in [[0.0, 1.0, inf]] the element 1.0 is read
      back as NaN. *)
Lemma uint8_error_bound_counterexample :
  (exists blob y,
      uint8_trip (platform := np.x86_64) ramp = Some (blob, y)
      /\ SFltb (min_val blob) (max_val blob) = true
      /\ IEEE.value (scale blob) == 1
      /\ nth_error (np.items ramp) 1 = Some (f64 3 (-2))
      /\ real (f64 3 (-2)) == 3 # 4
      /\ nth_error (np.items y) 1 = Some (np.F (S754_zero false))
      /\ ~ Qabs (real (np.F (S754_zero false)) - real (f64 3 (-2)))
           <= IEEE.value (scale blob) / 2)
  /\ (exists blob y,
        uint8_trip (platform := np.x86_64) wide = Some (blob, y)
        /\ SFltb (min_val blob) (max_val blob) = true
        /\ IEEE.value (scale blob) == 7 # 4
        /\ nth_error (np.items wide) 1 = Some (f64 (2 ^ 53 + 10) 0)
        /\ nth_error (np.items y) 1 = Some (f64 (2 ^ 53 + 8) 0)
        /\ ~ Qabs (real (f64 (2 ^ 53 + 8) 0) - real (f64 (2 ^ 53 + 10) 0))
             <= IEEE.value (scale blob))
  /\ (exists blob y,
        uint8_trip (platform := np.x86_64) lopsided = Some (blob, y)
        /\ SFltb (min_val blob) (max_val blob) = true
        /\ IEEE.value (scale blob) == 2 ^ 52
        /\ nth_error (np.items lopsided) 1 = Some (f64 1 0)
        /\ real (f64 1 0) < IEEE.value (max_val blob)
        /\ nth_error (np.items y) 1 = Some (f64 (- 2 ^ 60) 0)
        /\ ~ Qabs (real (f64 (- 2 ^ 60) 0) - real (f64 1 0))
             <= IEEE.value (scale blob))
  /\ (exists blob y,
        uint8_trip (platform := np.x86_64) extreme = Some (blob, y)
        /\ SFltb (min_val blob) (max_val blob) = true
        /\ IEEE.is_finite (max_val blob) = true
        /\ IEEE.is_finite (min_val blob) = true
        /\ scale blob = S754_infinity false
        /\ nth_error (np.items extreme) 1 = Some (np.F (S754_zero false))
        /\ nth_error (np.items y) 1 = Some (np.F S754_nan))
  /\ (exists blob y,
        uint8_trip (platform := np.x86_64) minute = Some (blob, y)
        /\ SFltb (min_val blob) (max_val blob) = true
        /\ scale blob = S754_zero false
        /\ nth_error (np.items minute) 1 = Some (f64 1 (-1074))
        /\ nth_error (np.items y) 1 = Some (np.F (S754_zero false))
        /\ ~ Qabs (real (np.F (S754_zero false)) - real (f64 1 (-1074)))
             <= IEEE.value (scale blob) / 2)
  /\ (exists blob y,
        uint8_trip (platform := np.x86_64) unbounded = Some (blob, y)
        /\ SFltb (min_val blob) (max_val blob) = true
        /\ max_val blob = S754_infinity false
        /\ nth_error (np.items unbounded) 1 = Some (f64 1 0)
        /\ nth_error (np.items y) 1 = Some (np.F S754_nan)).
Proof.
  split; [| split; [| split; [| split; [| split]]]];
    (eexists; eexists; split; [vm_compute; reflexivity |]);
    repeat match goal with
      | |- _ /\ _ => split
      | |- ~ _ => vm_compute; intros H; apply H; reflexivity
      | |- _ < _ => vm_compute; reflexivity
      | |- _ => vm_compute; reflexivity
      end.
Qed.
End Uint8_bound.
